(** * Well-Architected IaC analyzer: the analyzer service

    A shallow embedding of [AnalyzerService] (the analysis and generation
    orchestrator, its response parsers and its taxonomy grouping) together
    with the properties its specification states about it.

    Conventions.
    - A JavaScript string is a sequence of code units.  Only code units
      below 256 are modelled, so a string is a [string] of the Standard
      Library, handled internally as a [list ascii]; character classes
      ([\s], [\d], [toLowerCase]) are the ECMAScript ones restricted to
      that range.
    - Regular expressions are embedded as the scanning functions they
      denote; every such function quotes the expression it stands for.
    - The order of a document section is a double that holds an integer,
      or [Infinity]; it is given by that integer, and the rounding of
      [parseInt] to the nearest double is written out.
    - External collaborators (storage, inference, retrieval, gateway) are
      given by an environment of outcomes; the service threads a world
      that records every call made to them. *)

From Stdlib Require Import ZArith Ascii String List Bool Lia Floats.
From Stdlib Require Import DecimalString.
From stdpp Require Import base option list gmap strings.

Import ListNotations.
Local Open Scope Z_scope.
Local Open Scope list_scope.

(** ** JavaScript strings *)

Module JS.

Definition str := list ascii.

Definition lit (s : string) : str := list_ascii_of_string s.

Coercion lit : string >-> str.

Definition code (c : ascii) : N := N_of_ascii c.

Definition between (lo hi n : N) : bool := ((lo <=? n) && (n <=? hi))%N.

(** [\s], and the characters removed by [trim]. *)
Definition isSpace (c : ascii) : bool :=
  between 9 13 (code c) || (code c =? 32)%N || (code c =? 160)%N.

(** [\d] *)
Definition isDigit (c : ascii) : bool := between 48 57 (code c).

(** [[a-z0-9]] *)
Definition isLowerAlnum (c : ascii) : bool :=
  isDigit c || between 97 122 (code c).

(** [.] without the [s] flag: anything but a line terminator. *)
Definition isLineTerminator (c : ascii) : bool :=
  (code c =? 10)%N || (code c =? 13)%N.

Definition hasLowerCase (c : ascii) : bool :=
  between 65 90 (code c)
  || (between 192 222 (code c) && negb (code c =? 215)%N).

Definition lowerChar (c : ascii) : ascii :=
  if hasLowerCase c then ascii_of_N (code c + 32) else c.

(** [String.prototype.toLowerCase] *)
Definition toLowerCase (s : str) : str := map lowerChar s.

Definition ascii_eqb (a b : ascii) : bool := Ascii.eqb a b.

(** [s.startsWith(p)] *)
Fixpoint startsWith (p s : str) : bool :=
  match p, s with
  | [], _ => true
  | a :: p', b :: s' => ascii_eqb a b && startsWith p' s'
  | _ :: _, [] => false
  end.

(** [s.includes(p)] *)
Fixpoint includes (p s : str) : bool :=
  startsWith p s ||
  match s with
  | [] => false
  | _ :: s' => includes p s'
  end.

(** [s.indexOf(p)], [None] standing for [-1]. *)
Fixpoint indexOf (p s : str) : option nat :=
  if startsWith p s then Some O
  else match s with
       | [] => None
       | _ :: s' => S <$> indexOf p s'
       end.

(** [s.lastIndexOf(p)], [None] standing for [-1]. *)
Fixpoint lastIndexOf (p s : str) : option nat :=
  match s with
  | [] => if startsWith p [] then Some O else None
  | _ :: s' =>
      match lastIndexOf p s' with
      | Some i => Some (S i)
      | None => if startsWith p s then Some O else None
      end
  end.

(** [s.substring(a, b)]: the arguments are clamped to the length and
    swapped when [a > b]. *)
Definition substring (a b : nat) (s : str) : str :=
  let lo := Nat.min a b in
  let hi := Nat.max a b in
  take (hi - lo) (drop lo s).

(** [s.replace(p, r)] with a string pattern: the first occurrence only. *)
Fixpoint replaceFirst (p r s : str) : str :=
  if startsWith p s then r ++ drop (length p) s
  else match s with
       | [] => []
       | c :: s' => c :: replaceFirst p r s'
       end.

(** [s.replace(/p/g, r)] for a literal, non-empty pattern [p]: every
    occurrence, scanning from the left without overlap.  [skip] counts the
    characters of the current occurrence still to be dropped. *)
Fixpoint replaceAllFrom (p r : str) (skip : nat) (s : str) : str :=
  match s with
  | [] => []
  | c :: s' =>
      match skip with
      | S k => replaceAllFrom p r k s'
      | O =>
          if startsWith p s then r ++ replaceAllFrom p r (length p - 1) s'
          else c :: replaceAllFrom p r O s'
      end
  end.

Definition replaceAll (p r s : str) : str := replaceAllFrom p r O s.

(** The longest prefix of [s] whose characters satisfy [P] is dropped. *)
Fixpoint dropWhile (P : ascii -> bool) (s : str) : str :=
  match s with
  | [] => []
  | c :: s' => if P c then dropWhile P s' else s
  end.

Definition trimStart (s : str) : str := dropWhile isSpace s.

Definition trimEnd (s : str) : str := rev (dropWhile isSpace (rev s)).

(** [String.prototype.trim] *)
Definition trim (s : str) : str := trimEnd (trimStart s).

(** [a.join(sep)] on an array of strings. *)
Fixpoint join (sep : str) (parts : list str) : str :=
  match parts with
  | [] => []
  | [p] => p
  | p :: rest => p ++ sep ++ join sep rest
  end.

(** A value used as a condition: the empty string is falsy. *)
Definition truthy (s : str) : bool :=
  match s with
  | [] => false
  | _ :: _ => true
  end.

(** *** Global replacement of character runs *)

(** [s.replace(/[P]+/g, r)]: every maximal run of characters satisfying [P]
    becomes [r].  [inRun] tells that the previous character belonged to the
    run being replaced. *)
Fixpoint replaceRunsFrom (P : ascii -> bool) (r : str) (inRun : bool)
    (s : str) : str :=
  match s with
  | [] => []
  | c :: s' =>
      if P c then
        (if inRun then [] else r) ++ replaceRunsFrom P r true s'
      else c :: replaceRunsFrom P r false s'
  end.

Definition replaceRuns (P : ascii -> bool) (r s : str) : str :=
  replaceRunsFrom P r false s.

Definition headIs (P : ascii -> bool) (s : str) : bool :=
  match s with
  | [] => false
  | c :: _ => P c
  end.

(** The double quote character. *)
Definition quoteChar : ascii := "034"%char.

Definition isQuote (c : ascii) : bool := ascii_eqb c quoteChar.

(** Whether the negative lookbehind for a double quote holds, [prev] being
    the character before the current position, if any. *)
Definition notAfterQuote (prev : option ascii) : bool :=
  match prev with
  | Some p => negb (isQuote p)
  | None => true
  end.

(** [s.replace(/c\s+/g, c)], and with [unquoted] set the same expression
    behind a negative lookbehind for a double quote: the white space that
    follows an occurrence of [c] is dropped.  [prev] is the character
    before the current position and [dropping] tells that the white space
    met now follows a matched [c]. *)
Fixpoint stripAfterFrom (c : ascii) (unquoted : bool) (prev : option ascii)
    (dropping : bool) (s : str) : str :=
  match s with
  | [] => []
  | x :: s' =>
      if dropping && isSpace x then
        stripAfterFrom c unquoted (Some x) true s'
      else
        x :: stripAfterFrom c unquoted (Some x)
               (ascii_eqb x c && (negb unquoted || notAfterQuote prev)) s'
  end.

Definition stripAfter (c : ascii) (unquoted : bool) (s : str) : str :=
  stripAfterFrom c unquoted None false s.

(** [s.replace(/\s+c/g, c)]: a run of white space that ends at an
    occurrence of [c] is dropped. *)
Fixpoint stripBefore (c : ascii) (s : str) : str :=
  match s with
  | [] => []
  | x :: s' =>
      if isSpace x && headIs (ascii_eqb c) (dropWhile isSpace s') then
        stripBefore c s'
      else x :: stripBefore c s'
  end.

(** *** Backtracking matchers

    A matcher is given the continuation to run on the input left after it;
    alternatives are tried in the order the ECMAScript semantics tries
    them, so the first complete match found is the one the engine
    reports. *)

Section Matchers.

Context {A : Type}.

Definition mChar (c : ascii) (k : str -> option A) (s : str) : option A :=
  match s with
  | x :: s' => if ascii_eqb x c then k s' else None
  | [] => None
  end.

Definition mLit (p : str) (k : str -> option A) (s : str) : option A :=
  if startsWith p s then k (drop (length p) s) else None.

(** [[P]*], greedy; the continuation also receives the text matched. *)
Fixpoint mStarFrom (P : ascii -> bool) (k : str -> str -> option A)
    (acc s : str) : option A :=
  match s with
  | x :: s' =>
      if P x then
        match mStarFrom P k (acc ++ [x]) s' with
        | Some r => Some r
        | None => k acc s
        end
      else k acc s
  | [] => k acc []
  end.

Definition mStar (P : ascii -> bool) (k : str -> option A) : str -> option A :=
  mStarFrom P (fun _ => k) [].

(** [[P]+], greedy, capturing. *)
Definition mPlusC (P : ascii -> bool) (k : str -> str -> option A)
    (s : str) : option A :=
  match s with
  | x :: s' => if P x then mStarFrom P k [x] s' else None
  | [] => None
  end.

Definition mPlus (P : ascii -> bool) (k : str -> option A) : str -> option A :=
  mPlusC P (fun _ => k).

(** [[P]*?], lazy; the continuation also receives the text matched. *)
Fixpoint mLazyStarFrom (P : ascii -> bool) (k : str -> str -> option A)
    (acc s : str) : option A :=
  match k acc s with
  | Some r => Some r
  | None =>
      match s with
      | x :: s' => if P x then mLazyStarFrom P k (acc ++ [x]) s' else None
      | [] => None
      end
  end.

Definition mLazyStar (P : ascii -> bool) (k : str -> option A)
  : str -> option A :=
  mLazyStarFrom P (fun _ => k) [].

(** [[P]+?], lazy, capturing. *)
Definition mLazyPlusC (P : ascii -> bool) (k : str -> str -> option A)
    (s : str) : option A :=
  match s with
  | x :: s' => if P x then mLazyStarFrom P k [x] s' else None
  | [] => None
  end.

(** [(?=...)] for a lookahead given as a test on the rest of the input. *)
Definition mLook (test : str -> bool) (k : str -> option A) (s : str)
  : option A :=
  if test s then k s else None.

(** [$] without the [m] flag. *)
Definition mEnd (k : str -> option A) (s : str) : option A :=
  match s with
  | [] => k []
  | _ :: _ => None
  end.

End Matchers.

Definition anyChar (c : ascii) : bool := true.

Definition notLineTerminator (c : ascii) : bool := negb (isLineTerminator c).

Definition matches (m : (str -> option unit) -> str -> option unit)
    (s : str) : bool :=
  match m (fun _ => Some tt) s with
  | Some _ => true
  | None => false
  end.

(** [s.match(/r/g)] for an expression that never matches the empty string:
    the matched texts, from the left and without overlap.  [m] reports the
    input left after a match at the current position; [skip] counts the
    characters of the current match still to be passed over. *)
Fixpoint matchAllFrom (m : str -> option str) (skip : nat) (s : str)
  : list str :=
  match s with
  | [] => []
  | _ :: s' =>
      match skip with
      | S k => matchAllFrom m k s'
      | O =>
          match m s with
          | Some rest =>
              let n := (length s - length rest)%nat in
              take n s :: matchAllFrom m (n - 1) s'
          | None => matchAllFrom m O s'
          end
      end
  end.

Definition matchAll (m : str -> option str) (s : str) : list str :=
  matchAllFrom m O s.

(** [s.replace(/r/, r')] without the [g] flag: the leftmost match only. *)
Fixpoint replaceFirstMatch (m : str -> option str) (r s : str) : str :=
  match m s with
  | Some rest => r ++ rest
  | None =>
      match s with
      | [] => []
      | c :: s' => c :: replaceFirstMatch m r s'
      end
  end.

(** [s.split(/(?=p)/)]: the input is cut before every occurrence of [p]
    that does not start it.  [cur] is the piece being read, reversed. *)
Fixpoint splitBeforeFrom (p : str) (cur : str) (s : str) : list str :=
  match s with
  | [] => [rev cur]
  | c :: s' =>
      if startsWith p s && truthy cur then
        rev cur :: splitBeforeFrom p [c] s'
      else splitBeforeFrom p (c :: cur) s'
  end.

Definition splitBefore (p s : str) : list str := splitBeforeFrom p [] s.

(** *** Numbers *)

Definition digitValue (c : ascii) : Z := Z.of_N (code c) - 48.

(** The integer that a run of decimal digits writes. *)
Definition decimalValue (digits : str) : Z :=
  fold_left (fun acc c => 10 * acc + digitValue c) digits 0.

(** The numbers that the order of a section can be: a double that holds
    an integer, given by that integer, or [Infinity]. *)
Inductive number : Type :=
| Finite (value : Z)
| Infinity.

#[global] Instance number_eq_dec : EqDecision number.
Proof. solve_decision. Defined.

(** The double nearest to a non-negative integer [n].  Up to 53 bits the
    integer is a double; beyond, the bits past the first 53 are rounded
    off, to the nearest multiple of [unit] and on a tie to the one whose
    significand is even, and a result that reaches 2^1024 is
    [Infinity]. *)
Definition nearestDouble (n : Z) : number :=
  let excess := Z.log2 n - 52 in
  if excess <=? 0 then Finite n
  else
    let unit := 2 ^ excess in
    let significand := n / unit in
    let rest := n mod unit in
    let rounded :=
      if (unit <? 2 * rest) || ((unit =? 2 * rest) && Z.odd significand)
      then significand + 1
      else significand in
    if 2 ^ 1024 <=? rounded * unit then Infinity
    else Finite (rounded * unit).

(** [parseInt] on a string of decimal digits: the double nearest to the
    integer written. *)
Definition parseInt (digits : str) : number :=
  nearestDouble (decimalValue digits).

(** [x - y < 0], the test that the sort makes of the comparator's result:
    the difference of two finite doubles has the sign of the exact
    difference, and [Infinity - Infinity] is [NaN], which is not below
    0. *)
Definition differenceNegative (x y : number) : bool :=
  match x, y with
  | Finite a, Finite b => a <? b
  | Finite _, Infinity => true
  | Infinity, _ => false
  end.

(** An integral JavaScript number, or [NaN]. *)
Inductive num : Type :=
| Int (z : Z)
| NaN.

Definition floatOfNat (n : nat) : float :=
  PrimFloat.of_uint63 (Uint63.of_Z (Z.of_nat n)).

(** [Math.round]: the nearest integer, ties going up. *)
Definition Math_round (x : float) : num :=
  match Prim2SF x with
  | S754_zero _ => Int 0
  | S754_finite sgn m e =>
      let n := Z.pos m in
      if 0 <=? e then Int (if sgn then - (n * 2 ^ e) else n * 2 ^ e)
      else
        let d := 2 ^ (- e) in
        Int (if sgn then - ((2 * n + d - 1) / (2 * d))
             else (2 * n + d) / (2 * d))
  | S754_infinity _ => NaN
  | S754_nan => NaN
  end.

(** [Math.round((a / b) * 100)] in double precision. *)
Definition roundPercent (a b : nat) : num :=
  Math_round (PrimFloat.mul (PrimFloat.div (floatOfNat a) (floatOfNat b))
                100%float).

(** *** Errors and results *)

(** A thrown [Error]: its [name] and its [message]. *)
Record Exn : Type := mkExn { exnName : str; exnMessage : str }.

Definition Error (message : str) : Exn := mkExn "Error" message.

Definition TypeError (message : str) : Exn := mkExn "TypeError" message.

(** [`${error}`], that is [Error.prototype.toString]. *)
Definition exnToString (e : Exn) : str :=
  match exnName e, exnMessage e with
  | n, [] => n
  | [], m => m
  | n, m => n ++ lit ": " ++ m
  end.

(** The result of a computation that may throw. *)
Inductive Result (A : Type) : Type :=
| Ok (a : A)
| Throw (e : Exn).

Arguments Ok {A} a.
Arguments Throw {A} e.

Definition str_eqb (a b : str) : bool := bool_decide (a = b).

Arguments str_eqb : simpl never.

End JS.

Import JS.

(** ** Data model *)

Module QuestionGroup.
Record t : Type := mk {
  pillar : str;
  title : str;
  questionId : str;
  bestPractices : list str;
  bestPracticeIds : list str
}.
End QuestionGroup.

Module WellArchitectedBestPractice.
Record t : Type := mk {
  Pillar : str;
  Question : str;
  questionId : str;
  Best_Practice : str;
  bestPracticeId : str
}.
End WellArchitectedBestPractice.

Module BestPractice.
Record t : Type := mk {
  name : str;
  applied : bool;
  reasonApplied : str;
  reasonNotApplied : str;
  recommendations : str
}.
End BestPractice.

(** The parsed model answer.  [bestPractices] is [None] when the parsed
    value carries no array under that key; an element of the array is
    [None] when it is [null]. *)
Module ModelResponse.
Record t : Type := mk {
  bestPractices : option (list (option BestPractice.t))
}.
End ModelResponse.

(** One element of the array built by [parseModelResponse]; [id] is [None]
    when it is [undefined]. *)
Module Verdict.
Record t : Type := mk {
  id : option str;
  name : str;
  applied : bool;
  reasonApplied : str;
  reasonNotApplied : str;
  recommendations : str
}.
End Verdict.

Module AnalysisResult.
Record t : Type := mk {
  pillar : str;
  question : str;
  questionId : str;
  bestPractices : list Verdict.t
}.
End AnalysisResult.

Module DocumentSection.
Record t : Type := mk {
  content : str;
  order : number;
  description : str
}.
End DocumentSection.

Module ModelSectionResponse.
Record t : Type := mk {
  isComplete : bool;
  sections : list DocumentSection.t
}.
End ModelSectionResponse.

(** ** Response parsing *)

(** The callback mapped over the verdicts: the verdict at [index] receives
    [questionGroup.bestPracticeIds[index]], and reading [bp.name] throws
    when the element is [null]. *)
Definition toVerdict (questionGroup : QuestionGroup.t) (index : nat)
    (bp : option BestPractice.t) : Result Verdict.t :=
  match bp with
  | Some bp =>
      Ok {| Verdict.id :=
              QuestionGroup.bestPracticeIds questionGroup !! index;
            Verdict.name := BestPractice.name bp;
            Verdict.applied := BestPractice.applied bp;
            Verdict.reasonApplied := BestPractice.reasonApplied bp;
            Verdict.reasonNotApplied := BestPractice.reasonNotApplied bp;
            Verdict.recommendations := BestPractice.recommendations bp |}
  | None =>
      Throw (TypeError "Cannot read properties of null (reading 'name')")
  end.

(** [array.map(callback)] for a callback that may throw: the elements are
    visited from the left and the first throw ends the call. *)
Fixpoint mapFrom {A B : Type} (callback : nat -> A -> Result B)
    (index : nat) (array : list A) : Result (list B) :=
  match array with
  | [] => Ok []
  | element :: rest =>
      match callback index element with
      | Ok b =>
          match mapFrom callback (S index) rest with
          | Ok bs => Ok (b :: bs)
          | Throw e => Throw e
          end
      | Throw e => Throw e
      end
  end.

(** [parseModelResponse]: whatever is thrown while the verdicts are mapped
    is caught and replaced by one error. *)
Definition parseModelResponse (response : ModelResponse.t)
    (questionGroup : QuestionGroup.t) : Result (list Verdict.t) :=
  match
    match ModelResponse.bestPractices response with
    | Some bestPractices => mapFrom (toVerdict questionGroup) O bestPractices
    | None =>
        Throw (TypeError
          "Cannot read properties of undefined (reading 'map')")
    end
  with
  | Ok records => Ok records
  | Throw _ => Throw (Error "Failed to parse analysis results")
  end.

(** The steps of [cleanJsonString] that follow the trimming to the
    outermost braces. *)
Definition normalizeJson (jsonString : str) : str :=
  let s := replaceRuns isSpace " " jsonString in
  let s := stripAfter ":" true s in
  let s := stripBefore ":" s in
  let s := stripAfter "," true s in
  let s := stripBefore "," s in
  let s := stripAfter "{" false s in
  let s := stripBefore "}" s in
  let s := stripAfter "[" false s in
  let s := stripBefore "]" s in
  let s := replaceAll ": True" ": true" s in
  replaceAll ": False" ": false" s.

Definition trimToBraces (jsonString : str) : str :=
  let firstCurlyBrace := indexOf "{" jsonString in
  let lastCurlyBrace := lastIndexOf "}" jsonString in
  match firstCurlyBrace, lastCurlyBrace with
  | Some f, Some l => substring f (l + 1) jsonString
  | _, _ => jsonString
  end.

Definition cleanJsonString (jsonString : str) : str :=
  normalizeJson (trimToBraces jsonString).

(** [s.replace(/^-|-$/g, '')] *)
Definition dropLastIf (c : ascii) (s : str) : str :=
  match rev s with
  | x :: t => if ascii_eqb x c then rev t else s
  | [] => s
  end.

Definition stripEdgeHyphens (s : str) : str :=
  match s with
  | c :: s' => if ascii_eqb c "-" then dropLastIf "-" s' else dropLastIf "-" s
  | [] => []
  end.

Definition notLowerAlnum (c : ascii) : bool := negb (isLowerAlnum c).

Definition generateFallbackBestPracticeId (name : str) : str :=
  stripEdgeHyphens (replaceRuns notLowerAlnum "-" (toLowerCase name)).

Definition endOfIacDocument : str := "<end_of_iac_document_generation>".

(** [#\s*Section\s*\d+], the digits being handed to the continuation. *)
Definition sectionHeader {A : Type} (k : str -> str -> option A)
  : str -> option A :=
  mChar "#" (mStar isSpace (mLit "Section" (mStar isSpace (mPlusC isDigit k)))).

(** The lookahead [(?=#\s*Section|\s*$)]. *)
Definition sectionEnds (s : str) : bool :=
  matches (fun k => mChar "#" (mStar isSpace (mLit "Section" k))) s
  || matches (fun k => mStar isSpace (mEnd k)) s.

(** [/#\s*Section\s*\d+.*?(?=#\s*Section|\s*$)/gs] at the current
    position: the input left after the match. *)
Definition sectionMatch : str -> option str :=
  sectionHeader (fun _ => mLazyStar anyChar (mLook sectionEnds Some)).

(** [/^#\s*Section\s*(\d+)/] *)
Definition orderMatch : str -> option str :=
  sectionHeader (fun digits _ => Some digits).

(** [/^#\s*Section\s*\d+\s*-\s*(.+?)\n/] *)
Definition descriptionMatch : str -> option str :=
  sectionHeader (fun _ =>
    mStar isSpace (mChar "-" (mStar isSpace
      (mLazyPlusC notLineTerminator (fun text =>
         mChar "010" (fun _ => Some text)))))).

(** [/^#\s*Section\s*\d+.*?\n/]: the input left after the header line. *)
Definition headerLine : str -> option str :=
  sectionHeader (fun _ => mLazyStar notLineTerminator (mChar "010" Some)).

(** [/<message_truncated>\s*$/]: the input left after the match. *)
Definition truncatedFlag : str -> option str :=
  mLit "<message_truncated>" (mStar isSpace (mEnd Some)).

(** The callback mapped over the section texts. *)
Definition toDocumentSection (section : str) : DocumentSection.t :=
  let cleanedContent :=
    trim (replaceFirstMatch truncatedFlag []
            (match headerLine section with
             | Some rest => rest
             | None => section
             end)) in
  {| DocumentSection.content := cleanedContent;
     DocumentSection.order :=
       match orderMatch section with
       | Some digits => parseInt digits
       | None => Finite 999
       end;
     DocumentSection.description :=
       match descriptionMatch section with
       | Some text => trim text
       | None => "Unnamed Section"
       end |}.

Definition parseImplementationModelResponse (content : str)
  : ModelSectionResponse.t :=
  let isComplete := includes endOfIacDocument content in
  let cleanContent := trim (replaceFirst endOfIacDocument [] content) in
  let sectionMatches := matchAll sectionMatch cleanContent in
  {| ModelSectionResponse.isComplete := isComplete;
     ModelSectionResponse.sections := map toDocumentSection sectionMatches |}.

Definition endOfDetails : str := "<end_of_details_generation>".

Definition parseDetailsModelResponse (content : str) : str * bool :=
  let isComplete := includes endOfDetails content in
  let cleanContent :=
    trim (replaceFirst "<details_truncated>" []
            (replaceFirst endOfDetails [] content)) in
  let cleanContent :=
    if negb isComplete && includes "#" cleanContent then
      concat (removelast (splitBefore "# " cleanContent))
    else cleanContent in
  (cleanContent, isComplete).

(** ** Taxonomy grouping *)

(** [pillar.toLowerCase().replace(/\s+/g, '-')] *)
Definition pillarSlug (pillar : str) : str :=
  replaceRuns isSpace "-" (toLowerCase pillar).

(** The value kept per question in the [questionGroups] map. *)
Module GroupData.
Record t : Type := mk {
  practices : list (str * str);
  questionId : str
}.
End GroupData.

(** A [Map] keyed by strings, in insertion order. *)
Definition OrderedMap (V : Type) : Type := list (str * V).

Definition mapHas {V : Type} (key : str) (m : OrderedMap V) : bool :=
  existsb (fun entry => str_eqb (fst entry) key) m.

(** [m.set(key, v)]: a known key keeps its place. *)
Fixpoint mapSet {V : Type} (key : str) (v : V) (m : OrderedMap V)
  : OrderedMap V :=
  match m with
  | [] => [(key, v)]
  | (k, old) :: rest =>
      if str_eqb k key then (k, v) :: rest else (k, old) :: mapSet key v rest
  end.

Fixpoint mapGet {V : Type} (key : str) (m : OrderedMap V) : option V :=
  match m with
  | [] => None
  | (k, v) :: rest => if str_eqb k key then Some v else mapGet key rest
  end.

(** The mutation of the value stored under [key], when there is one. *)
Fixpoint mapUpdate {V : Type} (key : str) (f : V -> V) (m : OrderedMap V)
  : OrderedMap V :=
  match m with
  | [] => []
  | (k, v) :: rest =>
      if str_eqb k key then (k, f v) :: rest else (k, v) :: mapUpdate key f rest
  end.

(** The body of the [forEach] over the practices of a pillar. *)
Definition addPractice (questionGroups : OrderedMap GroupData.t)
    (bp : WellArchitectedBestPractice.t) : OrderedMap GroupData.t :=
  let question := WellArchitectedBestPractice.Question bp in
  let questionGroups :=
    if negb (mapHas question questionGroups) then
      mapSet question
        {| GroupData.practices := [];
           GroupData.questionId := WellArchitectedBestPractice.questionId bp |}
        questionGroups
    else questionGroups in
  mapUpdate question
    (fun data =>
       {| GroupData.practices :=
            GroupData.practices data ++
            [(WellArchitectedBestPractice.Best_Practice bp,
              WellArchitectedBestPractice.bestPracticeId bp)];
          GroupData.questionId := GroupData.questionId data |})
    questionGroups.

(** [retrieveBestPractices] once the taxonomy has been loaded.  Reading
    [pillarBestPractices[0].Pillar] throws on an empty array; the error is
    caught and replaced like any other. *)
Definition groupBestPractices
    (allBestPractices : list WellArchitectedBestPractice.t) (pillarId : str)
  : Result (list QuestionGroup.t) :=
  let pillarBestPractices :=
    filter (fun bp =>
              pillarSlug (WellArchitectedBestPractice.Pillar bp) = pillarId)
      allBestPractices in
  let questionGroups := fold_left addPractice pillarBestPractices [] in
  match questionGroups with
  | [] => Ok []
  | _ :: _ =>
      match pillarBestPractices with
      | [] =>
          Throw (TypeError
                   "Cannot read properties of undefined (reading 'Pillar')")
      | first :: _ =>
          Ok (map (fun entry =>
                     {| QuestionGroup.pillar :=
                          WellArchitectedBestPractice.Pillar first;
                        QuestionGroup.title := fst entry;
                        QuestionGroup.questionId :=
                          GroupData.questionId (snd entry);
                        QuestionGroup.bestPractices :=
                          map fst (GroupData.practices (snd entry));
                        QuestionGroup.bestPracticeIds :=
                          map snd (GroupData.practices (snd entry)) |})
                questionGroups)
      end
  end.

(** The answers recorded for a workload. *)
Module Choice.
Record t : Type := mk {
  Title : option str;
  ChoiceId : option str
}.
End Choice.

Module AnswerSummary.
Record t : Type := mk {
  QuestionTitle : str;
  QuestionId : str;
  Choices : option (list Choice.t)
}.
End AnswerSummary.

(** [`${question}|||${choice}`] *)
Definition uniqueKey (question choice : str) : str :=
  question ++ lit "|||" ++ choice.

Definition addChoices (questionTitle : str) (choices : list Choice.t)
    (choiceIdMapping : gmap str str) : gmap str str :=
  fold_left
    (fun mapping choice =>
       match Choice.Title choice, Choice.ChoiceId choice with
       | Some title, Some choiceId =>
           if truthy title && truthy choiceId then
             <[uniqueKey questionTitle title := choiceId]> mapping
           else mapping
       | _, _ => mapping
       end)
    choices choiceIdMapping.

Definition choiceIds (answers : list AnswerSummary.t) : gmap str str :=
  fold_left
    (fun mapping answer =>
       match AnswerSummary.Choices answer with
       | Some choices =>
           addChoices (AnswerSummary.QuestionTitle answer) choices mapping
       | None => mapping
       end)
    answers ∅.

Definition questionIds (answers : list AnswerSummary.t) : gmap str str :=
  fold_left
    (fun mapping answer =>
       <[AnswerSummary.QuestionTitle answer :=
           AnswerSummary.QuestionId answer]> mapping)
    answers ∅.

(** [found || fallback]: an empty identifier is falsy. *)
Definition orFallback (found : option str) (fallback : str) : str :=
  match found with
  | Some v => if truthy v then v else fallback
  | None => fallback
  end.

(** The enrichment of one taxonomy entry in [loadBestPractices]. *)
Definition enrich (choiceIdMapping questionIdMapping : gmap str str)
    (bp : WellArchitectedBestPractice.t) : WellArchitectedBestPractice.t :=
  let question := WellArchitectedBestPractice.Question bp in
  let practice := WellArchitectedBestPractice.Best_Practice bp in
  {| WellArchitectedBestPractice.Pillar :=
       WellArchitectedBestPractice.Pillar bp;
     WellArchitectedBestPractice.Question := question;
     WellArchitectedBestPractice.Best_Practice := practice;
     WellArchitectedBestPractice.bestPracticeId :=
       orFallback (choiceIdMapping !! uniqueKey question practice)
         (generateFallbackBestPracticeId (question ++ lit "-" ++ practice));
     WellArchitectedBestPractice.questionId :=
       orFallback (questionIdMapping !! question)
         (generateFallbackBestPracticeId question) |}.

(** ** Collaborators *)

Inductive Status : Type :=
| PENDING
| IN_PROGRESS
| PARTIAL
| COMPLETED
| FAILED.

(** The fields of a work item that the service writes.  A field that is
    [None] is absent from the object; time stamps are not modelled. *)
Module WorkItemFields.
Record t : Type := mk {
  analysisStatus : option Status;
  analysisProgress : option num;
  analysisError : option str;
  analysisPartialResults : option bool;
  iacGenerationStatus : option Status;
  iacGenerationProgress : option num;
  iacGenerationError : option str;
  iacPartialResults : option bool;
  iacGeneratedFileType : option str
}.

Definition none : t := mk None None None None None None None None None.

Definition analysis (status : option Status) (progress : option num)
    (error : option str) (partialResults : option bool) : t :=
  mk status progress error partialResults None None None None None.

Definition iac (status : option Status) (progress : option num)
    (error : option str) (partialResults : option bool)
    (fileType : option str) : t :=
  mk None None None None status progress error partialResults fileType.

Definition orElse {A : Type} (new old : option A) : option A :=
  match new with
  | Some _ => new
  | None => old
  end.

(** The fields present in [patch] replace those of [old]. *)
Definition merge (patch old : t) : t :=
  mk (orElse (analysisStatus patch) (analysisStatus old))
     (orElse (analysisProgress patch) (analysisProgress old))
     (orElse (analysisError patch) (analysisError old))
     (orElse (analysisPartialResults patch) (analysisPartialResults old))
     (orElse (iacGenerationStatus patch) (iacGenerationStatus old))
     (orElse (iacGenerationProgress patch) (iacGenerationProgress old))
     (orElse (iacGenerationError patch) (iacGenerationError old))
     (orElse (iacPartialResults patch) (iacPartialResults old))
     (orElse (iacGeneratedFileType patch) (iacGeneratedFileType old)).
End WorkItemFields.

Module WorkItem.
Record t : Type := mk {
  fileId : str;
  fileType : option str;
  fields : WorkItemFields.t
}.
End WorkItem.

(** What the storage holds as original content. *)
Inductive Data : Type :=
| Buffer (bytes : str)
| Text (text : str).

(** An item selected for detailed analysis. *)
Module Item.
Record t : Type := mk {
  name : str;
  applied : bool
}.
End Item.

(** A call made to a collaborator, with its outcome.  Prompts are built
    from the data recorded here and are not modelled beyond it. *)
Inductive Event : Type :=
| GetWorkItem (userId fileId : str) (out : Result (option WorkItem.t))
| GetOriginalContent (userId fileId : str) (out : Result (Data * str))
| UpdateWorkItem (userId fileId : str) (patch : WorkItemFields.t)
    (out : Result unit)
| StoreAnalysisResults (userId fileId : str)
    (results : list AnalysisResult.t) (out : Result unit)
| StoreIaCDocument (userId fileId content extension templateType : str)
    (out : Result unit)
| FetchTaxonomy (out : Result (option str))
| ListAnswers (workloadId : str) (out : Result (list AnswerSummary.t))
| Retrieve (pillar question : str) (out : Result (list str))
| InvokeModel (question : QuestionGroup.t) (kbContexts : list str)
    (isImage : bool) (out : Result str)
| InvokeGeneration (recommendations : list str) (sectionCount : nat)
    (previous : list DocumentSection.t) (templateType : str)
    (out : Result (option str))
| InvokeDetails (item : Item.t) (previous : str) (isImage : bool)
    (out : Result (option str))
| PollCancel (out : bool)
| EmitAnalysisProgress (processedQuestions totalQuestions : nat)
    (currentPillar currentQuestion : str)
| EmitImplementationProgress (status : str) (progress : num)
| Delay (milliseconds : Z).

(** The environment of a run: the configuration, the library functions
    left uninterpreted, and for each collaborator the outcome of its next
    call as a function of the calls made so far. *)
Record Env : Type := {
  storageEnabled : bool;
  base64 : str -> str;
  utf8 : str -> str;
  parseTaxonomy : str -> Result (list WellArchitectedBestPractice.t);
  parseAnalysis : str -> Result ModelResponse.t;
  storageFault : list Event -> option Exn;
  originalContent : list Event -> Result (Data * str);
  taxonomyObject : list Event -> Result (option str);
  workloadAnswers : list Event -> Result (list AnswerSummary.t);
  knowledgeBase : list Event -> Result (list str);
  analysisModel : list Event -> Result str;
  generationModel : list Event -> Result (option str);
  detailsModel : list Event -> Result (option str);
  cancelRequested : list Event -> bool
}.

(** Modelled from the spec: the storage service, of which the source holds
    only the calls.  Work items are kept per user and file identifier;
    [getWorkItem(user, id)] yields the item stored under that key, its
    [fileId] being the one asked for, and [updateWorkItem(user, id,
    partialFields)] merges the fields into it. *)
Record World : Type := {
  items : gmap (str * str) (option str * WorkItemFields.t);
  cachedBestPractices : option (list WellArchitectedBestPractice.t);
  trace : list Event
}.

Definition lookupWorkItem (userId fileId : str) (w : World)
  : option WorkItem.t :=
  match items w !! (userId, fileId) with
  | Some (fileType, fields) => Some (WorkItem.mk fileId fileType fields)
  | None => None
  end.

Definition mergeWorkItem (userId fileId : str) (patch : WorkItemFields.t)
    (w : World) : World :=
  {| items :=
       <[(userId, fileId) :=
           match items w !! (userId, fileId) with
           | Some (fileType, fields) =>
               (fileType, WorkItemFields.merge patch fields)
           | None => (None, patch)
           end]> (items w);
     cachedBestPractices := cachedBestPractices w;
     trace := trace w |}.

Definition setCache (cache : list WellArchitectedBestPractice.t) (w : World)
  : World :=
  {| items := items w;
     cachedBestPractices := Some cache;
     trace := trace w |}.

Definition record (ev : Event) (w : World) : World :=
  {| items := items w;
     cachedBestPractices := cachedBestPractices w;
     trace := trace w ++ [ev] |}.

(** ** The monad of the service

    A computation threads the world and the mutable local variables of the
    method being run; it returns a value, throws, or is still running when
    the iterations granted to its loops are used up ([None]). *)

Record St (L : Type) : Type := mkSt {
  world : World;
  locals : L
}.

Arguments mkSt {L} world locals.
Arguments world {L} s.
Arguments locals {L} s.

Definition M (L A : Type) : Type := St L -> option (Result A) * St L.

Section Monad.

Context {L : Type}.

Definition ret {A : Type} (a : A) : M L A := fun st => (Some (Ok a), st).

Definition throw {A : Type} (e : Exn) : M L A :=
  fun st => (Some (Throw e), st).

Definition pending {A : Type} : M L A := fun st => (None, st).

Definition bind {A B : Type} (m : M L A) (k : A -> M L B) : M L B :=
  fun st =>
    match m st with
    | (Some (Ok a), st') => k a st'
    | (Some (Throw e), st') => (Some (Throw e), st')
    | (None, st') => (None, st')
    end.

(** [try { m } catch (error) { handler }] *)
Definition tryCatch {A : Type} (m : M L A) (handler : Exn -> M L A) : M L A :=
  fun st =>
    match m st with
    | (Some (Throw e), st') => handler e st'
    | other => other
    end.

Definition getLocals : M L L := fun st => (Some (Ok (locals st)), st).

Definition setLocals (l : L) : M L unit :=
  fun st => (Some (Ok tt), mkSt (world st) l).

Definition getWorld : M L World := fun st => (Some (Ok (world st)), st).

Definition modifyWorld (f : World -> World) : M L unit :=
  fun st => (Some (Ok tt), mkSt (f (world st)) (locals st)).

Definition liftResult {A : Type} (r : Result A) : M L A :=
  fun st => (Some r, st).

End Monad.

Notation "'let*' x ':=' m 'in' k" := (bind m (fun x => k))
  (at level 10, x name, m at level 200, k at level 200).
Notation "'let*' ' p ':=' m 'in' k" :=
  (bind m (fun x => match x with p => k end))
  (at level 10, p pattern, m at level 200, k at level 200).
Notation "'run' m ';;' k" := (bind m (fun _ => k))
  (at level 10, m at level 99, k at level 200).

Section Loops.

Context {L R : Type}.

(** A [for] loop over [xs] whose body may [return]: [Some r] leaves the
    loop with [r]. *)
Fixpoint forEach {X : Type} (xs : list X) (body : X -> M L (option R))
  : M L (option R) :=
  match xs with
  | [] => ret None
  | x :: rest =>
      let* r := body x in
      match r with
      | Some v => ret (Some v)
      | None => forEach rest body
      end
  end.

(** A [while] loop whose body may [return]; [fuel] bounds the number of
    iterations looked at. *)
Fixpoint while (fuel : nat) (cond : L -> bool) (body : M L (option R))
  : M L (option R) :=
  match fuel with
  | O => pending
  | S fuel' =>
      let* l := getLocals in
      if cond l then
        let* r := body in
        match r with
        | Some v => ret (Some v)
        | None => while fuel' cond body
        end
      else ret None
  end.

End Loops.

Definition showNat (n : nat) : str :=
  lit (NilEmpty.string_of_uint (Nat.to_uint n)).

(** ** The service *)

Definition nonEmpty {X : Type} (xs : list X) : bool :=
  match xs with
  | [] => false
  | _ :: _ => true
  end.

Definition newline : str := ["010"%char].

(** [a.sort((x, y) => x.order - y.order)]: the sort is stable, so the
    result is the one of inserting each element before the first, among
    those that followed it, that the comparator does not put before it. *)
Fixpoint insertSection (x : DocumentSection.t) (l : list DocumentSection.t)
  : list DocumentSection.t :=
  match l with
  | [] => [x]
  | y :: l' =>
      if differenceNegative (DocumentSection.order y) (DocumentSection.order x)
      then y :: insertSection x l'
      else x :: y :: l'
  end.

Definition sortSections (l : list DocumentSection.t)
  : list DocumentSection.t :=
  foldr insertSection [] l.

(** [`# ${section.description}\n${section.content}`] *)
Definition renderSection (section : DocumentSection.t) : str :=
  lit "# " ++ DocumentSection.description section ++ newline ++
  DocumentSection.content section.

Definition renderSections (sections : list DocumentSection.t) : str :=
  join (newline ++ newline) (map renderSection sections).

Definition cancellationNote : str :=
  lit "# Note: Template generation was cancelled. Below is a partial version."
  ++ newline ++ newline.

Definition errorNote : str :=
  lit "# Note: Template generation encountered an error. Below is a partial version."
  ++ newline ++ newline.

Definition extensionOf (templateType : str) : str :=
  if includes "yaml" templateType then "yaml"
  else if includes "json" templateType then "json"
  else "tf".

Definition isImageFile (fileType : option str) : bool :=
  match fileType with
  | Some t => truthy t && startsWith "image/" t
  | None => false
  end.

Definition notSemicolon (c : ascii) : bool := negb (ascii_eqb c ";").

(** [/^data:([^;]+);base64,(.+)$/] *)
Definition dataUri : str -> option (str * str) :=
  mLit "data:" (mPlusC notSemicolon (fun mediaType =>
    mLit ";base64," (mPlusC notLineTerminator (fun data =>
      mEnd (fun _ => Some (mediaType, data)))))).

Module AnalyzeLocals.
Record t : Type := mk {
  results : list AnalysisResult.t;
  workItem : option WorkItem.t;
  processedQuestions : nat
}.
End AnalyzeLocals.

Module AnalyzeReturn.
Record t : Type := mk {
  results : list AnalysisResult.t;
  isCancelled : bool;
  error : option str;
  fileId : option str
}.
End AnalyzeReturn.

Module GenerateLocals.
Record t : Type := mk {
  isComplete : bool;
  allSections : list DocumentSection.t;
  iteration : nat
}.
End GenerateLocals.

Module GenerateReturn.
Record t : Type := mk {
  content : str;
  isCancelled : bool;
  error : option str
}.
End GenerateReturn.

Module DetailsLocals.
Record t : Type := mk {
  allDetails : str;
  hasError : bool;
  itemDetails : str;
  isComplete : bool
}.
End DetailsLocals.

Module DetailsReturn.
Record t : Type := mk {
  content : str;
  error : option str
}.
End DetailsReturn.

Section Service.

Context (env : Env).

Section Calls.

Context {L : Type}.

(** A call to the storage service: it is recorded with its outcome and
    takes effect unless it throws. *)
Definition storageCall {A : Type} (ev : Result A -> Event)
    (value : World -> A) (effect : World -> World) : M L A :=
  fun st =>
    let w := world st in
    match storageFault env (trace w) with
    | Some e => (Some (Throw e), mkSt (record (ev (Throw e)) w) (locals st))
    | None =>
        (Some (Ok (value w)),
         mkSt (record (ev (Ok (value w))) (effect w)) (locals st))
    end.

Definition getWorkItem (userId fileId : str) : M L (option WorkItem.t) :=
  storageCall (GetWorkItem userId fileId) (lookupWorkItem userId fileId)
    (fun w => w).

Definition updateWorkItem (userId fileId : str) (patch : WorkItemFields.t)
  : M L unit :=
  storageCall (UpdateWorkItem userId fileId patch) (fun _ => tt)
    (mergeWorkItem userId fileId patch).

Definition storeAnalysisResults (userId fileId : str)
    (results : list AnalysisResult.t) : M L unit :=
  storageCall (StoreAnalysisResults userId fileId results) (fun _ => tt)
    (fun w => w).

Definition storeIaCDocument (userId fileId content extension
    templateType : str) : M L unit :=
  storageCall (StoreIaCDocument userId fileId content extension templateType)
    (fun _ => tt) (fun w => w).

(** A call answered by the environment. *)
Definition ask {A : Type} (oracle : list Event -> Result A)
    (ev : Result A -> Event) : M L A :=
  fun st =>
    let w := world st in
    let out := oracle (trace w) in
    (Some out, mkSt (record (ev out) w) (locals st)).

Definition getOriginalContent (userId fileId : str) : M L (Data * str) :=
  ask (originalContent env) (GetOriginalContent userId fileId).

(** A notification sent to the gateway, or the passing of time. *)
Definition emit (ev : Event) : M L unit := modifyWorld (record ev).

(** [new Promise(resolve => this.cancelAnalysis$.subscribe(...))]: the
    subject keeps no emission for a later subscriber, so the promise is
    pending when it is made and can only be resolved while a later call is
    awaited.  The promise is known by the length of the history at its
    creation. *)
Definition subscribeCancel : M L nat :=
  fun st => (Some (Ok (length (trace (world st)))), st).

(** [await Promise.race([cancelPromise, Promise.resolve(false)])]: as long
    as nothing has been awaited since the promise was made, the race gives
    [false]; after that the environment tells whether the subject has
    emitted. *)
Definition pollCancel (cancelPromise : nat) : M L bool :=
  fun st =>
    let w := world st in
    let out :=
      (cancelPromise <? length (trace w))%nat
      && cancelRequested env (trace w) in
    (Some (Ok out), mkSt (record (PollCancel out) w) (locals st)).

Definition getFileContent (userId fileId : str) : M L (str * str) :=
  tryCatch
    (let* workItem := getWorkItem userId fileId in
     let* '(data, type) := getOriginalContent userId fileId in
     let content :=
       match data with
       | Buffer bytes =>
           if startsWith "image/" type
           then lit "data:" ++ type ++ lit ";base64," ++ base64 env bytes
           else utf8 env bytes
       | Text text => text
       end in
     ret (content, type))
    (fun _ => throw (Error "Failed to fetch file content from storage")).

Definition retrieveFromKnowledgeBase (pillar question : str)
  : M L (list str) :=
  ask (knowledgeBase env) (Retrieve pillar question).

Definition loadWellArchitectedAnswers (workloadId : str)
  : M L (list AnswerSummary.t) :=
  tryCatch
    (ask (workloadAnswers env) (ListAnswers workloadId))
    (fun _ => throw (Error "Failed to fetch Well-Architected answers")).

Definition loadBestPractices (workloadId : str)
  : M L (list WellArchitectedBestPractice.t) :=
  let* w := getWorld in
  match cachedBestPractices w with
  | Some cached => ret cached
  | None =>
      tryCatch
        (let* responseBody := ask (taxonomyObject env) FetchTaxonomy in
         match responseBody with
         | Some body =>
             if truthy body then
               let* baseBestPractices :=
                 liftResult (parseTaxonomy env body) in
               let* waAnswers := loadWellArchitectedAnswers workloadId in
               let cached :=
                 map (enrich (choiceIds waAnswers) (questionIds waAnswers))
                   baseBestPractices in
               run modifyWorld (setCache cached) ;;
               ret cached
             else throw (Error "No data received from S3")
         | None => throw (Error "No data received from S3")
         end)
        (fun _ =>
           throw (Error "Failed to load Well-Architected best practices"))
  end.

Definition retrieveBestPractices (pillarId workloadId : str)
  : M L (list QuestionGroup.t) :=
  tryCatch
    (let* allBestPractices := loadBestPractices workloadId in
     liftResult (groupBestPractices allBestPractices pillarId))
    (fun _ =>
       throw (Error "Failed to retrieve Well-Architected best practices")).

(** The exchange with the model shared by [invokeBedrockModel] and
    [invokeBedrockModelWithImage]: the text of the answer is cleaned and
    parsed. *)
Definition invokeAnalysis (question : QuestionGroup.t)
    (kbContexts : list str) (isImage : bool) : M L ModelResponse.t :=
  let* text := ask (analysisModel env)
                 (InvokeModel question kbContexts isImage) in
  liftResult (parseAnalysis env (cleanJsonString text)).

Definition invokeBedrockModelWithImage (question : QuestionGroup.t)
    (kbContexts : list str) (imageContent : str) : M L ModelResponse.t :=
  tryCatch
    (match dataUri imageContent with
     | Some _ => invokeAnalysis question kbContexts true
     | None => throw (Error "Invalid image data format")
     end)
    (fun error =>
       throw (Error
         (lit "Failed to analyze diagram with AI model. Error invoking Bedrock model: "
          ++ exnToString error))).

Definition invokeBedrockModel (question : QuestionGroup.t)
    (kbContexts : list str) : M L ModelResponse.t :=
  tryCatch
    (invokeAnalysis question kbContexts false)
    (fun error =>
       throw (Error
         (lit "Failed to analyze template with AI model. Error invoking Bedrock model: "
          ++ exnToString error))).

Definition analyzeQuestion (fileContent : str) (question : QuestionGroup.t)
    (kbContexts : list str) (fileType : str) : M L AnalysisResult.t :=
  tryCatch
    (let isImage := startsWith "image/" fileType in
     if isImage && negb (startsWith "data:" fileContent) then
       throw (Error "Invalid image content format")
     else
       let* response :=
         if isImage
         then invokeBedrockModelWithImage question kbContexts fileContent
         else invokeBedrockModel question kbContexts in
       let* bestPractices :=
         liftResult (parseModelResponse response question) in
       ret {| AnalysisResult.pillar := QuestionGroup.pillar question;
              AnalysisResult.question := QuestionGroup.title question;
              AnalysisResult.questionId := QuestionGroup.questionId question;
              AnalysisResult.bestPractices := bestPractices |})
    (fun error => throw error).

Definition invokeBedrockModelForIacGeneration (recommendations : list str)
    (sectionCount : nat) (previous : list DocumentSection.t)
    (templateType : str) : M L (option str) :=
  tryCatch
    (ask (generationModel env)
       (InvokeGeneration recommendations sectionCount previous templateType))
    (fun error =>
       throw (Error
         (lit "Failed to generate IaC document. Error invoking Bedrock model: "
          ++ exnToString error))).

(** [invokeBedrockModelForImageDetails] and
    [invokeBedrockModelForMoreDetails]; the answer is [None] when it holds
    no text under [content[0]]. *)
Definition invokeDetails (item : Item.t) (previous : str) (isImage : bool)
  : M L (option str) :=
  tryCatch
    (ask (detailsModel env) (InvokeDetails item previous isImage))
    (fun error =>
       throw (Error
         (lit "Failed to get detailed analysis. Error invoking Bedrock model: "
          ++ exnToString error))).

(** A sequence of statements run in order ([Promise.all] over calls that
    settle in order, or a [for] loop that never returns). *)
Fixpoint mapM {X Y : Type} (f : X -> M L Y) (xs : list X) : M L (list Y) :=
  match xs with
  | [] => ret []
  | x :: rest =>
      let* y := f x in
      let* ys := mapM f rest in
      ret (y :: ys)
  end.

Fixpoint forEach_ {X : Type} (xs : list X) (body : X -> M L unit)
  : M L unit :=
  match xs with
  | [] => ret tt
  | x :: rest => run body x ;; forEach_ rest body
  end.

End Calls.

(** *** analyze *)

Definition pushResult (analysis : AnalysisResult.t)
  : M AnalyzeLocals.t unit :=
  let* l := getLocals in
  setLocals
    (AnalyzeLocals.mk (AnalyzeLocals.results l ++ [analysis])
       (AnalyzeLocals.workItem l) (AnalyzeLocals.processedQuestions l)).

Definition setWorkItem (workItem : option WorkItem.t)
  : M AnalyzeLocals.t unit :=
  let* l := getLocals in
  setLocals
    (AnalyzeLocals.mk (AnalyzeLocals.results l) workItem
       (AnalyzeLocals.processedQuestions l)).

Definition incrementProcessed : M AnalyzeLocals.t unit :=
  let* l := getLocals in
  setLocals
    (AnalyzeLocals.mk (AnalyzeLocals.results l) (AnalyzeLocals.workItem l)
       (S (AnalyzeLocals.processedQuestions l))).

(** [if (workItem && results.length > 0) { storeAnalysisResults(...);
    updateWorkItem(...) }], the guard shared by every exit of [analyze]
    that is not the completion. *)
Definition storePartial (userId : str) (target : WorkItem.t -> str)
    (patch : AnalyzeLocals.t -> WorkItemFields.t) : M AnalyzeLocals.t unit :=
  let* l := getLocals in
  match AnalyzeLocals.workItem l with
  | Some workItem =>
      if nonEmpty (AnalyzeLocals.results l) then
        run storeAnalysisResults userId (target workItem)
              (AnalyzeLocals.results l) ;;
        updateWorkItem userId (target workItem) (patch l)
      else ret tt
  | None => ret tt
  end.

Definition partialPatch (totalQuestions : nat) (error : str)
    (l : AnalyzeLocals.t) : WorkItemFields.t :=
  WorkItemFields.analysis (Some PARTIAL)
    (Some (roundPercent (AnalyzeLocals.processedQuestions l) totalQuestions))
    (Some error) (Some true).

(** [{ results, isCancelled, error, fileId: workItem?.fileId }] *)
Definition returned (isCancelled : bool) (error : option str)
  : M AnalyzeLocals.t AnalyzeReturn.t :=
  let* l := getLocals in
  ret {| AnalyzeReturn.results := AnalyzeLocals.results l;
         AnalyzeReturn.isCancelled := isCancelled;
         AnalyzeReturn.error := error;
         AnalyzeReturn.fileId :=
           WorkItem.fileId <$> AnalyzeLocals.workItem l |}.

Definition analysisStopped (error : Exn) (question : QuestionGroup.t)
    (processedQuestions totalQuestions : nat) : str :=
  exnToString error ++ lit ". Error analyzing question " ++ [quoteChar] ++
  QuestionGroup.pillar question ++ lit " - " ++ QuestionGroup.title question ++
  [quoteChar] ++ lit ". Analysis stopped, " ++ showNat processedQuestions ++
  lit " questions where analyzed out of " ++ showNat totalQuestions ++ lit ".".

(** The body of the loop over the questions of a pillar. *)
Definition analyzeStep (userId fileContent fileType : str)
    (totalQuestions cancelPromise : nat) (pillar : str)
    (question : QuestionGroup.t)
  : M AnalyzeLocals.t (option AnalyzeReturn.t) :=
  tryCatch
    (let* isCancelled := pollCancel cancelPromise in
     if isCancelled then
       run storePartial userId WorkItem.fileId
             (partialPatch totalQuestions "Analysis cancelled by user.") ;;
       let* l := getLocals in
       run emit (EmitAnalysisProgress (AnalyzeLocals.processedQuestions l)
                   totalQuestions pillar "Analysis cancelled") ;;
       let* r := returned true None in
       ret (Some r)
     else
       let* kb :=
         tryCatch
           (let* kbContexts :=
              retrieveFromKnowledgeBase (QuestionGroup.pillar question)
                (QuestionGroup.title question) in
            ret (inr kbContexts))
           (fun error =>
              run storePartial userId WorkItem.fileId
                    (partialPatch totalQuestions
                       (lit "Error retrieving from knowledge base: "
                        ++ exnToString error)) ;;
              let* r :=
                returned false
                  (Some (lit "Error retrieving from knowledge base. Analysis stopped. "
                         ++ exnToString error)) in
              ret (inl r)) in
       match kb with
       | inl r => ret (Some r)
       | inr kbContexts =>
           let* l := getLocals in
           run emit (EmitAnalysisProgress (AnalyzeLocals.processedQuestions l)
                       totalQuestions pillar (QuestionGroup.title question)) ;;
           let* stopped :=
             tryCatch
               (let* analysis :=
                  analyzeQuestion fileContent question kbContexts fileType in
                run pushResult analysis ;;
                let* l := getLocals in
                run match AnalyzeLocals.workItem l with
                    | Some workItem =>
                        updateWorkItem userId (WorkItem.fileId workItem)
                          (WorkItemFields.analysis None
                             (Some (roundPercent
                                      (AnalyzeLocals.processedQuestions l)
                                      totalQuestions))
                             None None)
                    | None => ret tt
                    end ;;
                ret None)
               (fun error =>
                  let* l := getLocals in
                  let message :=
                    analysisStopped error question
                      (AnalyzeLocals.processedQuestions l) totalQuestions in
                  run storePartial userId WorkItem.fileId
                        (partialPatch totalQuestions message) ;;
                  let* r := returned false (Some message) in
                  ret (Some r)) in
           match stopped with
           | Some r => ret (Some r)
           | None =>
               run incrementProcessed ;;
               let* l := getLocals in
               run emit (EmitAnalysisProgress
                           (AnalyzeLocals.processedQuestions l)
                           totalQuestions pillar
                           (QuestionGroup.title question)) ;;
               ret None
           end
       end)
    (fun error =>
       run storePartial userId WorkItem.fileId
             (partialPatch totalQuestions (exnMessage error)) ;;
       let* r :=
         returned false (Some (lit "Error processing question. Analysis stopped.")) in
       ret (Some r)).

Definition countQuestions (pillarQuestionGroups : list (list QuestionGroup.t))
  : nat :=
  fold_left (fun sum groups => (sum + length groups)%nat)
    pillarQuestionGroups O.

Definition analyze (fileId workloadId : str) (selectedPillars : list str)
    (userId : option str) : M AnalyzeLocals.t AnalyzeReturn.t :=
  run setLocals (AnalyzeLocals.mk [] None O) ;;
  tryCatch
    (match userId with
     | None => throw (Error "User ID is required for analysis")
     | Some userId =>
         if negb (truthy userId) then
           throw (Error "User ID is required for analysis")
         else
           let* '(fileContent, fileType) := getFileContent userId fileId in
           let* workItem := getWorkItem userId fileId in
           run setWorkItem workItem ;;
           run updateWorkItem userId fileId
                 (WorkItemFields.analysis (Some IN_PROGRESS) (Some (Int 0))
                    None None) ;;
           let* _ := loadBestPractices workloadId in
           let* pillarQuestionGroups :=
             mapM (fun pillar => retrieveBestPractices pillar workloadId)
               selectedPillars in
           let totalQuestions := countQuestions pillarQuestionGroups in
           let* cancelPromise := subscribeCancel in
           let* r :=
             forEach (zip selectedPillars pillarQuestionGroups)
               (fun '(pillar, questionGroups) =>
                  forEach questionGroups
                    (analyzeStep userId fileContent fileType totalQuestions
                       cancelPromise pillar)) in
           match r with
           | Some r => ret r
           | None =>
               let* l := getLocals in
               match AnalyzeLocals.workItem l with
               | Some workItem =>
                   run storeAnalysisResults userId fileId
                         (AnalyzeLocals.results l) ;;
                   run updateWorkItem userId fileId
                         (WorkItemFields.analysis (Some COMPLETED)
                            (Some (Int 100)) None None) ;;
                   ret {| AnalyzeReturn.results := AnalyzeLocals.results l;
                          AnalyzeReturn.isCancelled := false;
                          AnalyzeReturn.error := None;
                          AnalyzeReturn.fileId :=
                            Some (WorkItem.fileId workItem) |}
               | None =>
                   throw (TypeError
                     "Cannot read properties of undefined (reading 'fileId')")
               end
           end
     end)
    (fun error =>
       run storePartial (default [] userId) (fun _ => fileId)
             (fun _ =>
                WorkItemFields.analysis (Some PARTIAL) None
                  (Some (exnMessage error)) (Some true)) ;;
       throw error).

(** *** generateIacDocument *)

Definition setSections (isComplete : bool)
    (allSections : list DocumentSection.t) : M GenerateLocals.t unit :=
  let* l := getLocals in
  setLocals
    (GenerateLocals.mk isComplete allSections (GenerateLocals.iteration l)).

Definition sortAllSections : M GenerateLocals.t (list DocumentSection.t) :=
  let* l := getLocals in
  let sortedSections := sortSections (GenerateLocals.allSections l) in
  run setSections (GenerateLocals.isComplete l) sortedSections ;;
  ret sortedSections.

Definition incrementIteration : M GenerateLocals.t unit :=
  let* l := getLocals in
  setLocals
    (GenerateLocals.mk (GenerateLocals.isComplete l)
       (GenerateLocals.allSections l) (S (GenerateLocals.iteration l))).

(** [this.storageEnabled && userId && fileId] *)
Definition canStore (userId fileId : str) : bool :=
  storageEnabled env && truthy userId && truthy fileId.

Definition iacPartialPatch (sectionCount : nat) (error templateType : str)
  : WorkItemFields.t :=
  WorkItemFields.iac (Some PARTIAL) (Some (roundPercent sectionCount 10))
    (Some error) (Some true) (Some templateType).

(** The body of the generation loop. *)
Definition generateStep (userId fileId : str) (recommendations : list str)
    (templateType : str) : M GenerateLocals.t (option GenerateReturn.t) :=
  tryCatch
    (let* l := getLocals in
     let progress :=
       Int (Z.min (Z.of_nat (GenerateLocals.iteration l) * 10) 90) in
     run emit (EmitImplementationProgress "Generating IaC document..."
                 progress) ;;
     run (if canStore userId fileId then
            updateWorkItem userId fileId
              (WorkItemFields.iac None (Some progress) None None None)
          else ret tt) ;;
     run incrementIteration ;;
     let* response :=
       invokeBedrockModelForIacGeneration recommendations
         (length (GenerateLocals.allSections l))
         (GenerateLocals.allSections l) templateType in
     match response with
     | None =>
         let* sortedSections := sortAllSections in
         let partialContent :=
           cancellationNote ++ renderSections sortedSections in
         run (if canStore userId fileId && nonEmpty sortedSections then
                run storeIaCDocument userId fileId partialContent
                      (extensionOf templateType) templateType ;;
                updateWorkItem userId fileId
                  (iacPartialPatch (length sortedSections)
                     "Generation cancelled by user" templateType)
              else ret tt) ;;
         ret (Some {| GenerateReturn.content :=
                        if truthy partialContent then partialContent else [];
                      GenerateReturn.isCancelled := true;
                      GenerateReturn.error := None |})
     | Some content =>
         let parsed := parseImplementationModelResponse content in
         let allSections :=
           GenerateLocals.allSections l ++
           ModelSectionResponse.sections parsed in
         let isComplete := ModelSectionResponse.isComplete parsed in
         run setSections isComplete allSections ;;
         run (if negb isComplete && nonEmpty allSections then
                let* sortedSections := sortAllSections in
                if canStore userId fileId then
                  storeIaCDocument userId fileId
                    (renderSections sortedSections)
                    (extensionOf templateType) templateType
                else ret tt
              else ret tt) ;;
         run emit (Delay 1000) ;;
         ret None
     end)
    (fun error =>
       let* l := getLocals in
       if canStore userId fileId && nonEmpty (GenerateLocals.allSections l)
       then
         let* sortedSections := sortAllSections in
         let partialContent := errorNote ++ renderSections sortedSections in
         run storeIaCDocument userId fileId partialContent
               (extensionOf templateType) templateType ;;
         run updateWorkItem userId fileId
               (iacPartialPatch (length sortedSections) (exnMessage error)
                  templateType) ;;
         ret (Some {| GenerateReturn.content := partialContent;
                      GenerateReturn.isCancelled := false;
                      GenerateReturn.error :=
                        Some (lit "Template generation encountered an error. Showing partial results. "
                              ++ exnToString error) |})
       else throw error).

Definition generateIacDocument (fuel : nat) (fileId : str)
    (recommendations : list str) (templateType : str)
    (userId : option str) : M GenerateLocals.t GenerateReturn.t :=
  tryCatch
    (match userId with
     | None => throw (Error "User ID is required for IaC generation")
     | Some userId =>
         if negb (truthy userId) then
           throw (Error "User ID is required for IaC generation")
         else
           let* '(fileContent, fileType) := getFileContent userId fileId in
           let* workItem := getWorkItem userId fileId in
           if negb (startsWith "image/" fileType) then
             throw (Error
               "This operation is only supported for architecture diagrams")
           else
             run updateWorkItem userId fileId
                   (WorkItemFields.iac (Some IN_PROGRESS) (Some (Int 0))
                      None None None) ;;
             run setLocals (GenerateLocals.mk false [] O) ;;
             let* r :=
               while fuel (fun l => negb (GenerateLocals.isComplete l))
                 (generateStep userId fileId recommendations templateType) in
             match r with
             | Some r => ret r
             | None =>
                 run emit (EmitImplementationProgress
                             "Finalizing IaC document..." (Int 100)) ;;
                 let* sortedSections := sortAllSections in
                 let content := renderSections sortedSections in
                 run (if canStore userId fileId then
                        run storeIaCDocument userId fileId content
                              (extensionOf templateType) templateType ;;
                        updateWorkItem userId fileId
                          (WorkItemFields.iac (Some COMPLETED)
                             (Some (Int 100)) None None (Some templateType))
                      else ret tt) ;;
                 ret {| GenerateReturn.content := content;
                        GenerateReturn.isCancelled := false;
                        GenerateReturn.error := None |}
             end
     end)
    (fun error =>
       run (if truthy (default [] userId) && truthy fileId then
              updateWorkItem (default [] userId) fileId
                (WorkItemFields.iac (Some FAILED) None
                   (Some (exnMessage error)) None None)
            else ret tt) ;;
       throw (Error "Failed to generate IaC document")).

(** *** getMoreDetails *)

Definition progressStatus (index totalItems : nat) (name : str) : str :=
  lit "Analyzing " ++ showNat index ++ lit " of " ++ showNat totalItems ++
  lit " selected best practices not applied - Best practice: '" ++ name ++
  lit "'".

(** The body of the loop over the turns spent on one item. *)
Definition detailsTurn (item : Item.t) (isImage : bool)
  : M DetailsLocals.t (option unit) :=
  let* l := getLocals in
  let* response := invokeDetails item (DetailsLocals.itemDetails l) isImage in
  match response with
  | None =>
      throw (TypeError
        "Cannot read properties of undefined (reading '0')")
  | Some text =>
      let '(content, sectionComplete) := parseDetailsModelResponse text in
      run setLocals
            (DetailsLocals.mk (DetailsLocals.allDetails l)
               (DetailsLocals.hasError l)
               (DetailsLocals.itemDetails l ++ content) sectionComplete) ;;
      run emit (Delay 1000) ;;
      ret None
  end.

(** The body of the loop over the items. *)
Definition detailsItem (fuel : nat) (isImage : bool) (totalItems : nat)
    (entry : nat * Item.t) : M DetailsLocals.t unit :=
  let '(i, item) := entry in
  tryCatch
    (let* l := getLocals in
     run setLocals
           (DetailsLocals.mk (DetailsLocals.allDetails l)
              (DetailsLocals.hasError l) [] false) ;;
     let* _ :=
       while fuel (fun l => negb (DetailsLocals.isComplete l))
         (detailsTurn item isImage) in
     run emit (EmitImplementationProgress
                 (progressStatus (i + 1) totalItems (Item.name item))
                 (roundPercent (i + 1) totalItems)) ;;
     let* l := getLocals in
     setLocals
       (DetailsLocals.mk
          (DetailsLocals.allDetails l ++ DetailsLocals.itemDetails l ++
           newline ++ newline ++ lit "---" ++ newline ++ newline)
          (DetailsLocals.hasError l) (DetailsLocals.itemDetails l)
          (DetailsLocals.isComplete l)))
    (fun _ =>
       let* l := getLocals in
       setLocals
         (DetailsLocals.mk (DetailsLocals.allDetails l) true
            (DetailsLocals.itemDetails l) (DetailsLocals.isComplete l))).

Definition getMoreDetails (fuel : nat) (selectedItems : list Item.t)
    (userId fileId : str) (templateType : option str)
  : M DetailsLocals.t DetailsReturn.t :=
  let filteredItems :=
    filter (fun item => Item.applied item = false) selectedItems in
  tryCatch
    (if negb (nonEmpty selectedItems) then
       throw (Error "No items selected for detailed analysis")
     else if negb (truthy fileId) || negb (truthy userId) then
       throw (Error "File ID and User ID are required")
     else
       let* workItem := getWorkItem userId fileId in
       match workItem with
       | None =>
           throw (TypeError
             "Cannot read properties of undefined (reading 'fileType')")
       | Some workItem =>
           if negb (match WorkItem.fileType workItem with
                    | Some fileType => truthy fileType
                    | None => false
                    end)
           then throw (Error "No file type provided")
           else
             let fileType := default [] (WorkItem.fileType workItem) in
             let* '(fileContent, _) := getOriginalContent userId fileId in
             let processedContent :=
               match fileContent with
               | Buffer bytes =>
                   if startsWith "image/" fileType
                   then lit "data:" ++ fileType ++ lit ";base64," ++
                        base64 env bytes
                   else utf8 env bytes
               | Text text =>
                   if startsWith "image/" fileType
                      && negb (startsWith "data:" text)
                   then lit "data:" ++ fileType ++ lit ";base64," ++ text
                   else text
               end in
             run setLocals (DetailsLocals.mk [] false [] false) ;;
             let totalItems := length filteredItems in
             let isImage := isImageFile (Some fileType) in
             match filteredItems with
             | [] =>
                 throw (TypeError
                   "Cannot read properties of undefined (reading 'name')")
             | first :: _ =>
                 run emit (EmitImplementationProgress
                             (progressStatus 1 totalItems (Item.name first))
                             (Int 0)) ;;
                 run forEach_ (imap (fun i item => (i, item)) filteredItems)
                       (detailsItem fuel isImage totalItems) ;;
                 run emit (EmitImplementationProgress "Analysis complete"
                             (Int 100)) ;;
                 let* l := getLocals in
                 if truthy (DetailsLocals.allDetails l)
                    && DetailsLocals.hasError l then
                   ret {| DetailsReturn.content := DetailsLocals.allDetails l;
                          DetailsReturn.error :=
                            Some (lit "Some items could not be analyzed. Showing partial results.") |}
                 else if negb (truthy (DetailsLocals.allDetails l)) then
                   throw (Error "Failed to generate any detailed analysis")
                 else
                   ret {| DetailsReturn.content :=
                            trim (DetailsLocals.allDetails l);
                          DetailsReturn.error := None |}
             end
       end)
    (fun error => throw error).

End Service.

(** ** Definitions used to state the properties *)

(** The fallback identifier in the words of the specification: the text is
    put in lower case, cut at every character that is not alphanumeric,
    and the pieces that are not empty are joined by single hyphens. *)
Fixpoint fields (P : ascii -> bool) (s : str) : list str :=
  match s with
  | [] => [[]]
  | c :: s' =>
      if P c then [] :: fields P s'
      else
        match fields P s' with
        | w :: ws => (c :: w) :: ws
        | [] => [[c]]
        end
  end.

Definition words (P : ascii -> bool) (s : str) : list str :=
  List.filter nonEmpty (fields P s).

Definition slugSpec (name : str) : str :=
  join "-" (words notLowerAlnum (toLowerCase name)).

(** Lower-case letters, digits and hyphens only, no hyphen first, last or
    next to another one.  [afterHyphen] forbids a hyphen, or the end, at
    the current position. *)
Fixpoint slugFrom (afterHyphen : bool) (s : str) : bool :=
  match s with
  | [] => negb afterHyphen
  | c :: s' =>
      if isLowerAlnum c then slugFrom false s'
      else ascii_eqb c "-" && negb afterHyphen && slugFrom true s'
  end.

Definition isSlug (s : str) : bool :=
  match s with
  | [] => true
  | _ :: _ => slugFrom true s
  end.

(** A letter of the basic Latin alphabet or a decimal digit: one of
    [0-9], [A-Z] and [a-z]. *)
Definition isLetterOrDigit (c : ascii) : Prop :=
  (48 <= code c <= 57)%N \/ (65 <= code c <= 90)%N \/
  (97 <= code c <= 122)%N.

(** The record built for the verdict [bp] met at position [index]. *)
Definition positional (questionGroup : QuestionGroup.t) (index : nat)
    (bp : BestPractice.t) : Verdict.t :=
  {| Verdict.id := QuestionGroup.bestPracticeIds questionGroup !! index;
     Verdict.name := BestPractice.name bp;
     Verdict.applied := BestPractice.applied bp;
     Verdict.reasonApplied := BestPractice.reasonApplied bp;
     Verdict.reasonNotApplied := BestPractice.reasonNotApplied bp;
     Verdict.recommendations := BestPractice.recommendations bp |}.

(** The entries of the taxonomy that belong to a pillar and a question, in
    the order of the taxonomy. *)
Definition entriesOf (taxonomy : list WellArchitectedBestPractice.t)
    (pillarId question : str) : list WellArchitectedBestPractice.t :=
  filter (fun bp =>
            WellArchitectedBestPractice.Question bp = question /\
            pillarSlug (WellArchitectedBestPractice.Pillar bp) = pillarId)
    taxonomy.

(** A question group whose two arrays list, position by position, the
    names and the identifiers of its entries of the taxonomy. *)
Definition alignedWith (taxonomy : list WellArchitectedBestPractice.t)
    (pillarId : str) (group : QuestionGroup.t) : Prop :=
  let entries := entriesOf taxonomy pillarId (QuestionGroup.title group) in
  QuestionGroup.bestPractices group
  = map WellArchitectedBestPractice.Best_Practice entries /\
  QuestionGroup.bestPracticeIds group
  = map WellArchitectedBestPractice.bestPracticeId entries /\
  length (QuestionGroup.bestPractices group)
  = length (QuestionGroup.bestPracticeIds group).

(** The pair pushed for an entry, and the pairs held so far for a
    question. *)
Definition practiceOf (bp : WellArchitectedBestPractice.t) : str * str :=
  (WellArchitectedBestPractice.Best_Practice bp,
   WellArchitectedBestPractice.bestPracticeId bp).

Definition practicesIn (m : OrderedMap GroupData.t) (q : str)
  : list (str * str) :=
  match mapGet q m with
  | Some data => GroupData.practices data
  | None => []
  end.

(** The sections received during a run, in the order of their arrival:
    those parsed from every answer of the generation model. *)
Definition arrivedIn (ev : Event) : list DocumentSection.t :=
  match ev with
  | InvokeGeneration _ _ _ _ (Ok (Some content)) =>
      ModelSectionResponse.sections (parseImplementationModelResponse content)
  | _ => []
  end.

Definition arrivals (events : list Event) : list DocumentSection.t :=
  concat (map arrivedIn events).

(** The invocations of the generation model whose race the cancellation
    won. *)
Definition cancellationWon (ev : Event) : bool :=
  match ev with
  | InvokeGeneration _ _ _ _ (Ok None) => true
  | _ => false
  end.

(** The calls that persist a document or mark the generation partial. *)
Definition persistsGeneration (ev : Event) : bool :=
  match ev with
  | StoreIaCDocument _ _ _ _ _ _ => true
  | UpdateWorkItem _ _ patch _ =>
      match WorkItemFields.iacGenerationStatus patch with
      | Some PARTIAL => true
      | _ => false
      end
  | _ => false
  end.

(** The double nearest to a non-negative integer as the Standard Library's
    model of IEEE 754 arithmetic gives it, with the precision and the
    exponent range of a double: a second reading of [nearestDouble], to
    compare it with. *)
Definition ieeeDouble (n : Z) : number :=
  match binary_normalize 53 1024 n 0 false with
  | S754_zero _ => Finite 0
  | S754_finite _ m e =>
      Finite (if 0 <=? e then Z.pos m * 2 ^ e else Z.pos m / 2 ^ (- e))
  | S754_infinity _ => Infinity
  | S754_nan => Infinity
  end.

(** Integers around the places where the rounding changes: the first that
    need more than 53 bits, those half way between two doubles, the
    largest that stay finite, and powers of 10 in between. *)
Definition roundingSamples : list Z :=
  let around (n : Z) := map (fun k => n + Z.of_nat k - 4) (seq 0 9) in
  let upTo (n : nat) := map Z.of_nat (seq 0 n) in
  upTo 4%nat ++ around (2 ^ 53) ++ around (2 ^ 54)
  ++ around (2 ^ 64 + 2 ^ 11) ++ around (2 ^ 64 + 3 * 2 ^ 11)
  ++ around (2 ^ 1024 - 2 ^ 970) ++ [2 ^ 1023; 2 ^ 1024 - 2 ^ 971; 2 ^ 1024]
  ++ map (fun k => 10 ^ (15 + k) + 1) (upTo 12%nat)
  ++ map (fun k => 10 ^ (44 * k)) (upTo 9%nat).

(** The order of the numbers: [Infinity] is above every finite one. *)
Definition numberLe (x y : number) : Prop :=
  match x, y with
  | Finite a, Finite b => a <= b
  | _, Infinity => True
  | Infinity, Finite _ => False
  end.

(** A stable sort by ascending [order]: the same sections, in ascending
    order, those of equal order in the sequence they had on arrival. *)
Definition ascending (l : list DocumentSection.t) : Prop :=
  forall i j a b,
    l !! i = Some a -> l !! j = Some b -> (i < j)%nat ->
    numberLe (DocumentSection.order a) (DocumentSection.order b).

Definition stableSortOf (sorted arrived : list DocumentSection.t) : Prop :=
  sorted ≡ₚ arrived /\
  ascending sorted /\
  forall k,
    filter (fun s => DocumentSection.order s = k) sorted
    = filter (fun s => DocumentSection.order s = k) arrived.

(** The document in the words of the specification: the sections one
    after the other, each as a title line followed by its body, with an
    empty line between two of them. *)
Fixpoint concatenation (sections : list DocumentSection.t) : str :=
  match sections with
  | [] => []
  | section :: rest =>
      lit "# " ++ DocumentSection.description section ++ newline ++
      DocumentSection.content section ++
      match rest with
      | [] => []
      | _ :: _ => newline ++ newline ++ concatenation rest
      end
  end.

(** *** The shape of a cleaned JSON text

    Each step of [normalizeJson] leaves a text on which it has nothing
    more to do; the checks below say when that is so. *)

(** White space occurs only as single blanks.  [afterSpace] tells that
    the character before the text was one. *)
Fixpoint singleSpaced (afterSpace : bool) (s : str) : bool :=
  match s with
  | [] => true
  | x :: s' =>
      if isSpace x then
        ascii_eqb x " " && negb afterSpace && singleSpaced true s'
      else singleSpaced false s'
  end.

(** No white space follows an occurrence of [c] that [stripAfter] would
    match.  [matching] tells whether the lookbehind holds at the head. *)
Fixpoint tightAfter (c : ascii) (unquoted matching : bool) (s : str) : bool :=
  match s with
  | [] => true
  | x :: s' =>
      negb (ascii_eqb x c && matching && headIs isSpace s')
      && tightAfter c unquoted (negb unquoted || negb (isQuote x)) s'
  end.

(** No white space stands right before an occurrence of [c]. *)
Fixpoint tightBefore (c : ascii) (afterSpace : bool) (s : str) : bool :=
  match s with
  | [] => true
  | x :: s' =>
      negb (afterSpace && ascii_eqb c x) && tightBefore c (isSpace x) s'
  end.

(** The characters that the steps of [normalizeJson] may exchange: a white
    space for a blank, and the capital of [True] and [False] for the small
    letter. *)
Definition alike (a b : ascii) : Prop :=
  a = b \/ (isSpace a = true /\ b = " "%char) \/
  (a = "T"%char /\ b = "t"%char) \/ (a = "F"%char /\ b = "f"%char).

(** [squeezes s t]: the text [t] is [s] with some white space dropped and
    some characters exchanged for a like one. *)
Inductive squeezes : str -> str -> Prop :=
| squeezes_nil : squeezes [] []
| squeezes_keep (a b : ascii) (s t : str) :
    alike a b -> squeezes s t -> squeezes (a :: s) (b :: t)
| squeezes_drop (a : ascii) (s t : str) :
    isSpace a = true -> squeezes s t -> squeezes (a :: s) t.

(** A character that is alike to itself only. *)
Definition isMark (c : ascii) : bool :=
  negb (isSpace c) &&
  negb (existsb (ascii_eqb c) ["T"; "t"; "F"; "f"]%char).

(** The texts that [trimToBraces] returns: cut from the first opening to
    the last closing brace, or without one of the two. *)
Definition braced (s : str) : Prop :=
  (exists inner, s = "{"%char :: inner ++ ["}"%char]) \/
  indexOf "{" s = None \/ lastIndexOf "}" s = None.

(** A text that is compact already: its white space is single blanks,
    none stands before a colon, a comma or a closing bracket nor after an
    opening one, and a blank follows a colon or a comma only behind a
    double quote. *)
Definition tight (s : str) : bool :=
  singleSpaced false s
  && tightAfter ":" true true s && tightBefore ":" false s
  && tightAfter "," true true s && tightBefore "," false s
  && tightAfter "{" false true s && tightBefore "}" false s
  && tightAfter "[" false true s && tightBefore "]" false s.

(** A text on which no step of [normalizeJson] has anything to do. *)
Definition cleaned (s : str) : bool :=
  tight s && negb (includes ": True" s) && negb (includes ": False" s).

(** *** The layout of a generated document

    The text that the generation prompt asks for: each section under a
    header line [# Section <number> - <description>], followed by its
    body. *)

(** A text without [#] and [<], that neither starts nor ends with white
    space and is not empty. *)
Definition plainText (s : str) : bool :=
  forallb (fun c => negb (ascii_eqb c "#") && negb (ascii_eqb c "<")) s
  && negb (headIs isSpace s) && negb (headIs isSpace (rev s)) && truthy s.

Module Layout.
Record t : Type := mk {
  digits : str;
  description : str;
  body : str
}.
End Layout.

Definition wellLaid (section : Layout.t) : bool :=
  truthy (Layout.digits section)
  && forallb isDigit (Layout.digits section)
  && plainText (Layout.description section)
  && forallb notLineTerminator (Layout.description section)
  && plainText (Layout.body section).

Definition headerText (section : Layout.t) : str :=
  lit "# Section " ++ Layout.digits section ++ lit " - " ++
  Layout.description section.

Definition sectionText (section : Layout.t) : str :=
  headerText section ++ newline ++ Layout.body section ++ newline.

Definition documentText (sections : list Layout.t) : str :=
  concat (map sectionText sections).

Definition sectionOf (section : Layout.t) : DocumentSection.t :=
  {| DocumentSection.content := Layout.body section;
     DocumentSection.order := parseInt (Layout.digits section);
     DocumentSection.description := Layout.description section |}.

(** ** Reasoning about computations

    [wp m Q st]: running [m] from [st] ends with an outcome and a state
    that satisfy [Q]. *)
Definition wp {L A : Type} (m : M L A)
    (Q : option (Result A) -> St L -> Prop) (st : St L) : Prop :=
  Q (fst (m st)) (snd (m st)).

(** The continuation of a postcondition through a [bind] and through a
    [try]. *)
Definition afterBind {L A B : Type} (k : A -> M L B)
    (Q : option (Result B) -> St L -> Prop)
  : option (Result A) -> St L -> Prop :=
  fun out st =>
    match out with
    | Some (Ok a) => wp (k a) Q st
    | Some (Throw e) => Q (Some (Throw e)) st
    | None => Q None st
    end.

Definition afterTry {L A : Type} (handler : Exn -> M L A)
    (Q : option (Result A) -> St L -> Prop)
  : option (Result A) -> St L -> Prop :=
  fun out st =>
    match out with
    | Some (Throw e) => wp (handler e) Q st
    | other => Q other st
    end.

(** What the storage holds for a work item. *)
Definition fieldsOf (userId fileId : str) (w : World) : WorkItemFields.t :=
  match items w !! (userId, fileId) with
  | Some (_, fields) => fields
  | None => WorkItemFields.none
  end.

Definition analysisStatusOf (userId fileId : str) (w : World)
  : option Status :=
  WorkItemFields.analysisStatus (fieldsOf userId fileId w).

Definition analysisProgressOf (userId fileId : str) (w : World)
  : option num :=
  WorkItemFields.analysisProgress (fieldsOf userId fileId w).


(** The question groups of a run, in the order in which [analyze] walks
    them, each with the pillar it was asked for. *)
Definition questionsOf (taxonomy : list WellArchitectedBestPractice.t)
    (selectedPillars : list str) : list (str * QuestionGroup.t) :=
  concat
    (map (fun pillar =>
            match groupBestPractices taxonomy pillar with
            | Ok groups => map (pair pillar) groups
            | Throw _ => []
            end)
       selectedPillars).

(** A content that [analyzeQuestion] accepts: a diagram has to be a data
    URI. *)
Definition analyzable (fileContent fileType : str) : bool :=
  if startsWith "image/" fileType then
    startsWith "data:" fileContent &&
    match dataUri fileContent with
    | Some _ => true
    | None => false
    end
  else true.

(** The number of calls of a kind in a history. *)
Definition countEvents (kind : Event -> bool) (history : list Event) : nat :=
  length (List.filter kind history).

(** Kinds of calls. *)
Definition isInvokeModel (ev : Event) : bool :=
  match ev with
  | InvokeModel _ _ _ _ => true
  | _ => false
  end.

Definition isInvokeGeneration (ev : Event) : bool :=
  match ev with
  | InvokeGeneration _ _ _ _ _ => true
  | _ => false
  end.

Definition isInvokeDetails (ev : Event) : bool :=
  match ev with
  | InvokeDetails _ _ _ _ => true
  | _ => false
  end.

Definition isProgress (ev : Event) : bool :=
  match ev with
  | EmitAnalysisProgress _ _ _ _ => true
  | EmitImplementationProgress _ _ => true
  | _ => false
  end.

Definition isPollCancel (ev : Event) : bool :=
  match ev with
  | PollCancel _ => true
  | _ => false
  end.

(** *** What a method may ask of its collaborators *)

(** Every call that a computation records satisfies [allowed]. *)
Definition emitsOnly {L A : Type} (allowed : Event -> bool) (m : M L A)
  : Prop :=
  forall st, exists new,
    trace (world (snd (m st))) = trace (world st) ++ new /\
    forallb allowed new = true.

Definition isNone {A : Type} (o : option A) : bool :=
  match o with
  | Some _ => false
  | None => true
  end.

(** A patch that leaves the fields of the generation alone. *)
Definition analysisPatch (patch : WorkItemFields.t) : bool :=
  isNone (WorkItemFields.iacGenerationStatus patch)
  && isNone (WorkItemFields.iacGenerationProgress patch)
  && isNone (WorkItemFields.iacGenerationError patch)
  && isNone (WorkItemFields.iacPartialResults patch)
  && isNone (WorkItemFields.iacGeneratedFileType patch).

(** A patch that leaves the fields of the analysis alone. *)
Definition generationPatch (patch : WorkItemFields.t) : bool :=
  isNone (WorkItemFields.analysisStatus patch)
  && isNone (WorkItemFields.analysisProgress patch)
  && isNone (WorkItemFields.analysisError patch)
  && isNone (WorkItemFields.analysisPartialResults patch).

(** The calls of [analyze]: it writes the fields of the analysis only, and
    as status nothing but [IN_PROGRESS], [PARTIAL] and [COMPLETED]; it
    stores no document and asks neither for a generation nor for
    details. *)
Definition analysisCall (ev : Event) : bool :=
  match ev with
  | UpdateWorkItem _ _ patch _ =>
      analysisPatch patch &&
      match WorkItemFields.analysisStatus patch with
      | Some FAILED | Some PENDING => false
      | _ => true
      end
  | StoreIaCDocument _ _ _ _ _ _ => false
  | InvokeGeneration _ _ _ _ _ => false
  | InvokeDetails _ _ _ _ => false
  | EmitImplementationProgress _ _ => false
  | Delay _ => false
  | _ => true
  end.

(** The calls of [generateIacDocument]: it reads the file, writes the
    fields of the generation only, stores documents, asks the generation
    model and reports a progress between 0 and 100. *)
Definition generationCall (ev : Event) : bool :=
  match ev with
  | GetWorkItem _ _ _ => true
  | GetOriginalContent _ _ _ => true
  | UpdateWorkItem _ _ patch _ => generationPatch patch
  | StoreIaCDocument _ _ _ _ _ _ => true
  | InvokeGeneration _ _ _ _ _ => true
  | EmitImplementationProgress _ (Int progress) =>
      (0 <=? progress) && (progress <=? 100)
  | Delay _ => true
  | _ => false
  end.

(** The calls of [getMoreDetails]: it reads the work item and the file,
    asks for details and reports its progress; it writes nothing. *)
Definition detailsCall (ev : Event) : bool :=
  match ev with
  | GetWorkItem _ _ _ => true
  | GetOriginalContent _ _ _ => true
  | InvokeDetails _ _ _ _ => true
  | EmitImplementationProgress _ _ => true
  | Delay _ => true
  | _ => false
  end.

(** ** Example environments

    A collaborator that answers its successive calls from a script: the
    call number [k] of a kind receives the entry [k], and [final] once the
    script is used up. *)
Definition scripted {A : Type} (kind : Event -> bool) (script : list A)
    (final : A) (history : list Event) : A :=
  nth (countEvents kind history) script final.

Definition exampleEnv
    (taxonomy : Result (list WellArchitectedBestPractice.t))
    (analysis : list (Result str)) (generation : list (Result (option str)))
    (cancel : list bool) : Env :=
  {| storageEnabled := true;
     base64 := fun bytes => bytes;
     utf8 := fun bytes => bytes;
     parseTaxonomy := fun _ => taxonomy;
     parseAnalysis := fun _ =>
       Ok (ModelResponse.mk
             (Some [Some (BestPractice.mk "Use encryption" true "Encrypted"
                            [] [])]));
     storageFault := fun _ => None;
     originalContent := fun _ =>
       Ok (Text "data:image/png;base64,iVBORw0KGgo=", lit "image/png");
     taxonomyObject := fun _ => Ok (Some (lit "[]"));
     workloadAnswers := fun _ => Ok [];
     knowledgeBase := fun _ => Ok [lit "Encrypt data at rest."];
     analysisModel :=
       scripted isInvokeModel analysis (Throw (Error "no answer"));
     generationModel :=
       scripted isInvokeGeneration generation (Throw (Error "no answer"));
     detailsModel := fun _ => Throw (Error "no answer");
     cancelRequested := scripted isPollCancel cancel false |}.

(** The same collaborators with a model that answers every question. *)
Definition answeringEnv : Env :=
  let env := exampleEnv (Ok []) [] [] [] in
  {| storageEnabled := storageEnabled env;
     base64 := base64 env;
     utf8 := utf8 env;
     parseTaxonomy := parseTaxonomy env;
     parseAnalysis := parseAnalysis env;
     storageFault := storageFault env;
     originalContent := originalContent env;
     taxonomyObject := taxonomyObject env;
     workloadAnswers := workloadAnswers env;
     knowledgeBase := knowledgeBase env;
     analysisModel := fun _ => Ok (lit "{}");
     generationModel := generationModel env;
     detailsModel := detailsModel env;
     cancelRequested := cancelRequested env |}.

(** Collaborators whose storage holds the given content. *)
Definition withContent (data : Data) (fileType : str) (env : Env) : Env :=
  {| storageEnabled := storageEnabled env;
     base64 := base64 env;
     utf8 := utf8 env;
     parseTaxonomy := parseTaxonomy env;
     parseAnalysis := parseAnalysis env;
     storageFault := storageFault env;
     originalContent := fun _ => Ok (data, fileType);
     taxonomyObject := taxonomyObject env;
     workloadAnswers := workloadAnswers env;
     knowledgeBase := knowledgeBase env;
     analysisModel := analysisModel env;
     generationModel := generationModel env;
     detailsModel := detailsModel env;
     cancelRequested := cancelRequested env |}.

(** Collaborators under which a cancellation is always pending. *)
Definition cancelling (env : Env) : Env :=
  {| storageEnabled := storageEnabled env;
     base64 := base64 env;
     utf8 := utf8 env;
     parseTaxonomy := parseTaxonomy env;
     parseAnalysis := parseAnalysis env;
     storageFault := storageFault env;
     originalContent := originalContent env;
     taxonomyObject := taxonomyObject env;
     workloadAnswers := workloadAnswers env;
     knowledgeBase := knowledgeBase env;
     analysisModel := analysisModel env;
     generationModel := generationModel env;
     detailsModel := detailsModel env;
     cancelRequested := fun _ => true |}.

(** A storage that holds one work item, for the user ["u"] and the file
    ["f"], and a service that has run nothing yet. *)
Definition exampleWorld : World :=
  {| items :=
       {[ (lit "u", lit "f") := (Some (lit "image/png"), WorkItemFields.none) ]};
     cachedBestPractices := None;
     trace := [] |}.

Definition exampleStart {L : Type} (l : L) : St L := mkSt exampleWorld l.

(** The same storage once the service has loaded a taxonomy. *)
Definition loadedWorld (taxonomy : list WellArchitectedBestPractice.t)
  : World :=
  setCache taxonomy exampleWorld.

Definition exampleTemplate : str := "CloudFormation (.yaml) template".

Definition examplePractice (pillar question practice : str)
  : WellArchitectedBestPractice.t :=
  WellArchitectedBestPractice.mk pillar question [] practice [].

(** Five questions under two pillars. *)
Definition exampleTaxonomy : list WellArchitectedBestPractice.t :=
  [examplePractice "Security" "How do you protect data at rest?"
     "Use encryption";
   examplePractice "Security" "How do you protect data at rest?"
     "Rotate keys";
   examplePractice "Security" "How do you manage identities?"
     "Use roles";
   examplePractice "Security" "How do you detect events?"
     "Enable logging";
   examplePractice "Reliability" "How do you back up data?"
     "Automate backups";
   examplePractice "Reliability" "How do you monitor resources?"
     "Define alarms"].

Definition examplePillars : list str := [lit "security"; lit "reliability"].

(** Two turns of generation: the second section arrives first, the first
    one arrives with the end marker. *)
Definition exampleGeneration : list (Result (option str)) :=
  [Ok (Some (lit "# Section 2 - Outputs" ++ newline ++ lit "Outputs: {}"
             ++ newline));
   Ok (Some (lit "# Section 1 - Resources" ++ newline ++ lit "Resources: {}"
             ++ newline ++ endOfIacDocument))].

(** A turn that brings no section, then the cancellation. *)
Definition exampleCancelledGeneration : list (Result (option str)) :=
  [Ok (Some (lit "Let me look at the diagram.")); Ok None].
(** * Properties *)

(** ** Characters and strings *)

Ltac ascii_cases c := destruct c as [[] [] [] [] [] [] [] []].

Lemma ascii_eqb_eq (a b : ascii) : ascii_eqb a b = true <-> a = b.
Proof. apply Ascii.eqb_eq. Qed.

Lemma ascii_eqb_refl (a : ascii) : ascii_eqb a a = true.
Proof. apply Ascii.eqb_refl. Qed.

Lemma lowerChar_alnum (c : ascii) : isLowerAlnum c = true -> lowerChar c = c.
Proof. ascii_cases c; vm_compute; congruence. Qed.

Lemma alnum_not_hyphen (c : ascii) :
  isLowerAlnum c = true -> ascii_eqb c "-" = false.
Proof. ascii_cases c; vm_compute; congruence. Qed.

Lemma dropLastIf_cons (c x : ascii) (s : str) :
  dropLastIf c (x :: s) =
  match s with
  | [] => if ascii_eqb x c then [] else [x]
  | _ :: _ => x :: dropLastIf c s
  end.
Proof.
  destruct s as [|y s]; [reflexivity|].
  unfold dropLastIf.
  destruct (rev (y :: s)) as [|z t] eqn:E.
  - apply (f_equal (@length _)) in E. rewrite length_rev in E. discriminate.
  - change (rev (x :: y :: s)) with (rev (y :: s) ++ [x]). rewrite E. simpl.
    destruct (ascii_eqb z c).
    + rewrite rev_app_distr. reflexivity.
    + reflexivity.
Qed.

Lemma startsWith_app (p s : str) : startsWith p (p ++ s) = true.
Proof.
  induction p as [|c p IH]; [reflexivity|].
  simpl. rewrite ascii_eqb_refl. exact IH.
Qed.

Lemma includes_starts (p s : str) :
  startsWith p s = true -> includes p s = true.
Proof. intros H. destruct s; simpl; rewrite H; reflexivity. Qed.

Lemma includes_app (p a b : str) : includes p (a ++ p ++ b) = true.
Proof.
  induction a as [|c a IH].
  - apply includes_starts. exact (startsWith_app p b).
  - simpl. rewrite IH. apply orb_true_r.
Qed.

Lemma startsWith_split (p s : str) :
  startsWith p s = true -> s = p ++ drop (length p) s.
Proof.
  revert s. induction p as [|a p IH]; intros [|b s]; cbn; try discriminate;
    try reflexivity.
  rewrite andb_true_iff, ascii_eqb_eq. intros [-> H]. f_equal. apply IH, H.
Qed.

Lemma startsWith_length (p s : str) :
  startsWith p s = true -> (length p <= length s)%nat.
Proof.
  revert s. induction p as [|a p IH]; intros [|b s]; cbn; try discriminate;
    try lia.
  rewrite andb_true_iff. intros [_ H]. apply IH in H. lia.
Qed.

Lemma includes_cons (p : str) (c : ascii) (s : str) :
  includes p s = true -> includes p (c :: s) = true.
Proof. intros H. cbn. rewrite H. apply orb_true_r. Qed.

Lemma includes_drop (p : str) (n : nat) (s : str) :
  includes p (drop n s) = true -> includes p s = true.
Proof.
  revert s. induction n as [|n IH]; intros [|c s]; cbn [drop]; auto.
  intros H. apply includes_cons, IH, H.
Qed.

(** Induction on a text along its suffixes. *)
Lemma suffix_induction (P : str -> Prop) :
  (forall s, (forall n, (0 < n)%nat -> (n <= length s)%nat -> P (drop n s)) -> P s) ->
  forall s, P s.
Proof.
  intros step s.
  assert (forall k t, (length t <= k)%nat -> P t) as H.
  { induction k as [|k IH]; intros t Ht; apply step; intros n Hn Hle.
    - lia.
    - apply IH. rewrite length_drop. lia. }
  apply (H (length s)). lia.
Qed.
(** ** Fallback identifiers *)

Section Slug.

Local Abbreviation hy := ["-"%char].

Lemma hyphen_sep : notLowerAlnum "-" = true.
Proof. reflexivity. Qed.

Lemma sep_alnum (c : ascii) : notLowerAlnum c = false -> isLowerAlnum c = true.
Proof. unfold notLowerAlnum. destruct (isLowerAlnum c); [reflexivity | discriminate]. Qed.

(** After a separator the leading hyphen is suppressed, which is what
    dropping a leading hyphen from the plain replacement gives. *)
Lemma strip_leading (t : str) :
  stripEdgeHyphens (replaceRuns notLowerAlnum hy t) =
  dropLastIf "-" (replaceRunsFrom notLowerAlnum hy true t).
Proof.
  destruct t as [|c t]; [reflexivity|].
  unfold replaceRuns. simpl.
  destruct (notLowerAlnum c) eqn:Hc.
  - reflexivity.
  - simpl. rewrite (alnum_not_hyphen c (sep_alnum c Hc)). reflexivity.
Qed.

Lemma runs_nil_iff (t : str) :
  replaceRunsFrom notLowerAlnum hy true t = [] <->
  forallb notLowerAlnum t = true.
Proof.
  induction t as [|c t IH]; simpl; [tauto|].
  destruct (notLowerAlnum c); simpl; [exact IH|].
  split; discriminate.
Qed.

Lemma runs_after_head (t : str) (x : ascii) (X : str) :
  replaceRunsFrom notLowerAlnum hy true t = x :: X -> isLowerAlnum x = true.
Proof.
  induction t as [|c t IH]; simpl; [discriminate|].
  destruct (notLowerAlnum c) eqn:Hc; simpl.
  - exact IH.
  - intros [= <- _]. apply sep_alnum, Hc.
Qed.

Lemma dropLast_keep (c : ascii) (X : str) :
  ascii_eqb c "-" = false -> dropLastIf "-" (c :: X) = c :: dropLastIf "-" X.
Proof.
  intros Hc. rewrite dropLastIf_cons. destruct X; [|reflexivity].
  rewrite Hc. reflexivity.
Qed.

Lemma fields_cons (Q : ascii -> bool) (t : str) :
  exists w ws, fields Q t = w :: ws.
Proof.
  destruct t as [|c t]; simpl; [eauto|].
  destruct (Q c); [eauto|]. destruct (fields Q t); eauto.
Qed.

Lemma words_nil_iff (t : str) :
  words notLowerAlnum t = [] <-> forallb notLowerAlnum t = true.
Proof.
  unfold words. induction t as [|c t IH]; simpl; [tauto|].
  destruct (notLowerAlnum c); simpl; [exact IH|].
  destruct (fields notLowerAlnum t); simpl; split; discriminate.
Qed.

(** The replacement of the runs, once its last hyphen is dropped, read on
    the pieces of the text: after a separator ([true]) and inside a word
    ([false]). *)
Lemma runs_fields (t : str) :
  dropLastIf "-" (replaceRunsFrom notLowerAlnum hy true t)
  = join hy (words notLowerAlnum t) /\
  forall w ws, fields notLowerAlnum t = w :: ws ->
    dropLastIf "-" (replaceRunsFrom notLowerAlnum hy false t)
    = w ++ match List.filter nonEmpty ws with
           | [] => []
           | _ :: _ => hy ++ join hy (List.filter nonEmpty ws)
           end.
Proof.
  induction t as [|c t [IHW IHV]].
  - split; [reflexivity|]. intros w ws [= <- <-]. reflexivity.
  - destruct (fields_cons notLowerAlnum t) as (w0 & ws0 & Hf).
    unfold words in *. simpl. destruct (notLowerAlnum c) eqn:Hc; simpl.
    + split; [exact IHW|]. intros w ws [= <- <-].
      rewrite dropLastIf_cons.
      destruct (replaceRunsFrom _ _ true t) as [|x X] eqn:Hr.
      * apply runs_nil_iff, words_nil_iff in Hr. unfold words in Hr.
        rewrite Hr. reflexivity.
      * rewrite IHW.
        destruct (List.filter nonEmpty (fields notLowerAlnum t)) eqn:Hw;
          [|reflexivity].
        apply (words_nil_iff t), runs_nil_iff in Hw. congruence.
    + pose proof (alnum_not_hyphen c (sep_alnum c Hc)) as Hh.
      rewrite (dropLast_keep c _ Hh), (IHV _ _ Hf), Hf. simpl.
      split.
      * destruct (List.filter nonEmpty ws0);
          [rewrite app_nil_r|]; reflexivity.
      * intros w ws [= <- <-]. reflexivity.
Qed.

Lemma fallback_refines (name : str) :
  generateFallbackBestPracticeId name = slugSpec name.
Proof.
  unfold generateFallbackBestPracticeId, slugSpec.
  change (lit "-") with hy. rewrite strip_leading. apply runs_fields.
Qed.

Lemma runs_slug (t : str) :
  (dropLastIf "-" (replaceRunsFrom notLowerAlnum hy true t) = [] \/
   slugFrom true (dropLastIf "-" (replaceRunsFrom notLowerAlnum hy true t))
   = true) /\
  slugFrom false (dropLastIf "-" (replaceRunsFrom notLowerAlnum hy false t))
  = true.
Proof.
  induction t as [|c t [IHW IHV]]; [split; [left|]; reflexivity|].
  simpl. destruct (notLowerAlnum c) eqn:Hc; simpl.
  - split; [exact IHW|].
    rewrite dropLastIf_cons.
    destruct (replaceRunsFrom _ _ true t) as [|x X] eqn:Hr;
      [reflexivity|].
    pose proof (runs_after_head t x X Hr) as Hx.
    destruct IHW as [IHW | IHW].
    + rewrite (dropLast_keep x X (alnum_not_hyphen x Hx)) in IHW.
      discriminate.
    + simpl. exact IHW.
  - pose proof (sep_alnum c Hc) as Ha.
    rewrite (dropLast_keep c _ (alnum_not_hyphen c Ha)). simpl.
    rewrite Ha. split; [right|]; exact IHV.
Qed.

Lemma fallback_isSlug (name : str) :
  isSlug (generateFallbackBestPracticeId name) = true.
Proof.
  unfold generateFallbackBestPracticeId. change (lit "-") with hy.
  rewrite strip_leading.
  destruct (runs_slug (toLowerCase name)) as [[H | H] _].
  - rewrite H. reflexivity.
  - unfold isSlug.
    destruct (dropLastIf "-" _); [reflexivity | exact H].
Qed.

Lemma slug_lower (b : bool) (r : str) :
  slugFrom b r = true -> toLowerCase r = r.
Proof.
  revert b. induction r as [|c r IH]; intros b; simpl; [reflexivity|].
  destruct (isLowerAlnum c) eqn:Hc.
  - intros H. rewrite (lowerChar_alnum c Hc), (IH _ H). reflexivity.
  - intros H. apply andb_prop in H as [H1 H]. apply andb_prop in H1 as [H1 _].
    apply ascii_eqb_eq in H1. subst c. rewrite (IH _ H). reflexivity.
Qed.

Lemma slug_runs (b : bool) (r : str) :
  slugFrom b r = true -> replaceRunsFrom notLowerAlnum hy b r = r.
Proof.
  revert b. induction r as [|c r IH]; intros b; simpl; [reflexivity|].
  unfold notLowerAlnum at 1. destruct (isLowerAlnum c) eqn:Hc; simpl.
  - intros H. rewrite (IH _ H). reflexivity.
  - intros H. apply andb_prop in H as [H1 H]. apply andb_prop in H1 as [H1 H2].
    apply ascii_eqb_eq in H1. subst c.
    destruct b; [discriminate|]. simpl. rewrite (IH _ H). reflexivity.
Qed.

Lemma slug_last (b : bool) (r : str) :
  slugFrom b r = true -> dropLastIf "-" r = r.
Proof.
  revert b. induction r as [|c r IH]; intros b; [reflexivity|].
  simpl. rewrite dropLastIf_cons.
  destruct (isLowerAlnum c) eqn:Hc.
  - intros H. rewrite (alnum_not_hyphen c Hc), (IH _ H).
    destruct r; reflexivity.
  - intros H. apply andb_prop in H as [_ H].
    destruct r as [|y r]; [discriminate|]. rewrite (IH _ H). reflexivity.
Qed.

Lemma slug_fixed (r : str) :
  isSlug r = true -> generateFallbackBestPracticeId r = r.
Proof.
  unfold isSlug, generateFallbackBestPracticeId, replaceRuns.
  change (lit "-") with hy.
  destruct r as [|c r]; [reflexivity|]. intros H.
  rewrite (slug_lower _ _ H).
  assert (slugFrom false (c :: r) = true) as H'.
  { simpl in *. destruct (isLowerAlnum c); [exact H|].
    rewrite andb_false_r in H. discriminate. }
  rewrite (slug_runs _ _ H'). unfold stripEdgeHyphens.
  simpl in H. destruct (isLowerAlnum c) eqn:Hc.
  - rewrite (alnum_not_hyphen c Hc). apply (slug_last false), H'.
  - rewrite andb_false_r in H. discriminate.
Qed.

End Slug.

(** C6.  The fallback identifier is a function of the name alone, applying
    it twice equals applying it once, and its value is the name in lower
    case with every maximal run of non-alphanumeric characters collapsed
    to one hyphen and no hyphen first or last; "Foo Bar!" gives
    "foo-bar". *)
Theorem fallback_id_idempotent_slug (name : str) :
  generateFallbackBestPracticeId (generateFallbackBestPracticeId name)
  = generateFallbackBestPracticeId name /\
  generateFallbackBestPracticeId name = slugSpec name /\
  isSlug (generateFallbackBestPracticeId name) = true /\
  generateFallbackBestPracticeId "Foo Bar!" = lit "foo-bar".
Proof.
  split; [|split; [|split]].
  - apply slug_fixed, fallback_isSlug.
  - apply fallback_refines.
  - apply fallback_isSlug.
  - reflexivity.
Qed.
(** ** Verdicts and identifiers *)

(** Over objects the callback never throws, and the record at each position
    is the positional one. *)
Lemma mapFrom_objects (questionGroup : QuestionGroup.t)
    (verdicts : list BestPractice.t) :
  forall index,
    mapFrom (toVerdict questionGroup) index (Some <$> verdicts)
    = Ok (imap (fun i => positional questionGroup (index + i)) verdicts).
Proof.
  induction verdicts as [|bp verdicts IH]; intros index; [reflexivity|].
  cbn [fmap list_fmap mapFrom toVerdict imap]. rewrite IH.
  rewrite Nat.add_0_r. unfold positional at 2. do 2 f_equal.
  apply imap_ext. intros i x _. cbn. f_equal. lia.
Qed.

Lemma parseModelResponse_objects (response : ModelResponse.t)
    (verdicts : list BestPractice.t) (questionGroup : QuestionGroup.t) :
  ModelResponse.bestPractices response = Some (Some <$> verdicts) ->
  parseModelResponse response questionGroup
  = Ok (imap (positional questionGroup) verdicts).
Proof.
  intros H. unfold parseModelResponse. rewrite H, mapFrom_objects.
  reflexivity.
Qed.

(** A [null] element ends the mapping with a throw. *)
Lemma mapFrom_null (questionGroup : QuestionGroup.t)
    (before after : list (option BestPractice.t)) :
  forall index,
    exists e,
      mapFrom (toVerdict questionGroup) index (before ++ None :: after)
      = Throw e.
Proof.
  induction before as [|bp before IH]; intros index; cbn [app mapFrom].
  - eexists. reflexivity.
  - destruct (toVerdict questionGroup index bp) as [record | e];
      [|eexists; reflexivity].
    destruct (IH (S index)) as (e & ->). eexists. reflexivity.
Qed.

(** C3, as amended.  Over a response whose verdicts are all objects the
    verdict at position [i] receives the identifier at position [i] of the
    question group, whatever the two lengths are: the parse returns one
    record per verdict and never fails on a length mismatch, and the
    records past the end of the identifiers carry no identifier.  A
    response that holds a [null] verdict, or no array of verdicts, makes
    the parse throw its one error, whatever the lengths. *)
Theorem parseModelResponse_positional (verdicts : list BestPractice.t)
    (before after : list (option BestPractice.t))
    (questionGroup : QuestionGroup.t) :
  (exists records,
     parseModelResponse (ModelResponse.mk (Some (Some <$> verdicts)))
       questionGroup
     = Ok records /\
     length records = length verdicts /\
     (forall i, records !! i = positional questionGroup i <$> verdicts !! i) /\
     Forall (fun r => Verdict.id r = None)
       (drop (length (QuestionGroup.bestPracticeIds questionGroup)) records))
  /\
  parseModelResponse (ModelResponse.mk (Some (before ++ None :: after)))
    questionGroup
  = Throw (Error "Failed to parse analysis results") /\
  parseModelResponse (ModelResponse.mk None) questionGroup
  = Throw (Error "Failed to parse analysis results").
Proof.
  split; [|split; [|reflexivity]].
  - rewrite (parseModelResponse_objects _ verdicts) by reflexivity.
    eexists. split; [reflexivity|]. split; [apply length_imap|].
    assert (forall i,
      imap (positional questionGroup) verdicts !! i
      = positional questionGroup i <$> verdicts !! i) as Hlookup.
    { intros i. apply list_lookup_imap. }
    split; [exact Hlookup|].
    apply Forall_lookup. intros i r. rewrite lookup_drop.
    change (imap _ verdicts) with (imap (positional questionGroup) verdicts).
    rewrite Hlookup.
    destruct (verdicts !! _) as [bp|]; [|discriminate].
    intros [= <-]. simpl. apply lookup_ge_None. lia.
  - unfold parseModelResponse. cbn [ModelResponse.bestPractices].
    destruct (mapFrom_null questionGroup before after O) as (e & ->).
    reflexivity.
Qed.

(** C3, as stated, fails: a response of three verdicts for two identifiers
    whose second verdict is [null] is not parsed into three records, the
    parse throws. *)
Lemma parseModelResponse_null_verdict :
  let verdict := BestPractice.mk "Use encryption" true "Encrypted" [] [] in
  let questionGroup :=
    QuestionGroup.mk "Security" "How is data protected?" "sec-1"
      [lit "Encrypt at rest"; lit "Encrypt in transit"]
      [lit "sec-1-a"; lit "sec-1-b"] in
  let response :=
    ModelResponse.mk (Some [Some verdict; None; Some verdict]) in
  default [] (ModelResponse.bestPractices response)
  = [Some verdict; None; Some verdict] /\
  length (QuestionGroup.bestPracticeIds questionGroup) = 2%nat /\
  parseModelResponse response questionGroup
  = Throw (Error "Failed to parse analysis results") /\
  ~ exists records, parseModelResponse response questionGroup = Ok records.
Proof.
  cbv zeta. split; [reflexivity|]. split; [reflexivity|].
  split; [reflexivity|]. intros (records & H). discriminate.
Qed.
(** ** Taxonomy grouping *)

Lemma str_eqb_eq (a b : str) : str_eqb a b = true <-> a = b.
Proof. unfold str_eqb. rewrite bool_decide_eq_true. reflexivity. Qed.

Lemma str_eqb_refl (a : str) : str_eqb a a = true.
Proof. apply str_eqb_eq. reflexivity. Qed.

Lemma str_eqb_neq (a b : str) : a <> b -> str_eqb a b = false.
Proof. unfold str_eqb. apply bool_decide_eq_false. Qed.

Section OrderedMaps.

Context {V : Type}.

Implicit Types (m : OrderedMap V) (key : str).

Lemma mapHas_get key m : mapHas key m = false <-> mapGet key m = None.
Proof.
  induction m as [|[k v] m IH]; simpl; [tauto|].
  destruct (str_eqb k key); simpl; [split; discriminate | exact IH].
Qed.

Lemma mapGet_set_fresh key (v : V) m :
  mapGet key m = None ->
  forall q, mapGet q (mapSet key v m)
            = if str_eqb key q then Some v else mapGet q m.
Proof.
  induction m as [|[k old] m IH]; simpl; intros Hnone q.
  - reflexivity.
  - destruct (str_eqb k key) eqn:Hk; [discriminate|]. simpl.
    destruct (str_eqb k q) eqn:Hq.
    + apply str_eqb_eq in Hq. subst q.
      rewrite (str_eqb_neq key k); [reflexivity|].
      intros ->. rewrite str_eqb_refl in Hk. discriminate.
    + apply IH, Hnone.
Qed.

Lemma mapGet_update key (f : V -> V) m q :
  mapGet q (mapUpdate key f m)
  = if str_eqb key q then f <$> mapGet q m else mapGet q m.
Proof.
  induction m as [|[k v] m IH]; simpl.
  - destruct (str_eqb key q); reflexivity.
  - destruct (str_eqb k key) eqn:Hk; simpl.
    + apply str_eqb_eq in Hk. subst k.
      destruct (str_eqb key q); reflexivity.
    + destruct (str_eqb k q) eqn:Hq; [|exact IH].
      apply str_eqb_eq in Hq. subst q.
      rewrite (str_eqb_neq key k); [reflexivity|].
      intros ->. rewrite str_eqb_refl in Hk. discriminate.
Qed.

Lemma keys_set_fresh key (v : V) m :
  mapGet key m = None -> map fst (mapSet key v m) = map fst m ++ [key].
Proof.
  induction m as [|[k old] m IH]; simpl; intros Hnone; [reflexivity|].
  destruct (str_eqb k key); [discriminate|]. simpl. rewrite IH; auto.
Qed.

Lemma keys_update key (f : V -> V) m :
  map fst (mapUpdate key f m) = map fst m.
Proof.
  induction m as [|[k v] m IH]; simpl; [reflexivity|].
  destruct (str_eqb k key); simpl; [|rewrite IH]; reflexivity.
Qed.

Lemma mapGet_None_keys key m : mapGet key m = None <-> key ∉ map fst m.
Proof.
  induction m as [|[k v] m IH]; simpl.
  - split; [intros _; apply not_elem_of_nil | reflexivity].
  - rewrite not_elem_of_cons. destruct (str_eqb k key) eqn:Hk.
    + apply str_eqb_eq in Hk. subst k. split; [discriminate|].
      intros [H _]. contradiction.
    + rewrite IH. split; [|tauto]. intros H. split; [|exact H].
      intros ->. rewrite str_eqb_refl in Hk. discriminate.
Qed.

Lemma elem_of_mapGet key (v : V) m :
  NoDup (map fst m) -> (key, v) ∈ m -> mapGet key m = Some v.
Proof.
  induction m as [|[k v'] m IH]; simpl; intros Hnd Hin.
  - apply elem_of_nil in Hin. contradiction.
  - apply NoDup_cons in Hnd as [Hk Hnd].
    apply elem_of_cons in Hin as [[= <- <-] | Hin].
    + rewrite str_eqb_refl. reflexivity.
    + rewrite str_eqb_neq; [apply IH; assumption|].
      intros ->. apply Hk, list_elem_of_In, (in_map fst _ (key, v)).
      apply list_elem_of_In, Hin.
Qed.

End OrderedMaps.

Lemma addPractice_spec (m : OrderedMap GroupData.t)
    (bp : WellArchitectedBestPractice.t) :
  NoDup (map fst m) ->
  NoDup (map fst (addPractice m bp)) /\
  forall q, practicesIn (addPractice m bp) q
            = practicesIn m q ++
              if decide (WellArchitectedBestPractice.Question bp = q)
              then [practiceOf bp] else [].
Proof.
  intros Hnd. unfold addPractice, practicesIn.
  set (key := WellArchitectedBestPractice.Question bp).
  destruct (mapHas key m) eqn:Hhas; simpl.
  - rewrite keys_update. split; [exact Hnd|].
    intros q. rewrite mapGet_update.
    destruct (decide (key = q)) as [<- | Hne].
    + rewrite str_eqb_refl. destruct (mapGet key m) eqn:Hg; [reflexivity|].
      apply mapHas_get in Hg. congruence.
    + rewrite (str_eqb_neq _ _ Hne), app_nil_r. reflexivity.
  - apply mapHas_get in Hhas.
    rewrite keys_update, (keys_set_fresh _ _ _ Hhas).
    split.
    + apply NoDup_app. split; [exact Hnd|]. split; [|apply NoDup_singleton].
      intros x Hx Hx'. apply list_elem_of_singleton in Hx'. subst x.
      apply mapGet_None_keys in Hhas. contradiction.
    + intros q. rewrite mapGet_update, (mapGet_set_fresh _ _ _ Hhas).
      destruct (decide (key = q)) as [<- | Hne].
      * rewrite str_eqb_refl, Hhas. reflexivity.
      * rewrite (str_eqb_neq _ _ Hne), app_nil_r. reflexivity.
Qed.

Lemma fold_addPractice_spec (l : list WellArchitectedBestPractice.t)
    (m : OrderedMap GroupData.t) :
  NoDup (map fst m) ->
  NoDup (map fst (fold_left addPractice l m)) /\
  forall q, practicesIn (fold_left addPractice l m) q
            = practicesIn m q ++
              map practiceOf
                (filter (fun bp => WellArchitectedBestPractice.Question bp = q)
                   l).
Proof.
  revert m. induction l as [|bp l IH]; intros m Hnd; simpl.
  - split; [exact Hnd|]. intros q. rewrite app_nil_r. reflexivity.
  - destruct (addPractice_spec m bp Hnd) as (Hnd' & Hstep).
    destruct (IH _ Hnd') as (Hnd'' & Hrest). split; [exact Hnd''|].
    intros q. rewrite Hrest, Hstep, <- app_assoc. f_equal.
    rewrite filter_cons. destruct (decide _); reflexivity.
Qed.

Lemma groupBestPractices_aligned
    (taxonomy : list WellArchitectedBestPractice.t) (pillarId : str) :
  exists groups,
    groupBestPractices taxonomy pillarId = Ok groups /\
    Forall (alignedWith taxonomy pillarId) groups.
Proof.
  unfold groupBestPractices.
  set (pbp := filter _ taxonomy).
  destruct (fold_addPractice_spec pbp [] (NoDup_nil_2)) as (Hnd & Hpr).
  destruct (fold_left addPractice pbp []) as [|e m] eqn:Hfold.
  { eexists. split; [reflexivity | constructor]. }
  destruct pbp as [|first rest] eqn:Hpbp; [discriminate|].
  eexists. split; [reflexivity|].
  apply Forall_map, Forall_forall. intros [q data] Hin.
  unfold alignedWith, entriesOf. simpl.
  pose proof (Hpr q) as Hq. unfold practicesIn in Hq at 1.
  rewrite (elem_of_mapGet _ _ _ Hnd Hin) in Hq. simpl in Hq.
  assert (filter
            (fun bp => WellArchitectedBestPractice.Question bp = q /\
                       pillarSlug (WellArchitectedBestPractice.Pillar bp)
                       = pillarId) taxonomy
          = filter (fun bp => WellArchitectedBestPractice.Question bp = q)
              (first :: rest)) as ->.
  { rewrite <- Hpbp. unfold pbp. rewrite list_filter_filter. reflexivity. }
  rewrite Hq, !map_map, !length_map. auto.
Qed.

(** C8.  Once the taxonomy is cached, [retrieveBestPractices] returns, for
    every pillar identifier, question groups whose names and identifiers
    have the same length and list, position by position and in the order
    of the taxonomy, the practices of the group's question. *)
Theorem retrieveBestPractices_aligned (env : Env) (L : Type)
    (taxonomy : list WellArchitectedBestPractice.t)
    (pillarId workloadId : str)
    (stored : gmap (str * str) (option str * WorkItemFields.t))
    (history : list Event) (l : L) :
  let st :=
    mkSt {| items := stored;
            cachedBestPractices := Some taxonomy;
            trace := history |} l in
  exists groups,
    retrieveBestPractices env pillarId workloadId st = (Some (Ok groups), st)
    /\ Forall (alignedWith taxonomy pillarId) groups.
Proof.
  intros st.
  destruct (groupBestPractices_aligned taxonomy pillarId) as (groups & Hg & Ha).
  exists groups. split; [|exact Ha].
  unfold retrieveBestPractices, loadBestPractices, tryCatch, bind, getWorld,
    liftResult, ret.
  simpl. rewrite Hg. reflexivity.
Qed.
(** ** Numbers *)

(** An integer of at most 53 bits is a double. *)
Lemma nearestDouble_exact (n : Z) :
  n < 2 ^ 53 -> nearestDouble n = Finite n.
Proof.
  intros Hn. unfold nearestDouble.
  destruct (Z.leb_spec (Z.log2 n - 52) 0) as [_ | Hlog]; [reflexivity|].
  assert (0 < n) as Hpos.
  { destruct (Z.ltb_spec 0 n) as [H | H]; [exact H|].
    rewrite (Z.log2_nonpos n H) in Hlog. lia. }
  pose proof (proj1 (Z.log2_lt_pow2 n 53 Hpos) Hn). lia.
Qed.

(** The double nearest to an integer that is not negative is not below 0. *)
Lemma nearestDouble_nonneg (n : Z) :
  0 <= n -> numberLe (Finite 0) (nearestDouble n).
Proof.
  intros Hn. unfold nearestDouble.
  destruct (Z.leb_spec (Z.log2 n - 52) 0) as [_ | Hlog]; [exact Hn|].
  cbv zeta. destruct (2 ^ 1024 <=? _); [exact I|]. cbn [numberLe].
  set (unit := 2 ^ _).
  assert (0 < unit) by (apply Z.pow_pos_nonneg; lia).
  assert (0 <= n / unit) by (apply Z.div_pos; lia).
  destruct (_ || _); nia.
Qed.

(** On the samples the rounding is the one of the Standard Library's
    IEEE 754 arithmetic. *)
Lemma nearestDouble_ieee :
  forallb (fun n => bool_decide (nearestDouble n = ieeeDouble n))
    roundingSamples = true.
Proof. vm_compute. reflexivity. Qed.

(** ** Sorting the sections *)

(** The orders of the given sections are taken apart, and what is left is
    integer arithmetic. *)
Ltac order_of s :=
  let o := fresh "o" in
  let E := fresh "E" in
  remember (DocumentSection.order s) as o eqn:E in *; clear E;
  destruct o as [?|].

Ltac compare_orders :=
  cbn [differenceNegative numberLe] in *;
  repeat match goal with
         | H : (_ <? _) = true |- _ => apply Z.ltb_lt in H
         | H : (_ <? _) = false |- _ => apply Z.ltb_ge in H
         | |- context [?a <? ?b] => destruct (Z.ltb_spec a b)
         end;
  try discriminate; try lia; try reflexivity; try tauto.

Lemma insertSection_comm (x y : DocumentSection.t)
    (l : list DocumentSection.t) :
  differenceNegative (DocumentSection.order y) (DocumentSection.order x)
  = true ->
  insertSection y (insertSection x l) = insertSection x (insertSection y l).
Proof.
  intros Hlt. induction l as [|z l IH]; cbn [insertSection].
  - order_of x; order_of y; compare_orders.
  - destruct (differenceNegative (DocumentSection.order z)
                (DocumentSection.order x)) eqn:Hzx;
    destruct (differenceNegative (DocumentSection.order z)
                (DocumentSection.order y)) eqn:Hzy;
      cbn [insertSection]; rewrite ?Hzx, ?Hzy, ?IH; try reflexivity;
      order_of x; order_of y; order_of z; compare_orders.
Qed.

Lemma sort_insert_app (x : DocumentSection.t)
    (s b : list DocumentSection.t) :
  sortSections (insertSection x s ++ b)
  = insertSection x (sortSections (s ++ b)).
Proof.
  induction s as [|y s IH]; cbn [insertSection app]; [reflexivity|].
  destruct (differenceNegative (DocumentSection.order y)
              (DocumentSection.order x)) eqn:Hyx; [|reflexivity].
  cbn [app]. unfold sortSections in *. cbn [foldr]. rewrite IH.
  apply insertSection_comm. exact Hyx.
Qed.

(** Sorting in place between two arrivals does not change the final
    order. *)
Lemma sort_sorted_app (a b : list DocumentSection.t) :
  sortSections (sortSections a ++ b) = sortSections (a ++ b).
Proof.
  induction a as [|x a IH]; simpl; [reflexivity|].
  rewrite sort_insert_app. unfold sortSections in *. rewrite IH. reflexivity.
Qed.

Lemma sort_idem (a : list DocumentSection.t) :
  sortSections (sortSections a) = sortSections a.
Proof.
  pose proof (sort_sorted_app a []) as H. rewrite !app_nil_r in H. exact H.
Qed.

Lemma insertSection_perm (x : DocumentSection.t)
    (l : list DocumentSection.t) : insertSection x l ≡ₚ x :: l.
Proof.
  induction l as [|y l IH]; simpl; [reflexivity|].
  destruct (differenceNegative _ _); [|reflexivity].
  rewrite IH. apply Permutation_swap.
Qed.

Lemma sortSections_perm (l : list DocumentSection.t) : sortSections l ≡ₚ l.
Proof.
  induction l as [|x l IH]; simpl; [reflexivity|].
  rewrite insertSection_perm, IH. reflexivity.
Qed.

Lemma sortSections_nil (l : list DocumentSection.t) :
  sortSections l = [] <-> l = [].
Proof.
  split; [|intros ->; reflexivity].
  intros H. pose proof (sortSections_perm l) as Hp. rewrite H in Hp.
  symmetry. apply Permutation_nil_l, Hp.
Qed.

Lemma ascending_cons (x : DocumentSection.t) (l : list DocumentSection.t) :
  ascending (x :: l) <->
  Forall (fun y =>
            numberLe (DocumentSection.order x) (DocumentSection.order y)) l /\
  ascending l.
Proof.
  unfold ascending. split.
  - intros H. split.
    + apply Forall_lookup. intros i y Hy.
      apply (H O (S i) x y); [reflexivity | exact Hy | lia].
    + intros i j a b Ha Hb Hij. apply (H (S i) (S j) a b); auto. lia.
  - intros [Hx Hl] i j a b Ha Hb Hij.
    destruct j as [|j]; [lia|]. simpl in Hb.
    destruct i as [|i]; simpl in Ha.
    + injection Ha as <-. rewrite Forall_lookup in Hx. exact (Hx j b Hb).
    + apply (Hl i j a b); auto. lia.
Qed.

Lemma insertSection_ascending (x : DocumentSection.t)
    (l : list DocumentSection.t) :
  ascending l -> ascending (insertSection x l).
Proof.
  induction l as [|y l IH]; simpl; intros Hl.
  - apply ascending_cons. split; [constructor | exact Hl].
  - apply ascending_cons in Hl as [Hy Hl].
    destruct (differenceNegative (DocumentSection.order y)
                (DocumentSection.order x)) eqn:Hyx.
    + apply ascending_cons. split; [|apply IH, Hl].
      rewrite insertSection_perm. constructor; [|exact Hy].
      order_of x; order_of y; compare_orders.
    + apply ascending_cons. split.
      * constructor; [order_of x; order_of y; compare_orders|].
        eapply Forall_impl; [exact Hy|]. cbn beta. intros z Hz.
        order_of x; order_of y; order_of z; compare_orders.
      * apply ascending_cons. split; assumption.
Qed.

Lemma sortSections_ascending (l : list DocumentSection.t) :
  ascending (sortSections l).
Proof.
  induction l as [|x l IH]; simpl.
  - intros i j a b Ha. discriminate.
  - apply insertSection_ascending, IH.
Qed.

Lemma insertSection_filter (k : number) (x : DocumentSection.t)
    (l : list DocumentSection.t) :
  filter (fun s => DocumentSection.order s = k) (insertSection x l)
  = filter (fun s => DocumentSection.order s = k) (x :: l).
Proof.
  induction l as [|y l IH]; simpl; [reflexivity|].
  destruct (differenceNegative (DocumentSection.order y)
              (DocumentSection.order x)) eqn:Hyx; [|reflexivity].
  rewrite !filter_cons in *. rewrite IH.
  repeat destruct (decide _); try reflexivity; subst;
    match goal with
    | H : DocumentSection.order _ = DocumentSection.order _ |- _ =>
        rewrite H in Hyx
    end;
    order_of x; compare_orders.
Qed.

Lemma sortSections_stable (l : list DocumentSection.t) :
  stableSortOf (sortSections l) l.
Proof.
  split; [apply sortSections_perm|]. split; [apply sortSections_ascending|].
  intros k. induction l as [|x l IH]; simpl; [reflexivity|].
  rewrite insertSection_filter, !filter_cons, IH. reflexivity.
Qed.

(** The text that the service makes of the sections is their
    concatenation. *)
Lemma renderSections_concatenation (sections : list DocumentSection.t) :
  renderSections sections = concatenation sections.
Proof.
  unfold renderSections.
  induction sections as [|section rest IH]; [reflexivity|].
  cbn [concatenation]. destruct rest as [|next rest].
  - cbn [map join]. unfold renderSection. rewrite !app_nil_r. reflexivity.
  - rewrite <- IH.
    change (join (newline ++ newline)
              (map renderSection (section :: next :: rest)))
      with (renderSection section ++ (newline ++ newline) ++
            join (newline ++ newline) (map renderSection (next :: rest))).
    unfold renderSection at 1.
    repeat (rewrite <- app_assoc; cbn [app]). reflexivity.
Qed.
(** ** Rules for computations *)

Section Rules.

Context {L : Type}.

Implicit Types (st : St L).

Lemma wp_exec {A : Type} (m : M L A) Q st out st' :
  wp m Q st -> m st = (out, st') -> Q out st'.
Proof. unfold wp. intros H E. rewrite E in H. exact H. Qed.

Lemma wp_intro {A : Type} (m : M L A) (Q : option (Result A) -> St L -> Prop)
    st :
  (forall out st', m st = (out, st') -> Q out st') -> wp m Q st.
Proof. unfold wp. intros H. apply H. destruct (m st); reflexivity. Qed.

Lemma wp_mono {A : Type} (m : M L A)
    (Q Q' : option (Result A) -> St L -> Prop) st :
  wp m Q st -> (forall out st', Q out st' -> Q' out st') -> wp m Q' st.
Proof. unfold wp. auto. Qed.

Lemma wp_eq {A : Type} (m m' : M L A) Q st :
  m st = m' st -> wp m' Q st -> wp m Q st.
Proof. unfold wp. intros ->. exact id. Qed.

Lemma wp_ret {A : Type} (a : A) Q st : Q (Some (Ok a)) st -> wp (ret a) Q st.
Proof. exact id. Qed.

Lemma wp_throw {A : Type} (e : Exn) (Q : option (Result A) -> St L -> Prop)
    st :
  Q (Some (Throw e)) st -> wp (throw e) Q st.
Proof. exact id. Qed.

Lemma wp_pending {A : Type} (Q : option (Result A) -> St L -> Prop) st :
  Q None st -> wp pending Q st.
Proof. exact id. Qed.

Lemma wp_liftResult {A : Type} (r : Result A) Q st :
  Q (Some r) st -> wp (liftResult r) Q st.
Proof. exact id. Qed.

Lemma wp_bind {A B : Type} (m : M L A) (k : A -> M L B) Q st :
  wp m (afterBind k Q) st -> wp (bind m k) Q st.
Proof.
  unfold wp, afterBind, bind. destruct (m st) as [[[a|e]|] st1]; simpl; auto.
Qed.

Lemma wp_tryCatch {A : Type} (m : M L A) (handler : Exn -> M L A) Q st :
  wp m (afterTry handler Q) st -> wp (tryCatch m handler) Q st.
Proof.
  unfold wp, afterTry, tryCatch.
  destruct (m st) as [[[a|e]|] st1]; simpl; auto.
Qed.

Lemma wp_getLocals Q st :
  Q (Some (Ok (locals st))) st -> wp getLocals Q st.
Proof. exact id. Qed.

Lemma wp_setLocals (l : L) Q st :
  Q (Some (Ok tt)) (mkSt (world st) l) -> wp (setLocals l) Q st.
Proof. exact id. Qed.

Lemma wp_getWorld Q st :
  Q (Some (Ok (world st))) st -> wp getWorld Q st.
Proof. exact id. Qed.

Lemma wp_modifyWorld (f : World -> World) Q st :
  Q (Some (Ok tt)) (mkSt (f (world st)) (locals st)) ->
  wp (modifyWorld f) Q st.
Proof. exact id. Qed.

Context (env : Env).

Lemma wp_emit (ev : Event) Q st :
  Q (Some (Ok tt)) (mkSt (record ev (world st)) (locals st)) ->
  wp (emit ev) Q st.
Proof. exact id. Qed.

Lemma wp_storageCall {A : Type} (ev : Result A -> Event) (value : World -> A)
    (effect : World -> World) Q st :
  (forall e, storageFault env (trace (world st)) = Some e ->
     Q (Some (Throw e))
       (mkSt (record (ev (Throw e)) (world st)) (locals st))) ->
  (storageFault env (trace (world st)) = None ->
     Q (Some (Ok (value (world st))))
       (mkSt (record (ev (Ok (value (world st)))) (effect (world st)))
          (locals st))) ->
  wp (storageCall env ev value effect) Q st.
Proof.
  unfold wp, storageCall. intros Hf Hs.
  destruct (storageFault env (trace (world st))); simpl; auto.
Qed.

Lemma wp_storageCall_ok {A : Type} (ev : Result A -> Event)
    (value : World -> A) (effect : World -> World) Q st :
  (forall history, storageFault env history = None) ->
  Q (Some (Ok (value (world st))))
    (mkSt (record (ev (Ok (value (world st)))) (effect (world st)))
       (locals st)) ->
  wp (storageCall env ev value effect) Q st.
Proof.
  intros Hok HQ. apply wp_storageCall; [|auto].
  intros e He. rewrite Hok in He. discriminate.
Qed.

Lemma wp_ask {A : Type} (oracle : list Event -> Result A)
    (ev : Result A -> Event) Q st :
  Q (Some (oracle (trace (world st))))
    (mkSt (record (ev (oracle (trace (world st)))) (world st)) (locals st)) ->
  wp (ask oracle ev) Q st.
Proof. exact id. Qed.

Lemma wp_subscribeCancel Q st :
  Q (Some (Ok (length (trace (world st))))) st ->
  wp subscribeCancel Q st.
Proof. exact id. Qed.

Lemma wp_pollCancel (cancelPromise : nat) Q st :
  Q (Some (Ok ((cancelPromise <? length (trace (world st)))%nat
               && cancelRequested env (trace (world st)))))
    (mkSt (record (PollCancel
                     ((cancelPromise <? length (trace (world st)))%nat
                      && cancelRequested env (trace (world st))))
             (world st)) (locals st)) ->
  wp (pollCancel env cancelPromise) Q st.
Proof. exact id. Qed.

End Rules.

(** One step of symbolic execution: the rule of the computation at the
    head of the goal, or a case analysis on what it branches on. *)
Ltac wp_step :=
  lazymatch goal with
  | |- wp (tryCatch _ _) _ _ => apply wp_tryCatch
  | |- wp (bind _ _) _ _ => apply wp_bind
  | |- wp (ret _) _ _ => apply wp_ret
  | |- wp (throw _) _ _ => apply wp_throw
  | |- wp pending _ _ => apply wp_pending
  | |- wp getLocals _ _ => apply wp_getLocals
  | |- wp (setLocals _) _ _ => apply wp_setLocals
  | |- wp getWorld _ _ => apply wp_getWorld
  | |- wp (modifyWorld _) _ _ => apply wp_modifyWorld
  | |- wp (emit _) _ _ => apply wp_emit
  | |- wp (liftResult _) _ _ => apply wp_liftResult
  | |- wp (ask _ _) _ _ => apply wp_ask
  | |- wp subscribeCancel _ _ => apply wp_subscribeCancel
  | |- wp (pollCancel _ _) _ _ => apply wp_pollCancel
  | |- wp (storageCall _ _ _ _) _ _ =>
      apply wp_storageCall; [intros ? ? | intros ?]
  | |- wp (if ?b then _ else _) _ _ => destruct b eqn:?
  | |- wp (match ?x with _ => _ end) _ _ => destruct x eqn:?
  | |- match ?x with _ => _ end => destruct x eqn:?
  end;
  cbn [afterBind afterTry world locals
       AnalyzeLocals.results AnalyzeLocals.workItem
       AnalyzeLocals.processedQuestions
       GenerateLocals.isComplete GenerateLocals.allSections
       GenerateLocals.iteration
       DetailsLocals.allDetails DetailsLocals.hasError
       DetailsLocals.itemDetails DetailsLocals.isComplete].

Ltac wp_run := repeat wp_step.

(** The same when the storage is known not to fail. *)
Ltac wp_step_ok Hok :=
  lazymatch goal with
  | |- wp (storageCall _ _ _ _) _ _ =>
      apply wp_storageCall_ok; [exact Hok|];
      cbn [afterBind afterTry world locals
           AnalyzeLocals.results AnalyzeLocals.workItem
           AnalyzeLocals.processedQuestions]
  | _ => wp_step
  end.

Ltac wp_run_ok Hok := repeat wp_step_ok Hok.

(** The trace reached at a leaf, as an extension of the initial one. *)
Ltac trace_ext :=
  cbn [trace record mergeWorkItem setCache world locals];
  repeat rewrite <- app_assoc;
  reflexivity.

(** The events of a run, read off the trace reached at a leaf. *)
Ltac trace_new :=
  first
    [ exists []; split;
      [ cbn [trace record mergeWorkItem setCache world locals];
        rewrite app_nil_r; reflexivity |]
    | eexists; split; [trace_ext |] ].

(** Two outcomes recorded for the same call are the same outcome. *)
Ltac same_outcome :=
  repeat first
    [ progress simplify_eq
    | match goal with
      | H1 : ?x = _, H2 : ?x = _ |- _ => rewrite H1 in H2
      | H1 : ?x = _, H2 : context [match ?x with _ => _ end] |- _ =>
          rewrite H1 in H2
      end ].
(** ** The generation loop *)

Section Generation.

Context (env : Env).

Lemma arrivals_app (a b : list Event) :
  arrivals (a ++ b) = arrivals a ++ arrivals b.
Proof. unfold arrivals. rewrite map_app, concat_app. reflexivity. Qed.

(** What one turn of the loop does: it goes on with the sections received
    added to those held, or returns on a cancellation or on an error. *)
Lemma generateStep_spec (userId fileId : str) (recommendations : list str)
    (templateType : str) (st : St GenerateLocals.t) :
  wp (generateStep env userId fileId recommendations templateType)
    (fun out st' =>
       exists new,
         trace (world st') = trace (world st) ++ new /\
         match out with
         | None => False
         | Some (Throw _) => True
         | Some (Ok None) =>
             sortSections (GenerateLocals.allSections (locals st'))
             = sortSections
                 (GenerateLocals.allSections (locals st) ++ arrivals new) /\
             (GenerateLocals.allSections (locals st') = [] ->
              existsb persistsGeneration new = false)
         | Some (Ok (Some r)) =>
             (GenerateReturn.isCancelled r = true /\
              GenerateReturn.error r = None /\
              arrivals new = [] /\
              GenerateReturn.content r
              = cancellationNote ++
                renderSections
                  (sortSections (GenerateLocals.allSections (locals st))) /\
              (GenerateLocals.allSections (locals st) = [] ->
               existsb persistsGeneration new = false)) \/
             (GenerateReturn.isCancelled r = false /\
              GenerateReturn.error r <> None)
         end) st.
Proof.
  destruct st as [w [complete sections iteration]].
  unfold generateStep, incrementIteration,
    invokeBedrockModelForIacGeneration, sortAllSections, setSections,
    updateWorkItem, storeIaCDocument.
  wp_run.
  all: trace_new.
  all: try exact I.
  all: cbn [GenerateLocals.allSections GenerateLocals.isComplete locals world
            GenerateReturn.isCancelled GenerateReturn.error
            GenerateReturn.content] in *.
  all: try (right; split; [reflexivity | discriminate]).
  all: try (left; split; [reflexivity|]; split; [reflexivity|];
            split; [reflexivity|]; split; [reflexivity|]).
  all: try (split; [cbn; rewrite ?app_nil_r, ?sort_idem; reflexivity|]).
  all: try (intros _; reflexivity).
  all: intros Hnil; try apply (proj1 (sortSections_nil _)) in Hnil;
    match goal with
    | H : _ && nonEmpty _ = true |- _ =>
        rewrite Hnil in H; cbn in H; rewrite ?andb_false_r in H; discriminate
    end.
Qed.

(** The loop, by induction on the turns granted. *)
Lemma generateLoop_spec (userId fileId : str) (recommendations : list str)
    (templateType : str) (fuel : nat) (st : St GenerateLocals.t) :
  wp (while fuel (fun l => negb (GenerateLocals.isComplete l))
        (generateStep env userId fileId recommendations templateType))
    (fun out st' =>
       exists new,
         trace (world st') = trace (world st) ++ new /\
         let arrived :=
           GenerateLocals.allSections (locals st) ++ arrivals new in
         match out with
         | Some (Ok None) =>
             sortSections (GenerateLocals.allSections (locals st'))
             = sortSections arrived
         | Some (Ok (Some r)) =>
             (GenerateReturn.isCancelled r = true /\
              GenerateReturn.error r = None /\
              GenerateReturn.content r
              = cancellationNote ++ renderSections (sortSections arrived) /\
              (arrived = [] -> existsb persistsGeneration new = false)) \/
             (GenerateReturn.isCancelled r = false /\
              GenerateReturn.error r <> None)
         | _ => True
         end) st.
Proof.
  revert st. induction fuel as [|fuel IH]; intros st; cbn [while].
  { apply wp_pending. exists []. rewrite app_nil_r. auto. }
  wp_step. wp_step. wp_step.
  2:{ wp_step. exists []. rewrite !app_nil_r. auto. }
  wp_step. eapply wp_mono; [apply generateStep_spec|].
  intros out st1 (new1 & Htr1 & Hout).
  destruct out as [[[r|]|e]|]; cbn [afterBind];
    [| |exists new1; auto|contradiction].
  - wp_step. exists new1. split; [exact Htr1|]. cbn zeta.
    destruct Hout as [(Hc & He & Ha & Hcont & Hq) | Hout]; [left | right; exact Hout].
    rewrite Ha, app_nil_r. repeat split; auto.
  - destruct Hout as [Hsort Hq].
    eapply wp_mono; [apply IH|].
    intros out st2 (new2 & Htr2 & Hout2).
    exists (new1 ++ new2). split; [rewrite Htr2, Htr1, app_assoc; reflexivity|].
    cbn zeta in *. rewrite arrivals_app, app_assoc.
    assert (sortSections
              (GenerateLocals.allSections (locals st1) ++ arrivals new2)
            = sortSections
                ((GenerateLocals.allSections (locals st) ++ arrivals new1) ++
                 arrivals new2)) as Hmid.
    { rewrite <- (sort_sorted_app (GenerateLocals.allSections (locals st1))),
        Hsort, sort_sorted_app. reflexivity. }
    destruct out as [[[r|]|e]|]; auto.
    + destruct Hout2 as [(Hc & He & Hcont & Hq2) | Hout2]; [left | right; exact Hout2].
      rewrite <- Hmid. repeat split; auto.
      intros Hnil. apply app_eq_nil in Hnil as [Hnil1 Hnil2].
      rewrite Hnil1 in Hsort. cbn in Hsort.
      apply (proj1 (sortSections_nil _)) in Hsort.
      rewrite existsb_app, (Hq Hsort), Hq2; [reflexivity|].
      rewrite Hsort, Hnil2. reflexivity.
    + rewrite Hout2. exact Hmid.
Qed.

(** [generateIacDocument]: the three ways it returns. *)
Lemma generateIacDocument_spec (fuel : nat) (fileId : str)
    (recommendations : list str) (templateType : str) (userId : option str)
    (st : St GenerateLocals.t) :
  wp (generateIacDocument env fuel fileId recommendations templateType userId)
    (fun out st' =>
       exists new,
         trace (world st') = trace (world st) ++ new /\
         match out with
         | Some (Ok r) =>
             (GenerateReturn.isCancelled r = false /\
              GenerateReturn.error r = None /\
              GenerateReturn.content r
              = renderSections (sortSections (arrivals new))) \/
             (GenerateReturn.isCancelled r = true /\
              GenerateReturn.error r = None /\
              GenerateReturn.content r
              = cancellationNote ++
                renderSections (sortSections (arrivals new)) /\
              (arrivals new = [] -> existsb persistsGeneration new = false)) \/
             (GenerateReturn.isCancelled r = false /\
              GenerateReturn.error r <> None)
         | _ => True
         end) st.
Proof.
  destruct st as [w l].
  unfold generateIacDocument, getFileContent, getWorkItem, getOriginalContent,
    updateWorkItem.
  wp_run.
  all: try (trace_new; exact I).
  all: eapply wp_mono; [apply generateLoop_spec|].
  all: intros out st1 (new1 & Htr1 & Hout); cbn [locals world] in Htr1, Hout;
    cbn [GenerateLocals.allSections app] in Hout; cbn zeta in Hout.
  all: destruct out as [[[r|]|e]|]; cbn [afterBind afterTry].
  all: unfold sortAllSections, setSections, storeIaCDocument, updateWorkItem.
  all: wp_run.
  all: eexists;
    (split;
     [cbn [trace record mergeWorkItem setCache world locals] in Htr1 |- *;
      rewrite Htr1; repeat rewrite <- app_assoc; reflexivity|]).
  all: try exact I.
  all: rewrite ?arrivals_app; cbn [arrivals map concat arrivedIn app];
    rewrite ?app_nil_r.
  all: try (destruct Hout as [(Hc & He & Hcont & Hq) | Hout];
            [right; left | right; right; exact Hout]; repeat split; auto;
            intros Hnil; rewrite !existsb_app, (Hq Hnil); reflexivity).
  all: left; repeat split; try reflexivity;
    cbn [GenerateReturn.content GenerateLocals.allSections locals];
    rewrite Hout; reflexivity.
Qed.

(** A turn in which the cancellation wins while no section is held ends
    the loop with a cancelled result, and a turn that goes on has seen no
    cancellation. *)
Lemma generateStep_cancel (userId fileId : str) (recommendations : list str)
    (templateType : str) (st : St GenerateLocals.t) :
  wp (generateStep env userId fileId recommendations templateType)
    (fun out st' =>
       exists new,
         trace (world st') = trace (world st) ++ new /\
         match out with
         | None => False
         | Some (Ok None) => existsb cancellationWon new = false
         | _ =>
             existsb cancellationWon new = true ->
             GenerateLocals.allSections (locals st) = [] ->
             exists r,
               out = Some (Ok (Some r)) /\
               GenerateReturn.isCancelled r = true
         end) st.
Proof.
  destruct st as [w [complete sections iteration]].
  unfold generateStep, incrementIteration,
    invokeBedrockModelForIacGeneration, sortAllSections, setSections,
    updateWorkItem, storeIaCDocument.
  wp_run.
  all: trace_new.
  all: cbn [GenerateLocals.allSections GenerateLocals.isComplete locals world
            existsb cancellationWon orb] in *.
  all: try reflexivity.
  all: try (intros _ _; eexists; split; reflexivity).
  all: try (intros Hwon; simplify_eq; discriminate).
  all: intros _ ->;
    repeat match goal with
           | H : _ && nonEmpty (sortSections []) = true |- _ =>
               cbn in H; rewrite ?andb_false_r in H; discriminate
           | H : _ && nonEmpty [] = true |- _ =>
               cbn in H; rewrite ?andb_false_r in H; discriminate
           end.
Qed.

Lemma generateLoop_cancel (userId fileId : str) (recommendations : list str)
    (templateType : str) (fuel : nat) (st : St GenerateLocals.t) :
  wp (while fuel (fun l => negb (GenerateLocals.isComplete l))
        (generateStep env userId fileId recommendations templateType))
    (fun out st' =>
       exists new,
         trace (world st') = trace (world st) ++ new /\
         (existsb cancellationWon new = true ->
          GenerateLocals.allSections (locals st) ++ arrivals new = [] ->
          exists r,
            out = Some (Ok (Some r)) /\
            GenerateReturn.isCancelled r = true)) st.
Proof.
  revert st. induction fuel as [|fuel IH]; intros st; cbn [while].
  { apply wp_pending. exists []. rewrite app_nil_r.
    split; [reflexivity | discriminate]. }
  wp_step. wp_step. wp_step.
  2:{ wp_step. exists []. rewrite !app_nil_r.
      split; [reflexivity | discriminate]. }
  wp_step.
  pose proof (generateStep_spec userId fileId recommendations templateType st)
    as Hspec.
  pose proof (generateStep_cancel userId fileId recommendations templateType
                st) as Hcancel.
  unfold wp in Hspec, Hcancel |- *.
  destruct (generateStep env userId fileId recommendations templateType st)
    as [out st1].
  cbn [fst snd] in *.
  destruct Hspec as (new1 & Htr1 & Hout).
  destruct Hcancel as (new1' & Htr1' & Hwon).
  rewrite Htr1 in Htr1'. apply app_inv_head in Htr1'. subst new1'.
  destruct out as [[[r|]|e]|]; cbn [afterBind]; [| | |contradiction].
  - wp_step. exists new1. split; [exact Htr1|].
    intros Hw Hnil. apply app_eq_nil in Hnil as [Hnil _]. auto.
  - destruct Hout as [Hsort Hq].
    eapply wp_mono; [apply IH|].
    intros out2 st2 (new2 & Htr2 & Hout2).
    exists (new1 ++ new2).
    split; [rewrite Htr2, Htr1, app_assoc; reflexivity|].
    rewrite existsb_app, Hwon, arrivals_app, app_assoc. cbn [orb].
    intros Hw Hnil. apply app_eq_nil in Hnil as [Hnil1 Hnil2].
    apply Hout2; [exact Hw|].
    rewrite Hnil1 in Hsort. cbn in Hsort.
    apply (proj1 (sortSections_nil _)) in Hsort.
    rewrite Hsort, Hnil2. reflexivity.
  - exists new1. split; [exact Htr1|].
    intros Hw Hnil. apply app_eq_nil in Hnil as [Hnil _].
    destruct (Hwon Hw Hnil) as (r & Hr & _). discriminate.
Qed.

(** The prologue of [generateIacDocument] invokes no model, and a loop
    that a cancellation ended is the end of the call. *)
Lemma generateIacDocument_cancel (fuel : nat) (fileId : str)
    (recommendations : list str) (templateType : str) (userId : option str)
    (st : St GenerateLocals.t) :
  wp (generateIacDocument env fuel fileId recommendations templateType userId)
    (fun out st' =>
       exists new,
         trace (world st') = trace (world st) ++ new /\
         (existsb cancellationWon new = true ->
          arrivals new = [] ->
          exists r,
            out = Some (Ok r) /\ GenerateReturn.isCancelled r = true)) st.
Proof.
  destruct st as [w l].
  unfold generateIacDocument, getFileContent, getWorkItem, getOriginalContent,
    updateWorkItem.
  wp_run.
  all: try (trace_new; cbn [existsb cancellationWon orb]; discriminate).
  all: eapply wp_mono; [apply generateLoop_cancel|].
  all: intros out st1 (new1 & Htr1 & Hout); cbn [locals world] in Htr1, Hout;
    cbn [GenerateLocals.allSections app] in Hout.
  all: destruct out as [[[r|]|e]|]; cbn [afterBind afterTry].
  all: unfold sortAllSections, setSections, storeIaCDocument, updateWorkItem.
  all: wp_run.
  all: eexists;
    (split;
     [cbn [trace record mergeWorkItem setCache world locals] in Htr1 |- *;
      rewrite Htr1; repeat rewrite <- app_assoc; reflexivity|]).
  all: rewrite ?arrivals_app, ?existsb_app;
    cbn [arrivals map concat arrivedIn app existsb cancellationWon orb];
    rewrite ?app_nil_r, ?orb_false_r.
  all: intros Hw Hnil; destruct (Hout Hw Hnil) as (r' & Hr & Hc);
    try discriminate.
  all: injection Hr as <-; eexists; split; [reflexivity | exact Hc].
Qed.

End Generation.

(** C7.  On normal completion the document is the concatenation of the
    sections received, sorted by ascending order with those of equal order
    kept in their order of arrival, whatever the sequence of the
    arrivals. *)
Theorem generateIacDocument_sorted (env : Env) (fuel : nat) (fileId : str)
    (recommendations : list str) (templateType : str) (userId : option str)
    (st st' : St GenerateLocals.t) (r : GenerateReturn.t)
    (new : list Event) :
  generateIacDocument env fuel fileId recommendations templateType userId st
  = (Some (Ok r), st') ->
  trace (world st') = trace (world st) ++ new ->
  GenerateReturn.isCancelled r = false ->
  GenerateReturn.error r = None ->
  exists sorted,
    GenerateReturn.content r = concatenation sorted /\
    stableSortOf sorted (arrivals new).
Proof.
  intros Hrun Htr Hc He.
  destruct (wp_exec _ _ _ _ _
              (generateIacDocument_spec env fuel fileId recommendations
                 templateType userId st) Hrun) as (new' & Htr' & Hout).
  rewrite Htr in Htr'. apply app_inv_head in Htr'. subst new'.
  exists (sortSections (arrivals new)). split; [|apply sortSections_stable].
  rewrite <- renderSections_concatenation.
  destruct Hout as [(_ & _ & H) | [(Hc' & _) | (_ & He')]];
    [exact H | congruence | contradiction].
Qed.

Lemma generateIacDocument_sorted_witness :
  exists r st',
    generateIacDocument (exampleEnv (Ok []) [] exampleGeneration []) 5 "f" []
      exampleTemplate (Some (lit "u"))
      (exampleStart (GenerateLocals.mk false [] O))
    = (Some (Ok r), st') /\
    exists sorted,
      GenerateReturn.content r = concatenation sorted /\
      stableSortOf sorted (arrivals (trace (world st'))).
Proof.
  eexists. eexists. split; [vm_compute; reflexivity|].
  eapply (generateIacDocument_sorted
            (exampleEnv (Ok []) [] exampleGeneration []) 5 "f" [] exampleTemplate
            (Some (lit "u")) (exampleStart (GenerateLocals.mk false [] O)));
    [vm_compute; reflexivity | reflexivity | reflexivity | reflexivity].
Defined.

(** C10.  When the cancellation wins the race of an invocation and no
    section has arrived, the call returns the cancellation note alone,
    flagged as cancelled, and neither stores a document nor marks the work
    item partial. *)
Theorem generateIacDocument_cancelled_empty (env : Env) (fuel : nat)
    (fileId : str) (recommendations : list str) (templateType : str)
    (userId : option str) (st st' : St GenerateLocals.t)
    (out : option (Result GenerateReturn.t)) (new : list Event) :
  generateIacDocument env fuel fileId recommendations templateType userId st
  = (out, st') ->
  trace (world st') = trace (world st) ++ new ->
  existsb cancellationWon new = true ->
  arrivals new = [] ->
  exists r,
    out = Some (Ok r) /\
    GenerateReturn.isCancelled r = true /\
    GenerateReturn.content r = cancellationNote /\
    GenerateReturn.error r = None /\
    existsb persistsGeneration new = false.
Proof.
  intros Hrun Htr Hwon Hnil.
  destruct (wp_exec _ _ _ _ _
              (generateIacDocument_cancel env fuel fileId recommendations
                 templateType userId st) Hrun) as (new' & Htr' & Hcancel).
  rewrite Htr in Htr'. apply app_inv_head in Htr'. subst new'.
  destruct (Hcancel Hwon Hnil) as (r & -> & Hc).
  destruct (wp_exec _ _ _ _ _
              (generateIacDocument_spec env fuel fileId recommendations
                 templateType userId st) Hrun) as (new' & Htr' & Hout).
  rewrite Htr in Htr'. apply app_inv_head in Htr'. subst new'.
  exists r. split; [reflexivity|]. split; [exact Hc|].
  destruct Hout as [(Hc' & _) | [(_ & He & Hcont & Hq) | (Hc' & _)]];
    [congruence | | congruence].
  rewrite Hnil in Hcont. split; [rewrite Hcont; reflexivity | auto].
Qed.

Lemma generateIacDocument_cancelled_empty_witness :
  exists out st',
    generateIacDocument (exampleEnv (Ok []) [] exampleCancelledGeneration []) 5
      "f" [] exampleTemplate (Some (lit "u"))
      (exampleStart (GenerateLocals.mk false [] O))
    = (out, st') /\
    exists r,
      out = Some (Ok r) /\
      GenerateReturn.isCancelled r = true /\
      GenerateReturn.content r = cancellationNote /\
      GenerateReturn.error r = None /\
      existsb persistsGeneration (trace (world st')) = false.
Proof.
  eexists. eexists. split; [vm_compute; reflexivity|].
  eapply (generateIacDocument_cancelled_empty
            (exampleEnv (Ok []) [] exampleCancelledGeneration []) 5 "f" []
            exampleTemplate (Some (lit "u"))
            (exampleStart (GenerateLocals.mk false [] O)));
    [vm_compute; reflexivity | reflexivity | reflexivity | reflexivity].
Defined.
(** ** Detailed analysis *)

Lemma filter_not_applied (items : list Item.t) :
  Forall (fun item => Item.applied item = true) items ->
  filter (fun item => Item.applied item = false) items = [].
Proof.
  induction 1 as [|item items Hitem _ IH]; [reflexivity|].
  rewrite filter_cons, IH. destruct (decide _); [congruence | reflexivity].
Qed.

(** C9.  When every selected item is already applied and at least one item
    is selected, [getMoreDetails] throws: no inference call and no progress
    emission is made, and once the work item and the content have been read
    the error is the one of reading [name] on the missing first item. *)
Theorem getMoreDetails_all_applied (env : Env) (fuel : nat)
    (selectedItems : list Item.t) (userId fileId : str)
    (templateType : option str) (st st' : St DetailsLocals.t)
    (out : option (Result DetailsReturn.t)) (new : list Event) :
  getMoreDetails env fuel selectedItems userId fileId templateType st
  = (out, st') ->
  trace (world st') = trace (world st) ++ new ->
  selectedItems <> [] ->
  Forall (fun item => Item.applied item = true) selectedItems ->
  existsb isInvokeDetails new = false /\
  existsb isProgress new = false /\
  exists e,
    out = Some (Throw e) /\
    forall content,
      last new = Some (GetOriginalContent userId fileId (Ok content)) ->
      e = TypeError "Cannot read properties of undefined (reading 'name')".
Proof.
  intros Hrun Htr Hne Hall.
  assert (wp (getMoreDetails env fuel selectedItems userId fileId templateType)
            (fun out st' =>
               exists new,
                 trace (world st') = trace (world st) ++ new /\
                 existsb isInvokeDetails new = false /\
                 existsb isProgress new = false /\
                 exists e,
                   out = Some (Throw e) /\
                   forall content,
                     last new
                     = Some (GetOriginalContent userId fileId (Ok content)) ->
                     e = TypeError
                           "Cannot read properties of undefined (reading 'name')")
            st) as Hwp.
  { unfold getMoreDetails. cbn zeta.
    rewrite (filter_not_applied _ Hall).
    destruct selectedItems as [|item items]; [contradiction|].
    destruct st as [w l].
    unfold getWorkItem, getOriginalContent.
    wp_run.
    all: trace_new.
    all: split; [reflexivity|]; split; [reflexivity|].
    all: eexists; split; [reflexivity|].
    all: intros content Hlast; try reflexivity; cbn in Hlast;
      try discriminate.
    all: injection Hlast as Hlast; congruence. }
  destruct (wp_exec _ _ _ _ _ Hwp Hrun) as (new' & Htr' & H).
  rewrite Htr in Htr'. apply app_inv_head in Htr'. subst new'. exact H.
Qed.

Lemma getMoreDetails_all_applied_witness :
  exists out st',
    getMoreDetails (exampleEnv (Ok []) [] [] []) 5
      [Item.mk "Use encryption" true; Item.mk "Rotate keys" true] "u" "f"
      None (exampleStart (DetailsLocals.mk [] false [] false))
    = (out, st') /\
    existsb isInvokeDetails (trace (world st')) = false /\
    existsb isProgress (trace (world st')) = false /\
    exists e,
      out = Some (Throw e) /\
      forall content,
        last (trace (world st'))
        = Some (GetOriginalContent "u" "f" (Ok content)) ->
        e = TypeError "Cannot read properties of undefined (reading 'name')".
Proof.
  eexists. eexists. split; [vm_compute; reflexivity|].
  eapply (getMoreDetails_all_applied (exampleEnv (Ok []) [] [] []) 5
            [Item.mk "Use encryption" true; Item.mk "Rotate keys" true]
            "u" "f" None (exampleStart (DetailsLocals.mk [] false [] false)));
    [vm_compute; reflexivity | reflexivity | discriminate
    | repeat constructor].
Defined.
(** ** The analysis loop *)

Section ForEach.

Context {L R : Type}.

Lemma forEach_app {X : Type} (xs ys : list X) (body : X -> M L (option R))
    (st : St L) :
  forEach (xs ++ ys) body st
  = bind (forEach xs body)
      (fun r => match r with
                | Some v => ret (Some v)
                | None => forEach ys body
                end) st.
Proof.
  revert st. induction xs as [|x xs IH]; intros st; simpl.
  - reflexivity.
  - unfold bind. destruct (body x st) as [[[[v|]|e]|] st1];
      try reflexivity.
    rewrite IH. reflexivity.
Qed.

Lemma forEach_map {X Y : Type} (f : X -> Y) (xs : list X)
    (body : Y -> M L (option R)) (st : St L) :
  forEach (map f xs) body st = forEach xs (fun x => body (f x)) st.
Proof.
  revert st. induction xs as [|x xs IH]; intros st; simpl; [reflexivity|].
  unfold bind. destruct (body (f x) st) as [[[[v|]|e]|] st1];
    try reflexivity.
  apply IH.
Qed.

(** The two nested loops of [analyze] walk the questions of the pillars in
    sequence. *)
Lemma forEach_nested {X Y : Type} (groups : list (X * list Y))
    (body : X -> Y -> M L (option R)) (st : St L) :
  forEach groups (fun '(x, ys) => forEach ys (body x)) st
  = forEach (concat (map (fun '(x, ys) => map (pair x) ys) groups))
      (fun '(x, y) => body x y) st.
Proof.
  revert st. induction groups as [|[x ys] groups IH]; intros st; simpl;
    [reflexivity|].
  rewrite forEach_app. unfold bind.
  rewrite forEach_map.
  destruct (forEach ys _ st) as [[[[v|]|e]|] st1]; try reflexivity.
  apply IH.
Qed.

End ForEach.

Section Retrieval.

Context (env : Env) {L : Type}.

Lemma mapM_retrieve (taxonomy : list WellArchitectedBestPractice.t)
    (workloadId : str) (selectedPillars : list str) (st : St L) :
  cachedBestPractices (world st) = Some taxonomy ->
  exists groups,
    mapM (fun pillar => retrieveBestPractices env pillar workloadId)
      selectedPillars st = (Some (Ok groups), st) /\
    length groups = length selectedPillars /\
    concat (map (fun '(pillar, gs) => map (pair pillar) gs)
              (zip selectedPillars groups))
    = questionsOf taxonomy selectedPillars.
Proof.
  intros Hcache. destruct st as [[stored cache history] l].
  simpl in Hcache. subst cache.
  induction selectedPillars as [|pillar pillars (groups & Hrun & Hlen & Hq)].
  - exists []. repeat split.
  - destruct (groupBestPractices_aligned taxonomy pillar) as (gs & Hok & _).
    assert (retrieveBestPractices env pillar workloadId
              (mkSt {| items := stored;
                       cachedBestPractices := Some taxonomy;
                       trace := history |} l)
            = (Some (Ok gs),
               mkSt {| items := stored;
                       cachedBestPractices := Some taxonomy;
                       trace := history |} l)) as Hgs.
    { unfold retrieveBestPractices, loadBestPractices, tryCatch, bind,
        getWorld, liftResult, ret.
      simpl. rewrite Hok. reflexivity. }
    exists (gs :: groups). split; [|split].
    + simpl. unfold bind at 1. rewrite Hgs.
      unfold bind at 1. rewrite Hrun. reflexivity.
    + simpl. rewrite Hlen. reflexivity.
    + unfold questionsOf in *. simpl. rewrite Hq. f_equal.
      unfold retrieveBestPractices, loadBestPractices, tryCatch, bind,
        getWorld, liftResult, ret in Hgs. simpl in Hgs.
      destruct (groupBestPractices taxonomy pillar); simpl in Hgs;
        [|discriminate].
      injection Hgs as ->. reflexivity.
Qed.

End Retrieval.
Lemma countEvents_app (kind : Event -> bool) (a b : list Event) :
  countEvents kind (a ++ b) = (countEvents kind a + countEvents kind b)%nat.
Proof. unfold countEvents. rewrite List.filter_app, length_app. reflexivity. Qed.

(** The calls of a kind counted along an explicit trace. *)
Ltac count_events :=
  cbn [world trace record mergeWorkItem setCache] in *;
  rewrite ?countEvents_app in *;
  cbn in *;
  lia.

Lemma count_record (kind : Event -> bool) (ev : Event) (w : World) :
  countEvents kind (trace (record ev w))
  = (countEvents kind (trace w) + if kind ev then 1 else 0)%nat.
Proof.
  cbn [trace record]. rewrite countEvents_app. unfold countEvents at 2.
  simpl. destruct (kind ev); reflexivity.
Qed.

Lemma fieldsOf_record (userId fileId : str) (ev : Event) (w : World) :
  fieldsOf userId fileId (record ev w) = fieldsOf userId fileId w.
Proof. reflexivity. Qed.

Lemma fieldsOf_merge (userId fileId : str) (patch : WorkItemFields.t)
    (w : World) :
  fieldsOf userId fileId (mergeWorkItem userId fileId patch w)
  = WorkItemFields.merge patch (fieldsOf userId fileId w).
Proof.
  unfold fieldsOf, mergeWorkItem. cbn [items]. rewrite lookup_insert_eq.
  destruct (items w !! (userId, fileId)) as [[ft fields]|]; [reflexivity|].
  destruct patch as [[] [] [] [] [] [] [] [] []]; reflexivity.
Qed.

Lemma analysisStopped_names (e : Exn) (question : QuestionGroup.t)
    (processed total : nat) :
  includes
    (QuestionGroup.pillar question ++ lit " - " ++
     QuestionGroup.title question)
    (analysisStopped e question processed total) = true.
Proof.
  unfold analysisStopped.
  etransitivity;
    [|apply (includes_app
               (QuestionGroup.pillar question ++ lit " - " ++
                QuestionGroup.title question)
               (exnToString e ++ lit ". Error analyzing question " ++
                [quoteChar])
               ([quoteChar] ++ lit ". Analysis stopped, " ++
                showNat processed ++
                lit " questions where analyzed out of " ++ showNat total ++
                lit "."))].
  f_equal. repeat rewrite <- app_assoc. reflexivity.
Qed.

Lemma countQuestions_from (groups : list (list QuestionGroup.t)) (n : nat) :
  fold_left (fun sum gs => (sum + length gs)%nat) groups n
  = (n + countQuestions groups)%nat.
Proof.
  unfold countQuestions. revert n.
  induction groups as [|g groups IH]; intros n; simpl; [lia|].
  rewrite IH, (IH (length g)). lia.
Qed.

Lemma countQuestions_length (pillars : list str)
    (groups : list (list QuestionGroup.t)) :
  length groups = length pillars ->
  countQuestions groups
  = length (concat (map (fun '(pillar, gs) => map (pair pillar) gs)
                      (zip pillars groups))).
Proof.
  revert pillars. induction groups as [|g groups IH]; intros [|p pillars] Hlen;
    try discriminate; [reflexivity|].
  unfold countQuestions. simpl.
  rewrite countQuestions_from, length_app, length_map, <- IH; [reflexivity|].
  simpl in Hlen. lia.
Qed.

Section Scenario.

Context (env : Env) (userId fileId fileContent fileType : str)
  (totalQuestions : nat).

Hypothesis storage_ok : forall history, storageFault env history = None.
Hypothesis not_cancelled : forall history, cancelRequested env history = false.
Hypothesis retrieval_ok :
  forall history, exists contexts, knowledgeBase env history = Ok contexts.
Hypothesis content_read :
  forall history, originalContent env history = Ok (Text fileContent, fileType).
Hypothesis content_ok : analyzable fileContent fileType = true.
Hypothesis first_two_succeed :
  forall history,
    (countEvents isInvokeModel history < 2)%nat ->
    exists text response verdicts,
      analysisModel env history = Ok text /\
      parseAnalysis env (cleanJsonString text) = Ok response /\
      ModelResponse.bestPractices response = Some (Some <$> verdicts).
Hypothesis third_throws :
  forall history,
    countEvents isInvokeModel history = 2%nat ->
    exists e, analysisModel env history = Throw e.

Lemma analyzeQuestion_succeeds (question : QuestionGroup.t)
    (kbContexts : list str) (st : St AnalyzeLocals.t) :
  (countEvents isInvokeModel (trace (world st)) < 2)%nat ->
  wp (analyzeQuestion env fileContent question kbContexts fileType)
    (fun out st' =>
       exists analysis,
         out = Some (Ok analysis) /\
         locals st' = locals st /\
         countEvents isInvokeModel (trace (world st'))
         = S (countEvents isInvokeModel (trace (world st)))) st.
Proof.
  intros Hcount. destruct st as [w l]. cbn [world] in Hcount.
  destruct (first_two_succeed _ Hcount)
    as (text & response & verdicts & Ht & Hp & Hv).
  pose proof content_ok as Hc. unfold analyzable in Hc.
  unfold analyzeQuestion, invokeBedrockModelWithImage, invokeBedrockModel,
    invokeAnalysis.
  cbn zeta.
  destruct (startsWith "image/" fileType).
  - apply andb_prop in Hc as [Hdata Huri]. rewrite Hdata.
    destruct (dataUri fileContent); [|discriminate].
    cbn [negb andb]. wp_run; same_outcome;
      rewrite ?(parseModelResponse_objects _ _ _ Hv) in *; same_outcome.
    eexists. split; [reflexivity|]. split; [reflexivity|].
    cbn [world]. rewrite count_record. cbn. lia.
  - cbn [negb andb]. wp_run; same_outcome;
      rewrite ?(parseModelResponse_objects _ _ _ Hv) in *; same_outcome.
    eexists. split; [reflexivity|]. split; [reflexivity|].
    cbn [world]. rewrite count_record. cbn. lia.
Qed.

Lemma analyzeQuestion_throws (question : QuestionGroup.t)
    (kbContexts : list str) (st : St AnalyzeLocals.t) :
  countEvents isInvokeModel (trace (world st)) = 2%nat ->
  wp (analyzeQuestion env fileContent question kbContexts fileType)
    (fun out st' =>
       exists e ev,
         out = Some (Throw e) /\
         st' = mkSt (record ev (world st)) (locals st)) st.
Proof.
  intros Hcount. destruct st as [w l]. cbn [world] in Hcount.
  destruct (third_throws _ Hcount) as (e & He).
  pose proof content_ok as Hc. unfold analyzable in Hc.
  unfold analyzeQuestion, invokeBedrockModelWithImage, invokeBedrockModel,
    invokeAnalysis, parseModelResponse.
  cbn zeta.
  destruct (startsWith "image/" fileType).
  - apply andb_prop in Hc as [Hdata Huri]. rewrite Hdata.
    destruct (dataUri fileContent); [|discriminate].
    cbn [negb andb]. wp_run; same_outcome.
    eexists. eexists. split; reflexivity.
  - cbn [negb andb]. wp_run; same_outcome.
    eexists. eexists. split; reflexivity.
Qed.

(** Wrong turns of the scenario: a cancellation or a failed retrieval. *)
Ltac off_scenario :=
  try match goal with
      | H : _ && cancelRequested env _ = true |- _ =>
          rewrite not_cancelled, andb_false_r in H; discriminate H
      | H : knowledgeBase env ?h = Throw _ |- _ =>
          let c := fresh in
          let Hc := fresh in
          destruct (retrieval_ok h) as [c Hc]; rewrite Hc in H;
          discriminate H
      end.

(** While fewer than two inference calls have been made, a question is
    analyzed and the loop goes on. *)
Lemma analyzeStep_continues (cancelPromise : nat) (pillar : str)
    (question : QuestionGroup.t) (workItem : WorkItem.t)
    (st : St AnalyzeLocals.t) :
  AnalyzeLocals.workItem (locals st) = Some workItem ->
  (countEvents isInvokeModel (trace (world st)) < 2)%nat ->
  wp (analyzeStep env userId fileContent fileType totalQuestions
        cancelPromise pillar question)
    (fun out st' =>
       out = Some (Ok None) /\
       (exists analysis,
          locals st'
          = AnalyzeLocals.mk
              (AnalyzeLocals.results (locals st) ++ [analysis])
              (Some workItem)
              (S (AnalyzeLocals.processedQuestions (locals st)))) /\
       countEvents isInvokeModel (trace (world st'))
       = S (countEvents isInvokeModel (trace (world st)))) st.
Proof.
  destruct st as [w [results item processed]]. cbn [locals world].
  cbn [AnalyzeLocals.workItem]. intros -> Hcount.
  unfold analyzeStep, retrieveFromKnowledgeBase.
  wp_run_ok storage_ok; off_scenario.
  eapply wp_mono.
  { apply analyzeQuestion_succeeds. cbn [world].
    rewrite !count_record. cbn. lia. }
  intros out [w1 l1] (analysis & -> & Hl & Hc).
  cbn [locals world] in Hl, Hc. subst l1.
  rewrite !count_record in Hc. cbn in Hc.
  cbn [afterBind afterTry]. unfold pushResult, incrementProcessed, updateWorkItem.
  wp_run_ok storage_ok.
  split; [reflexivity|]. split; [eexists; reflexivity|].
  cbn [world]. rewrite !count_record. cbn [trace mergeWorkItem]. cbn. lia.
Qed.

(** At the third inference call the question fails: the results held so
    far are stored, the work item is marked partial with the progress
    reached, and the call returns the error that names the question. *)
Lemma analyzeStep_stops (cancelPromise : nat) (pillar : str)
    (question : QuestionGroup.t) (fileType' : option str)
    (fields : WorkItemFields.t) (st : St AnalyzeLocals.t) :
  AnalyzeLocals.workItem (locals st)
  = Some (WorkItem.mk fileId fileType' fields) ->
  nonEmpty (AnalyzeLocals.results (locals st)) = true ->
  countEvents isInvokeModel (trace (world st)) = 2%nat ->
  wp (analyzeStep env userId fileContent fileType totalQuestions
        cancelPromise pillar question)
    (fun out st' =>
       (exists e,
          out
          = Some (Ok (Some
              {| AnalyzeReturn.results := AnalyzeLocals.results (locals st);
                 AnalyzeReturn.isCancelled := false;
                 AnalyzeReturn.error :=
                   Some (analysisStopped e question
                           (AnalyzeLocals.processedQuestions (locals st))
                           totalQuestions);
                 AnalyzeReturn.fileId := Some fileId |}))) /\
       locals st' = locals st /\
       analysisStatusOf userId fileId (world st') = Some PARTIAL /\
       analysisProgressOf userId fileId (world st')
       = Some (roundPercent (AnalyzeLocals.processedQuestions (locals st))
                 totalQuestions)) st.
Proof.
  destruct st as [w [results item processed]]. cbn [locals world].
  cbn [AnalyzeLocals.workItem AnalyzeLocals.results
       AnalyzeLocals.processedQuestions].
  intros -> Hres Hcount.
  unfold analyzeStep, retrieveFromKnowledgeBase.
  wp_run_ok storage_ok; off_scenario.
  eapply wp_mono.
  { apply analyzeQuestion_throws. cbn [world].
    rewrite !count_record. cbn. lia. }
  intros out st1 (e & ev & -> & ->).
  cbn [afterBind afterTry locals world].
  unfold storePartial, returned, storeAnalysisResults, updateWorkItem.
  wp_run_ok storage_ok; same_outcome.
  split; [eexists; reflexivity|]. split; [reflexivity|].
  unfold analysisStatusOf, analysisProgressOf.
  rewrite !fieldsOf_record, fieldsOf_merge. split; reflexivity.
Qed.

End Scenario.

(** C2.  In a run over five question groups in which the first two
    inference calls succeed and the third throws, [analyze] returns two
    results with two questions processed and an error that names the pillar
    and the title of the third question; the work item is left partial with
    a progress of 40. *)
Theorem analyze_third_of_five_fails (env : Env)
    (userId fileId fileContent fileType workloadId : str)
    (selectedPillars : list str)
    (taxonomy : list WellArchitectedBestPractice.t)
    (storedType : option str) (storedFields : WorkItemFields.t)
    (st : St AnalyzeLocals.t) :
  (forall history, storageFault env history = None) ->
  (forall history, cancelRequested env history = false) ->
  (forall history, exists contexts, knowledgeBase env history = Ok contexts) ->
  (forall history,
     originalContent env history = Ok (Text fileContent, fileType)) ->
  analyzable fileContent fileType = true ->
  (forall history,
     (countEvents isInvokeModel history < 2)%nat ->
     exists text response verdicts,
       analysisModel env history = Ok text /\
       parseAnalysis env (cleanJsonString text) = Ok response /\
       ModelResponse.bestPractices response = Some (Some <$> verdicts)) ->
  (forall history,
     countEvents isInvokeModel history = 2%nat ->
     exists e, analysisModel env history = Throw e) ->
  truthy userId = true ->
  items (world st) !! (userId, fileId) = Some (storedType, storedFields) ->
  cachedBestPractices (world st) = Some taxonomy ->
  countEvents isInvokeModel (trace (world st)) = O ->
  length (questionsOf taxonomy selectedPillars) = 5%nat ->
  exists r st' pillar question e,
    analyze env fileId workloadId selectedPillars (Some userId) st
    = (Some (Ok r), st') /\
    questionsOf taxonomy selectedPillars !! 2%nat = Some (pillar, question) /\
    length (AnalyzeReturn.results r) = 2%nat /\
    AnalyzeLocals.processedQuestions (locals st') = 2%nat /\
    AnalyzeReturn.isCancelled r = false /\
    AnalyzeReturn.error r = Some (analysisStopped e question 2 5) /\
    includes
      (QuestionGroup.pillar question ++ lit " - " ++
       QuestionGroup.title question)
      (analysisStopped e question 2 5) = true /\
    analysisStatusOf userId fileId (world st') = Some PARTIAL /\
    analysisProgressOf userId fileId (world st') = Some (Int 40).
Proof.
  intros storage_ok not_cancelled retrieval_ok content_read content_ok
    first_two_succeed third_throws Huser Hitem Hcache Hfresh Hfive.
  pose proof (analyzeStep_continues env userId fileContent fileType 5
                storage_ok not_cancelled retrieval_ok content_ok
                first_two_succeed) as Hgo.
  pose proof (analyzeStep_stops env userId fileId fileContent fileType 5
                storage_ok not_cancelled retrieval_ok content_ok
                third_throws) as Hstop.
  destruct (questionsOf taxonomy selectedPillars)
    as [|[p1 q1] [|[p2 q2] [|[p3 q3] [|[p4 q4] [|[p5 q5] [|]]]]]] eqn:Hqs;
    try discriminate Hfive.
  assert (wp (analyze env fileId workloadId selectedPillars (Some userId))
            (fun out st' =>
               exists r e,
                 out = Some (Ok r) /\
                 length (AnalyzeReturn.results r) = 2%nat /\
                 AnalyzeLocals.processedQuestions (locals st') = 2%nat /\
                 AnalyzeReturn.isCancelled r = false /\
                 AnalyzeReturn.error r = Some (analysisStopped e q3 2 5) /\
                 analysisStatusOf userId fileId (world st') = Some PARTIAL /\
                 analysisProgressOf userId fileId (world st')
                 = Some (Int 40)) st) as Hwp.
  { destruct st as [w l]. cbn [world] in *.
    unfold analyze, getFileContent, getWorkItem, getOriginalContent,
      setWorkItem, updateWorkItem, loadBestPractices.
    wp_run_ok storage_ok.
    all: cbn [cachedBestPractices record mergeWorkItem] in *.
    all: try (rewrite content_read in *).
    all: same_outcome.
    all: try (rewrite Huser in *; discriminate).
    unfold lookupWorkItem. cbn [items record]. rewrite Hitem.
    match goal with
    | |- wp _ _ ?st0 =>
        destruct (mapM_retrieve env taxonomy workloadId selectedPillars st0)
          as (groups & Hrun & Hlen & Hq); [exact Hcache|]
    end.
    eapply wp_eq; [exact Hrun|]. apply wp_ret. cbn [afterBind].
    rewrite (countQuestions_length _ _ Hlen), Hq, Hqs. cbn [length].
    wp_step. wp_step. wp_step.
    eapply wp_eq; [apply forEach_nested|]. rewrite Hq, Hqs.
    cbn [forEach].
    wp_step. eapply wp_mono.
    { eapply Hgo; [reflexivity|]. clear Hgo Hstop. count_events. }
    intros out [w1 l1] (-> & (a1 & Hl1) & Hc1). cbn [locals world] in Hl1, Hc1.
    subst l1. cbn [afterBind].
    wp_step. eapply wp_mono.
    { eapply Hgo; [reflexivity|]. clear Hgo Hstop. count_events. }
    intros out [w2 l2] (-> & (a2 & Hl2) & Hc2). cbn [locals world] in Hl2, Hc2.
    subst l2. cbn [afterBind].
    wp_step. eapply wp_mono.
    { eapply Hstop; [reflexivity|reflexivity|]. clear Hgo Hstop.
      count_events. }
    intros out [w3 l3] ((e & ->) & Hl3 & Hstatus & Hprogress).
    cbn [locals world] in Hl3, Hstatus, Hprogress. subst l3.
    cbn [afterBind].
    wp_run. cbn [locals world AnalyzeLocals.results
                 AnalyzeLocals.processedQuestions].
    eexists _, e. repeat split; try reflexivity; assumption. }
  destruct (analyze env fileId workloadId selectedPillars (Some userId) st)
    as [out st'] eqn:Hrun.
  apply (wp_exec _ _ _ _ _ Hwp) in Hrun.
  destruct Hrun
    as (r & e & -> & Hlen & Hproc & Hcan & Herr & Hstat & Hprog).
  exists r, st', p3, q3, e.
  repeat split; try assumption.
  apply analysisStopped_names.
Qed.


Lemma analyze_third_of_five_fails_witness :
  exists r st' pillar question e,
    analyze (exampleEnv (Ok []) [Ok (lit "{}"); Ok (lit "{}")] [] [])
      "f" "w" examplePillars (Some (lit "u"))
      (mkSt (loadedWorld exampleTaxonomy) (AnalyzeLocals.mk [] None O))
    = (Some (Ok r), st') /\
    questionsOf exampleTaxonomy examplePillars !! 2%nat
    = Some (pillar, question) /\
    length (AnalyzeReturn.results r) = 2%nat /\
    AnalyzeLocals.processedQuestions (locals st') = 2%nat /\
    AnalyzeReturn.isCancelled r = false /\
    AnalyzeReturn.error r = Some (analysisStopped e question 2 5) /\
    includes
      (QuestionGroup.pillar question ++ lit " - " ++
       QuestionGroup.title question)
      (analysisStopped e question 2 5) = true /\
    analysisStatusOf (lit "u") (lit "f") (world st') = Some PARTIAL /\
    analysisProgressOf (lit "u") (lit "f") (world st') = Some (Int 40).
Proof.
  apply (analyze_third_of_five_fails
           (exampleEnv (Ok []) [Ok (lit "{}"); Ok (lit "{}")] [] [])
           "u" "f" "data:image/png;base64,iVBORw0KGgo=" "image/png" "w"
           examplePillars exampleTaxonomy (Some (lit "image/png"))
           WorkItemFields.none).
  - intros history. reflexivity.
  - intros history. cbn. unfold scripted.
    destruct (countEvents isPollCancel history); reflexivity.
  - intros history. eexists. reflexivity.
  - intros history. reflexivity.
  - vm_compute. reflexivity.
  - intros history Hcount. cbn. unfold scripted.
    destruct (countEvents isInvokeModel history) as [|[|n]];
      [eexists _, _, [_]; repeat split; reflexivity ..|lia].
  - intros history Hcount. cbn. unfold scripted. rewrite Hcount.
    eexists. reflexivity.
  - reflexivity.
  - vm_compute. reflexivity.
  - reflexivity.
  - reflexivity.
  - vm_compute. reflexivity.
Defined.
(** ** The cleaning of a JSON text *)

Section Squeezing.

Lemma alike_refl (a : ascii) : alike a a.
Proof. left. reflexivity. Qed.

Lemma alike_space (a b : ascii) : alike a b -> isSpace a = isSpace b.
Proof. intros [->|[[H ->]|[[-> ->]|[-> ->]]]]; try reflexivity. exact H. Qed.

Lemma alike_quote (a b : ascii) : alike a b -> isQuote a = isQuote b.
Proof.
  intros [->|[[H ->]|[[-> ->]|[-> ->]]]]; try reflexivity.
  ascii_cases a; vm_compute in H |- *; congruence.
Qed.

Lemma alike_mark (c a b : ascii) :
  isMark c = true -> alike a b -> ascii_eqb c a = ascii_eqb c b.
Proof.
  intros Hc [->|[[H ->]|[[-> ->]|[-> ->]]]]; try reflexivity.
  - assert (isSpace c = false) as Hs.
    { unfold isMark in Hc. apply andb_true_iff in Hc as [Hc _].
      apply negb_true_iff, Hc. }
    assert (forall x, isSpace x = true -> ascii_eqb c x = false) as Hne.
    { intros x Hx. destruct (ascii_eqb c x) eqn:E; [|reflexivity].
      apply ascii_eqb_eq in E. congruence. }
    rewrite (Hne a H), (Hne " "%char eq_refl). reflexivity.
  - ascii_cases c; vm_compute in Hc |- *; congruence.
  - ascii_cases c; vm_compute in Hc |- *; congruence.
Qed.

Lemma ascii_eqb_sym (a b : ascii) : ascii_eqb a b = ascii_eqb b a.
Proof. apply Ascii.eqb_sym. Qed.

Lemma squeezes_refl (s : str) : squeezes s s.
Proof. induction s; constructor; auto using alike_refl. Qed.

Lemma alike_trans (a b c : ascii) : alike a b -> alike b c -> alike a c.
Proof.
  intros [->|[[Ha ->]|[[-> ->]|[-> ->]]]] Hbc; [exact Hbc|..].
  - destruct Hbc as [<-|[[_ ->]|[[? _]|[? _]]]]; try discriminate;
      right; left; auto.
  - destruct Hbc as [<-|[[? _]|[[? _]|[? _]]]]; try discriminate.
    right. right. left. auto.
  - destruct Hbc as [<-|[[? _]|[[? _]|[? _]]]]; try discriminate.
    right. right. right. auto.
Qed.

Lemma squeezes_trans (s t u : str) :
  squeezes s t -> squeezes t u -> squeezes s u.
Proof.
  intros Hst. revert u.
  induction Hst as [|a b s t Hab _ IH|a s t Ha _ IH]; intros u Htu.
  - exact Htu.
  - inversion Htu as [|b' c t' u' Hbc Hrest|b' t' u' Hb Hrest]; subst.
    + apply squeezes_keep; eauto using alike_trans.
    + apply squeezes_drop; auto. rewrite (alike_space _ _ Hab). exact Hb.
  - apply squeezes_drop; auto.
Qed.

Lemma squeezes_app (s t s' t' : str) :
  squeezes s t -> squeezes s' t' -> squeezes (s ++ s') (t ++ t').
Proof. induction 1; intros H'; cbn; try constructor; auto. Qed.

Lemma squeezes_head_space (s t : str) :
  squeezes s t -> headIs isSpace t = true -> headIs isSpace s = true.
Proof.
  intros [|a b s' t' Hab _|a s' t' Ha _]; cbn; intros H; try assumption.
  rewrite (alike_space _ _ Hab). exact H.
Qed.

(** What a squeeze keeps. *)

Lemma squeezes_singleSpaced (s t : str) :
  squeezes s t ->
  forall p p' : bool, (p' = true -> p = true) ->
  singleSpaced p s = true -> singleSpaced p' t = true.
Proof.
  induction 1 as [|a b s t Hab _ IH|a s t Ha _ IH]; intros p p' Hp; cbn.
  - reflexivity.
  - rewrite <- (alike_space _ _ Hab).
    destruct (isSpace a) eqn:Ea.
    + rewrite !andb_true_iff, !negb_true_iff. intros [[Hblank Hp0] Hs].
      apply ascii_eqb_eq in Hblank. subst a.
      assert (b = " "%char) as ->.
      { destruct Hab as [<-|[[_ ->]|[[? _]|[? _]]]];
          try reflexivity; discriminate. }
      repeat split; [|apply (IH true true); auto].
      destruct p'; [rewrite Hp in Hp0; [discriminate|reflexivity]|reflexivity].
    + apply (IH false false). auto.
  - rewrite Ha, !andb_true_iff. intros [_ Hs].
    apply (IH true p'); auto.
Qed.

Lemma squeezes_tightAfter (c : ascii) (unquoted : bool) (s t : str) :
  isMark c = true ->
  squeezes s t ->
  forall m m' : bool, (m' = true -> m = true) ->
  tightAfter c unquoted m s = true -> tightAfter c unquoted m' t = true.
Proof.
  intros Hc.
  induction 1 as [|a b s t Hab Hst IH|a s t Ha _ IH]; intros m m' Hm; cbn.
  - reflexivity.
  - rewrite !andb_true_iff, !negb_true_iff. intros [Hhead Htail]. split.
    + rewrite (ascii_eqb_sym b c), <- (alike_mark c a b Hc Hab).
      rewrite (ascii_eqb_sym a c) in Hhead.
      destruct (ascii_eqb c a); [|reflexivity].
      destruct m'; [|reflexivity]. rewrite Hm in Hhead by reflexivity.
      destruct (headIs isSpace t) eqn:Et; [|reflexivity].
      rewrite (squeezes_head_space _ _ Hst Et) in Hhead. discriminate.
    + rewrite <- (alike_quote _ _ Hab). apply (IH _ _ (fun H => H) Htail).
  - rewrite !andb_true_iff. intros [_ Htail].
    apply (IH _ m' (fun _ => eq_refl)).
    replace (negb unquoted || negb (isQuote a)) with true in Htail;
      [exact Htail|].
    ascii_cases a; vm_compute in Ha |- *; try discriminate;
      destruct unquoted; reflexivity.
Qed.

Lemma squeezes_tightBefore (c : ascii) (s t : str) :
  isMark c = true ->
  squeezes s t ->
  forall p p' : bool, (p' = true -> p = true) ->
  tightBefore c p s = true -> tightBefore c p' t = true.
Proof.
  intros Hc.
  induction 1 as [|a b s t Hab _ IH|a s t Ha _ IH]; intros p p' Hp; cbn.
  - reflexivity.
  - rewrite !andb_true_iff, !negb_true_iff. intros [Hhead Htail]. split.
    + rewrite <- (alike_mark c a b Hc Hab).
      destruct p'; [|reflexivity]. rewrite Hp in Hhead by reflexivity.
      exact Hhead.
    + rewrite <- (alike_space _ _ Hab). apply (IH _ _ (fun H => H) Htail).
  - rewrite Ha, !andb_true_iff. intros [_ Htail].
    apply (IH true p' (fun _ => eq_refl) Htail).
Qed.

(** Every step of [normalizeJson] is a squeeze. *)

Lemma replaceRuns_squeezes (inRun : bool) (s : str) :
  squeezes s (replaceRunsFrom isSpace " " inRun s).
Proof.
  revert inRun. induction s as [|x s IH]; intros inRun; cbn.
  - constructor.
  - destruct (isSpace x) eqn:Ex.
    + destruct inRun; cbn.
      * apply squeezes_drop; auto.
      * apply squeezes_keep; auto. right. left. auto.
    + apply squeezes_keep; auto using alike_refl.
Qed.

Lemma stripAfter_squeezes (c : ascii) (unquoted : bool) (prev : option ascii)
    (dropping : bool) (s : str) :
  squeezes s (stripAfterFrom c unquoted prev dropping s).
Proof.
  revert prev dropping. induction s as [|x s IH]; intros prev dropping; cbn.
  - constructor.
  - destruct (dropping && isSpace x) eqn:E.
    + apply andb_true_iff in E as [_ E]. apply squeezes_drop; auto.
    + apply squeezes_keep; auto using alike_refl.
Qed.

Lemma stripBefore_squeezes (c : ascii) (s : str) :
  squeezes s (stripBefore c s).
Proof.
  induction s as [|x s IH]; cbn.
  - constructor.
  - destruct (isSpace x && _) eqn:E.
    + apply andb_true_iff in E as [E _]. apply squeezes_drop; auto.
    + apply squeezes_keep; auto using alike_refl.
Qed.

(** What each step achieves. *)

Lemma replaceRuns_singleSpaced (inRun : bool) (s : str) :
  singleSpaced inRun (replaceRunsFrom isSpace " " inRun s) = true.
Proof.
  revert inRun. induction s as [|x s IH]; intros inRun; cbn.
  - reflexivity.
  - destruct (isSpace x) eqn:Ex.
    + destruct inRun; cbn; [apply IH|]. rewrite IH. reflexivity.
    + cbn. rewrite Ex. apply IH.
Qed.

Lemma stripAfter_tightAfter (c : ascii) (unquoted : bool) (s : str) :
  isQuote c = false ->
  forall (prev : option ascii) (dropping matching : bool),
    (dropping = true -> notAfterQuote prev = true) ->
    (matching = true -> negb unquoted || notAfterQuote prev = true) ->
    tightAfter c unquoted matching
      (stripAfterFrom c unquoted prev dropping s) = true /\
    (dropping = true ->
     headIs isSpace (stripAfterFrom c unquoted prev dropping s) = false).
Proof.
  intros Hc. induction s as [|x s IH]; intros prev dropping matching Hd Hm.
  - cbn. auto.
  - cbn [stripAfterFrom]. destruct (dropping && isSpace x) eqn:E.
    + apply andb_true_iff in E as [-> Ex].
      apply IH; intros _.
      * cbn. ascii_cases x; vm_compute in Ex |- *; congruence.
      * cbn. replace (negb (isQuote x)) with true; [apply orb_true_r|].
        ascii_cases x; vm_compute in Ex |- *; congruence.
    + set (next := ascii_eqb x c && (negb unquoted || notAfterQuote prev)).
      destruct (IH (Some x) next (negb unquoted || negb (isQuote x)))
        as [Htail Hhead].
      * unfold next. rewrite andb_true_iff. intros [Hx _].
        apply ascii_eqb_eq in Hx. subst x. cbn. rewrite Hc. reflexivity.
      * auto.
      * split.
        -- cbn [tightAfter]. rewrite Htail, andb_true_r, negb_true_iff.
           destruct (ascii_eqb x c) eqn:Ex; [|reflexivity].
           destruct matching; [|reflexivity]. cbn.
           apply Hhead. unfold next. rewrite ?Ex, Hm; reflexivity.
        -- intros ->. cbn in E |- *. exact E.
Qed.

Lemma stripBefore_tightBefore (c : ascii) (s : str) :
  isMark c = true ->
  forall afterSpace : bool,
    (afterSpace = true ->
     headIs (ascii_eqb c) (dropWhile isSpace s) = false) ->
    tightBefore c afterSpace (stripBefore c s) = true.
Proof.
  intros Hc. induction s as [|x s IH]; intros afterSpace Hp.
  - reflexivity.
  - cbn [stripBefore].
    destruct (isSpace x && headIs (ascii_eqb c) (dropWhile isSpace s)) eqn:E.
    + apply andb_true_iff in E as [Ex E]. apply IH. intros ->.
      cbn in Hp. rewrite Ex, E in Hp. discriminate Hp; reflexivity.
    + cbn [tightBefore]. rewrite andb_true_iff, negb_true_iff. split.
      * destruct afterSpace; [|reflexivity]. cbn.
        destruct (ascii_eqb c x) eqn:Ecx; [|reflexivity].
        apply ascii_eqb_eq in Ecx. subst x.
        specialize (Hp eq_refl). cbn in Hp.
        replace (isSpace c) with false in Hp.
        -- cbn in Hp. rewrite ascii_eqb_refl in Hp. discriminate.
        -- ascii_cases c; vm_compute in Hc |- *; congruence.
      * apply IH. intros Ex. rewrite Ex in E. exact E.
Qed.

(** A step has nothing to do on a text of the shape it achieves. *)

Lemma singleSpaced_fixed (s : str) :
  forall p inRun : bool, (inRun = true -> p = true) ->
  singleSpaced p s = true -> replaceRunsFrom isSpace " " inRun s = s.
Proof.
  induction s as [|x s IH]; intros p inRun Hp; cbn; [reflexivity|].
  destruct (isSpace x) eqn:Ex.
  - rewrite !andb_true_iff, negb_true_iff. intros [[Hx ->] Hs].
    apply ascii_eqb_eq in Hx. subst x.
    destruct inRun; [discriminate Hp; reflexivity|].
    cbn. f_equal. apply (IH true true); auto.
  - intros Hs. f_equal. apply (IH false false); auto.
Qed.

Lemma tightAfter_fixed (c : ascii) (unquoted : bool) (s : str) :
  forall (prev : option ascii) (dropping : bool),
    tightAfter c unquoted (negb unquoted || notAfterQuote prev) s = true ->
    (dropping = true -> headIs isSpace s = false) ->
    stripAfterFrom c unquoted prev dropping s = s.
Proof.
  induction s as [|x s IH]; intros prev dropping; cbn [tightAfter]; intros Ht Hd;
    [reflexivity|].
  apply andb_true_iff in Ht as [Hhead Htail]. apply negb_true_iff in Hhead.
  cbn [stripAfterFrom].
  destruct (dropping && isSpace x) eqn:E.
  - apply andb_true_iff in E as [-> Ex]. cbn in Hd. rewrite Hd in Ex; auto.
    discriminate.
  - f_equal. apply IH; [exact Htail|].
    intros Hnext. rewrite Hnext in Hhead. cbn in Hhead. exact Hhead.
Qed.

Lemma tightBefore_head (c : ascii) (s : str) :
  forall afterSpace : bool,
    tightBefore c afterSpace s = true ->
    afterSpace = true ->
    headIs (ascii_eqb c) (dropWhile isSpace s) = false.
Proof.
  induction s as [|x s IH]; intros afterSpace; cbn; [reflexivity|].
  rewrite andb_true_iff, negb_true_iff. intros [Hhead Htail] ->.
  cbn in Hhead. destruct (isSpace x) eqn:Ex.
  - apply (IH true); auto.
  - cbn. exact Hhead.
Qed.

Lemma tightBefore_fixed (c : ascii) (s : str) :
  forall afterSpace : bool,
    tightBefore c afterSpace s = true -> stripBefore c s = s.
Proof.
  induction s as [|x s IH]; intros afterSpace; cbn; [reflexivity|].
  rewrite andb_true_iff. intros [_ Htail].
  destruct (isSpace x) eqn:Ex; cbn.
  - rewrite (tightBefore_head c s true Htail eq_refl).
    f_equal. apply (IH true Htail).
  - f_equal. apply (IH false Htail).
Qed.

End Squeezing.

(** The replacement of a literal [p] by a text [r] that starts with the
    same character, found nowhere else in [p]. *)
Section Literal.

Context (h : ascii) (p' r' : str).

Let p : str := h :: p'.
Let r : str := h :: r'.

Lemma replaceAllFrom_skip (k : nat) (s : str) :
  replaceAllFrom p r k s = replaceAllFrom p r O (drop k s).
Proof.
  revert k. induction s as [|c s IH]; intros [|k]; try reflexivity.
  cbn [replaceAllFrom drop]. apply IH.
Qed.

Lemma replaceAll_cons (c : ascii) (s : str) :
  replaceAll p r (c :: s) =
  if startsWith p (c :: s) then r ++ replaceAll p r (drop (length p) (c :: s))
  else c :: replaceAll p r s.
Proof.
  unfold replaceAll. cbn [replaceAllFrom].
  destruct (startsWith p (c :: s)); [|reflexivity].
  rewrite replaceAllFrom_skip. f_equal. f_equal.
  cbn. rewrite Nat.sub_0_r. reflexivity.
Qed.

(** A text without [h] that leads the result leads the input. *)
Lemma replaceAll_prefix (q s : str) :
  forallb (fun c => negb (ascii_eqb c h)) q = true ->
  startsWith q (replaceAll p r s) = true -> startsWith q s = true.
Proof.
  revert s. induction q as [|a q IH]; intros s Hq; [reflexivity|].
  cbn in Hq. apply andb_true_iff in Hq as [Ha Hq].
  apply negb_true_iff in Ha.
  destruct s as [|c s]; [cbn; auto|].
  rewrite replaceAll_cons.
  destruct (startsWith p (c :: s)) eqn:E.
  - cbn. rewrite Ha. discriminate.
  - cbn. rewrite !andb_true_iff. intros [-> H]. auto.
Qed.

Hypothesis tail_free : forallb (fun c => negb (ascii_eqb c h)) p' = true.

Lemma replaceAll_squeezes (s : str) :
  squeezes p' r' -> squeezes s (replaceAll p r s).
Proof.
  intros Hpr. induction s as [s IH] using suffix_induction.
  destruct s as [|c s]; [constructor|].
  rewrite replaceAll_cons.
  destruct (startsWith p (c :: s)) eqn:E.
  - rewrite (startsWith_split _ _ E) at 1.
    apply squeezes_app.
    + apply squeezes_keep; auto using alike_refl.
    + apply IH; [cbn; lia|]. apply startsWith_length, E.
  - apply squeezes_keep; auto using alike_refl.
    apply (IH 1%nat); cbn; lia.
Qed.

(** The occurrences of a text [q] in the result, when [q] is no part of
    [r] and has [h] at its head only. *)
Section Occurrences.

Context (q' : str).

Let q : str := h :: q'.

Hypothesis q_free : forallb (fun c => negb (ascii_eqb c h)) q' = true.
Hypothesis inert : forall s, includes q (r ++ s) = includes q s.

Lemma replaceAll_includes (s : str) :
  includes q (replaceAll p r s) = true -> includes q s = true.
Proof.
  induction s as [s IH] using suffix_induction.
  destruct s as [|c s]; [cbn; auto|].
  rewrite replaceAll_cons.
  destruct (startsWith p (c :: s)) eqn:E.
  - rewrite inert. intros H. apply (includes_drop _ (length p)).
    apply IH; [cbn; lia | apply startsWith_length, E | exact H].
  - cbn [includes]. rewrite !orb_true_iff. intros [H|H].
    + left. cbn in H |- *. apply andb_true_iff in H as [-> H].
      apply (replaceAll_prefix _ _ q_free H).
    + right. apply (IH 1%nat); [lia | cbn; lia | exact H].
Qed.

(** When [q] is [p] itself, none is left. *)
Lemma replaceAll_clears (s : str) :
  q' = p' -> includes q (replaceAll p r s) = false.
Proof.
  intros Hq. induction s as [s IH] using suffix_induction.
  destruct s as [|c s]; [reflexivity|].
  rewrite replaceAll_cons.
  destruct (startsWith p (c :: s)) eqn:E.
  - rewrite inert.
    apply IH; [cbn; lia | apply startsWith_length, E].
  - cbn [includes].
    rewrite (IH 1%nat ltac:(lia) ltac:(cbn; lia) : includes q (replaceAll p r s) = false).
    rewrite orb_false_r.
    destruct (startsWith q (c :: replaceAll p r s)) eqn:H; [|reflexivity].
    cbn in H. apply andb_true_iff in H as [Hc H].
    apply (replaceAll_prefix _ _ q_free) in H.
    unfold p in E. rewrite <- Hq in E. cbn in E.
    rewrite Hc, H in E. discriminate.
Qed.

End Occurrences.

Lemma replaceAll_fixed (s : str) :
  includes p s = false -> replaceAll p r s = s.
Proof.
  induction s as [|c s IH]; [reflexivity|].
  rewrite replaceAll_cons. cbn [includes].
  rewrite orb_false_iff. intros [-> H]. f_equal. apply IH, H.
Qed.

End Literal.

(** The cut to the outermost braces. *)
Section Braces.

Lemma indexOf_none (c : ascii) (s : str) :
  indexOf [c] s = None <-> forallb (fun x => negb (ascii_eqb c x)) s = true.
Proof.
  induction s as [|x s IH]; cbn; [tauto|].
  rewrite andb_true_r. destruct (ascii_eqb c x); cbn; [split; discriminate|].
  rewrite <- IH. destruct (indexOf [c] s); cbn; split; congruence.
Qed.

Lemma lastIndexOf_none (c : ascii) (s : str) :
  lastIndexOf [c] s = None <->
  forallb (fun x => negb (ascii_eqb c x)) s = true.
Proof.
  induction s as [|x s IH]; cbn; [tauto|].
  rewrite andb_true_r, andb_true_iff, <- IH.
  destruct (lastIndexOf [c] s); [split; [discriminate|intros [_ ?]; discriminate]|].
  destruct (ascii_eqb c x); cbn; split; try tauto; try discriminate.
  intros [? _]; discriminate.
Qed.

Lemma indexOf_some (c : ascii) (s : str) (n : nat) :
  indexOf [c] s = Some n ->
  exists before after,
    s = before ++ c :: after /\ length before = n /\
    forallb (fun x => negb (ascii_eqb c x)) before = true.
Proof.
  revert n. induction s as [|x s IH]; intros n; cbn; [discriminate|].
  rewrite andb_true_r. destruct (ascii_eqb c x) eqn:E.
  - intros [= <-]. apply ascii_eqb_eq in E. subst x.
    exists [], s. auto.
  - destruct (indexOf [c] s) as [k|]; cbn; [|discriminate]. intros [= <-].
    destruct (IH k eq_refl) as (before & after & -> & <- & Hfree).
    exists (x :: before), after. cbn. rewrite E, Hfree. auto.
Qed.

Lemma lastIndexOf_some (c : ascii) (s : str) (n : nat) :
  lastIndexOf [c] s = Some n ->
  exists before after,
    s = before ++ c :: after /\ length before = n /\
    forallb (fun x => negb (ascii_eqb c x)) after = true.
Proof.
  revert n. induction s as [|x s IH]; intros n; cbn; [discriminate|].
  destruct (lastIndexOf [c] s) as [k|] eqn:Ek.
  - intros [= <-].
    destruct (IH k eq_refl) as (before & after & -> & <- & Hfree).
    exists (x :: before), after. auto.
  - rewrite andb_true_r. destruct (ascii_eqb c x) eqn:E; [|discriminate].
    intros [= <-]. apply ascii_eqb_eq in E. subst x.
    exists [], s. repeat split. apply lastIndexOf_none, Ek.
Qed.

Lemma lastIndexOf_end (c : ascii) (s : str) :
  lastIndexOf [c] (s ++ [c]) = Some (length s).
Proof.
  induction s as [|x s IH]; cbn.
  - rewrite ascii_eqb_refl. reflexivity.
  - cbn in IH. rewrite IH. reflexivity.
Qed.

Lemma forallb_drop (P : ascii -> bool) (n : nat) (s : str) :
  forallb P s = true -> forallb P (drop n s) = true.
Proof.
  revert s. induction n as [|n IH]; intros [|x s]; cbn; auto.
  rewrite andb_true_iff. intros [_ H]. apply IH, H.
Qed.

Lemma trimToBraces_braced (s : str) : braced (trimToBraces s).
Proof.
  unfold trimToBraces.
  destruct (indexOf "{" s) as [f|] eqn:Ef; [|right; left; exact Ef].
  destruct (lastIndexOf "}" s) as [l|] eqn:El; [|right; right; exact El].
  destruct (indexOf_some _ _ _ Ef) as (before & after & Hs & Hf & Hfree).
  destruct (lastIndexOf_some _ _ _ El) as (before' & after' & Hs' & Hl & _).
  unfold substring.
  assert (s !! f = Some "{"%char) as Hopen.
  { rewrite Hs, <- Hf. apply list_lookup_middle. reflexivity. }
  assert (s !! l = Some "}"%char) as Hclose.
  { rewrite Hs', <- Hl. apply list_lookup_middle. reflexivity. }
  destruct (le_lt_dec f l) as [Hle|Hlt].
  - left.
    assert (f <> l) by (intros ->; congruence).
    replace (Nat.min f (l + 1)) with f by lia.
    replace (Nat.max f (l + 1)) with (l + 1)%nat by lia.
    rewrite take_drop_commute.
    replace (f + (l + 1 - f))%nat with (S l) by lia.
    rewrite (take_S_r _ _ _ Hclose).
    assert (length (take l s) = l) as Hlen.
    { rewrite length_take. apply lookup_lt_Some in Hclose. lia. }
    rewrite drop_app_le by lia.
    rewrite (drop_S _ "{"%char) by (rewrite lookup_take_lt by lia; exact Hopen).
    eexists. reflexivity.
  - right. left.
    replace (Nat.min f (l + 1)) with (l + 1)%nat by lia.
    replace (Nat.max f (l + 1)) with f by lia.
    apply indexOf_none.
    rewrite take_drop_commute.
    replace (l + 1 + (f - (l + 1)))%nat with f by lia.
    rewrite Hs, take_app_length' by auto.
    apply forallb_drop, Hfree.
Qed.

Lemma braced_fixed (s : str) : braced s -> trimToBraces s = s.
Proof.
  unfold trimToBraces.
  intros [[inner ->]|[->| H]].
  - change (lit "}") with ["}"%char]. change (lit "{") with ["{"%char].
    change ("{"%char :: inner ++ ["}"%char])
      with (("{"%char :: inner) ++ ["}"%char]).
    rewrite (lastIndexOf_end "}" ("{"%char :: inner)).
    cbn [indexOf startsWith app].
    rewrite ascii_eqb_refl. cbn [andb].
    unfold substring. rewrite Nat.min_0_l, Nat.max_0_l, Nat.sub_0_r.
    cbn [drop]. apply take_ge. cbn. rewrite !length_app. cbn. lia.
  - reflexivity.
  - rewrite H. destruct (indexOf "{" s); reflexivity.
Qed.

Lemma indexOf_first (c : ascii) (before rest : str) :
  forallb (fun x => negb (ascii_eqb c x)) before = true ->
  indexOf [c] (before ++ c :: rest) = Some (length before).
Proof.
  induction before as [|x before IH]; cbn.
  - rewrite ascii_eqb_refl. reflexivity.
  - rewrite andb_true_iff, negb_true_iff. intros [-> H].
    cbn in IH |- *. rewrite (IH H). reflexivity.
Qed.

Lemma lastIndexOf_last (c : ascii) (before rest : str) :
  forallb (fun x => negb (ascii_eqb c x)) rest = true ->
  lastIndexOf [c] (before ++ c :: rest) = Some (length before).
Proof.
  intros H. apply lastIndexOf_none in H.
  induction before as [|x before IH]; cbn.
  - rewrite H, ascii_eqb_refl. reflexivity.
  - cbn in IH. rewrite IH. reflexivity.
Qed.

Lemma trimToBraces_cut (before inner rest : str) :
  forallb (fun x => negb (ascii_eqb "{" x)) before = true ->
  forallb (fun x => negb (ascii_eqb "}" x)) rest = true ->
  trimToBraces (before ++ "{"%char :: inner ++ "}"%char :: rest)
  = "{"%char :: inner ++ ["}"%char].
Proof.
  intros Hb Hr. unfold trimToBraces.
  change (lit "}") with ["}"%char]. change (lit "{") with ["{"%char].
  rewrite (indexOf_first "{" before _ Hb).
  replace (before ++ "{"%char :: inner ++ "}"%char :: rest)
    with ((before ++ "{"%char :: inner) ++ "}"%char :: rest)
    by (rewrite <- app_assoc; reflexivity).
  rewrite (lastIndexOf_last "}" _ _ Hr).
  unfold substring. rewrite length_app. cbn [length].
  replace (Nat.min _ _) with (length before) by lia.
  replace (Nat.max _ _ - length before)%nat with (S (S (length inner)))
    by lia.
  rewrite <- app_assoc, drop_app_length. cbn [app take]. f_equal.
  change ("}"%char :: rest) with (["}"%char] ++ rest).
  rewrite app_assoc. apply take_app_length'.
  rewrite length_app. cbn. lia.
Qed.

Lemma squeezes_free (c : ascii) (s t : str) :
  isMark c = true ->
  squeezes s t ->
  forallb (fun x => negb (ascii_eqb c x)) s = true ->
  forallb (fun x => negb (ascii_eqb c x)) t = true.
Proof.
  intros Hc. induction 1 as [|a b s t Hab _ IH|a s t Ha _ IH]; cbn; auto.
  - rewrite !andb_true_iff, (alike_mark c a b Hc Hab). tauto.
  - rewrite andb_true_iff. tauto.
Qed.

Lemma squeezes_last (c : ascii) (s t : str) :
  isMark c = true ->
  squeezes (s ++ [c]) t -> exists t', t = t' ++ [c].
Proof.
  intros Hc. revert t. induction s as [|x s IH]; cbn; intros t H.
  - inversion H as [|a b s' t' Hab Hnil|a s' t' Ha _]; subst.
    + inversion Hnil; subst. exists [].
      destruct Hab as [->|[[Hs _]|[[-> _]|[-> _]]]]; [reflexivity|..].
      * ascii_cases c; vm_compute in Hc, Hs; congruence.
      * discriminate.
      * discriminate.
    + ascii_cases c; vm_compute in Hc, Ha; congruence.
  - inversion H as [|a b s' t' Hab Hrest|a s' t' Ha Hrest]; subst.
    + destruct (IH _ Hrest) as [t0 ->]. exists (b :: t0). reflexivity.
    + apply (IH _ Hrest).
Qed.

Lemma squeezes_braced (s t : str) : squeezes s t -> braced s -> braced t.
Proof.
  intros Hst [[inner ->]|[H|H]].
  - left. inversion Hst as [|a b s' t' Hab Hrest|a s' t' Ha _]; subst.
    + destruct (squeezes_last "}" _ _ eq_refl Hrest) as [t0 ->].
      exists t0.
      destruct Hab as [->|[[Hs _]|[[? _]|[? _]]]]; try discriminate.
      reflexivity.
    + discriminate.
  - right. left. apply indexOf_none.
    apply (squeezes_free "{" _ _ eq_refl Hst), indexOf_none, H.
  - right. right. apply lastIndexOf_none.
    apply (squeezes_free "}" _ _ eq_refl Hst), lastIndexOf_none, H.
Qed.

End Braces.

(** The eleven steps together. *)
Section Cleaning.

Lemma capital_squeezes (s : str) (p r : str) :
  (p = lit ": True" /\ r = lit ": true") \/
  (p = lit ": False" /\ r = lit ": false") ->
  squeezes s (replaceAll p r s).
Proof.
  intros [[-> ->]|[-> ->]].
  - apply (replaceAll_squeezes ":" (lit " True") (lit " true")).
    repeat (apply squeezes_keep || apply squeezes_nil);
      try apply alike_refl.
    right. right. left. auto.
  - apply (replaceAll_squeezes ":" (lit " False") (lit " false")).
    repeat (apply squeezes_keep || apply squeezes_nil);
      try apply alike_refl.
    right. right. right. auto.
Qed.

Lemma true_squeezes (s : str) : squeezes s (replaceAll ": True" ": true" s).
Proof. apply capital_squeezes. auto. Qed.

Lemma false_squeezes (s : str) : squeezes s (replaceAll ": False" ": false" s).
Proof. apply capital_squeezes. auto. Qed.

Lemma true_cleared (s : str) :
  includes ": True" (replaceAll ": True" ": true" s) = false.
Proof.
  apply (replaceAll_clears ":" (lit " True") (lit " true") (lit " True"));
    reflexivity.
Qed.

Lemma false_cleared (s : str) :
  includes ": False" (replaceAll ": False" ": false" s) = false.
Proof.
  apply (replaceAll_clears ":" (lit " False") (lit " false") (lit " False"));
    reflexivity.
Qed.

Lemma false_keeps_cleared (s : str) :
  includes ": True" s = false ->
  includes ": True" (replaceAll ": False" ": false" s) = false.
Proof.
  intros H.
  destruct (includes ": True" (replaceAll ": False" ": false" s)) eqn:E;
    [|reflexivity].
  apply (replaceAll_includes ":" (lit " False") (lit " false") (lit " True"))
    in E; [|reflexivity|reflexivity].
  change (includes ": True" s = true) in E. congruence.
Qed.

Ltac step_squeezes :=
  first [ apply true_squeezes | apply false_squeezes
        | apply stripAfter_squeezes | apply stripBefore_squeezes
        | apply replaceRuns_squeezes ].

Lemma normalizeJson_squeezes (s : str) : squeezes s (normalizeJson s).
Proof.
  unfold normalizeJson, stripAfter, replaceRuns. cbv zeta.
  repeat (eapply squeezes_trans; [|step_squeezes]).
  apply squeezes_refl.
Qed.

(** A shape achieved by an inner step holds of the whole. *)
Ltac achieved :=
  first
    [ apply replaceRuns_singleSpaced
    | apply stripAfter_tightAfter; [reflexivity | discriminate | auto]
    | apply stripBefore_tightBefore; [reflexivity | discriminate]
    | eapply squeezes_singleSpaced;
        [step_squeezes | exact (fun H => H) | achieved]
    | eapply squeezes_tightAfter;
        [reflexivity | step_squeezes | exact (fun H => H) | achieved]
    | eapply squeezes_tightBefore;
        [reflexivity | step_squeezes | exact (fun H => H) | achieved] ].

Lemma normalizeJson_cleaned (s : str) : cleaned (normalizeJson s) = true.
Proof.
  unfold cleaned, tight, normalizeJson, stripAfter, replaceRuns. cbv zeta.
  rewrite false_cleared, false_keeps_cleared by apply true_cleared.
  rewrite !andb_true_r.
  repeat (apply andb_true_iff; split); achieved.
Qed.

Lemma true_fixed (s : str) :
  includes ": True" s = false -> replaceAll ": True" ": true" s = s.
Proof. exact (replaceAll_fixed ":" (lit " True") (lit " true") s). Qed.

Lemma false_fixed (s : str) :
  includes ": False" s = false -> replaceAll ": False" ": false" s = s.
Proof. exact (replaceAll_fixed ":" (lit " False") (lit " false") s). Qed.

(** On a compact text the cleaning is the replacement of the capitalized
    literals. *)
Lemma tight_fixed (s : str) :
  tight s = true ->
  normalizeJson s
  = replaceAll ": False" ": false" (replaceAll ": True" ": true" s).
Proof.
  unfold tight. rewrite !andb_true_iff.
  intros [[[[[[[[H1 H2] H3] H4] H5] H6] H7] H8] H9].
  unfold normalizeJson, stripAfter, replaceRuns. cbv zeta.
  rewrite (singleSpaced_fixed s false false (fun H => H) H1).
  rewrite (tightAfter_fixed ":" true s None false H2) by discriminate.
  rewrite (tightBefore_fixed ":" s false H3).
  rewrite (tightAfter_fixed "," true s None false H4) by discriminate.
  rewrite (tightBefore_fixed "," s false H5).
  rewrite (tightAfter_fixed "{" false s None false H6) by discriminate.
  rewrite (tightBefore_fixed "}" s false H7).
  rewrite (tightAfter_fixed "[" false s None false H8) by discriminate.
  rewrite (tightBefore_fixed "]" s false H9).
  reflexivity.
Qed.

Lemma cleaned_fixed (s : str) : cleaned s = true -> normalizeJson s = s.
Proof.
  unfold cleaned. rewrite !andb_true_iff, !negb_true_iff.
  intros [[Htight H10] H11].
  rewrite (tight_fixed s Htight), (true_fixed s H10).
  apply (false_fixed s H11).
Qed.

Lemma tightBefore_includes (c sp : ascii) (s : str) :
  isSpace sp = true ->
  forall afterSpace : bool,
    tightBefore c afterSpace s = true -> includes [sp; c] s = false.
Proof.
  intros Hsp. induction s as [|x s IH]; intros p; [reflexivity|].
  cbn [tightBefore includes]. rewrite andb_true_iff. intros [_ Htail].
  rewrite (IH _ Htail), orb_false_r.
  cbn. destruct (ascii_eqb sp x) eqn:Ex; [|reflexivity].
  apply ascii_eqb_eq in Ex. subst x. rewrite Hsp in Htail.
  destruct s as [|y s]; [reflexivity|].
  cbn [tightBefore] in Htail.
  destruct (ascii_eqb c y) eqn:Ey; cbn in Htail |- *; rewrite ?Ey;
    [discriminate|reflexivity].
Qed.

Lemma tightAfter_includes (c sp : ascii) (s : str) :
  isSpace sp = true ->
  tightAfter c false true s = true -> includes [c; sp] s = false.
Proof.
  intros Hsp. induction s as [|x s IH]; [reflexivity|].
  cbn [tightAfter includes]. rewrite andb_true_iff, negb_true_iff.
  cbn [negb orb]. intros [Hhead Htail].
  rewrite (IH Htail), orb_false_r.
  cbn. rewrite (ascii_eqb_sym c x).
  destruct (ascii_eqb x c); [|reflexivity].
  destruct s as [|y s]; [reflexivity|].
  cbn in Hhead |- *.
  destruct (ascii_eqb sp y) eqn:Ey; [|reflexivity].
  apply ascii_eqb_eq in Ey. subst y. congruence.
Qed.

Lemma tightAfter_quoted (c sp : ascii) (post : str) :
  isSpace sp = true ->
  forall (before : str) (matching : bool),
    tightAfter c true matching (before ++ c :: sp :: post) = true ->
    match before with
    | [] => matching = false
    | _ :: _ => exists before', before = before' ++ [quoteChar]
    end.
Proof.
  intros Hsp. induction before as [|x before IH]; intros m.
  - cbn. rewrite ascii_eqb_refl, Hsp. destruct m; [discriminate|auto].
  - cbn [app tightAfter]. rewrite andb_true_iff. intros [_ Htail].
    apply IH in Htail. destruct before as [|y before].
    + exists []. cbn in Htail |- *. apply negb_false_iff in Htail.
      apply ascii_eqb_eq in Htail. congruence.
    + destruct Htail as [before' ->]. exists (x :: before'). reflexivity.
Qed.

Lemma singleSpaced_blank (s : str) :
  forall afterSpace : bool,
    singleSpaced afterSpace s = true ->
    Forall (fun c => isSpace c = true -> c = " "%char) s /\
    includes "  " s = false.
Proof.
  change (lit "  ") with [" "%char; " "%char].
  induction s as [|x s IH]; intros p; [cbn; auto|].
  cbn [singleSpaced includes]. destruct (isSpace x) eqn:Ex.
  - rewrite !andb_true_iff. intros [[Hx _] Hs].
    apply ascii_eqb_eq in Hx. subst x.
    destruct (IH _ Hs) as [Hall Hnone]. split; [constructor; auto|].
    rewrite Hnone, orb_false_r.
    destruct s as [|y s]; cbn [startsWith]; rewrite ascii_eqb_refl;
      [reflexivity|].
    destruct (ascii_eqb " " y) eqn:Ey; [|reflexivity].
    apply ascii_eqb_eq in Ey. subst y. discriminate.
  - intros Hs. destruct (IH _ Hs) as [Hall Hnone].
    split; [constructor; auto; congruence|].
    rewrite Hnone, orb_false_r. cbn [startsWith].
    destruct (ascii_eqb " " x) eqn:E; [|reflexivity].
    apply ascii_eqb_eq in E. subst x. discriminate.
Qed.

End Cleaning.

(** X1.  Cleaning a model answer twice gives what cleaning it once
    gives. *)
Theorem cleanJsonString_idempotent (s : str) :
  cleanJsonString (cleanJsonString s) = cleanJsonString s.
Proof.
  unfold cleanJsonString.
  rewrite (braced_fixed (normalizeJson (trimToBraces s))).
  - apply cleaned_fixed, normalizeJson_cleaned.
  - apply (squeezes_braced (trimToBraces s)).
    + apply normalizeJson_squeezes.
    + apply trimToBraces_braced.
Qed.

(** X2.  In a cleaned answer white space occurs only as single blanks; none
    stands before a colon, a comma or a closing bracket, nor after an
    opening one; a blank follows a colon or a comma only when a double
    quote precedes it; and no [: True] or [: False] is left. *)
Theorem cleanJsonString_tight (s : str) :
  let cleanText := cleanJsonString s in
  Forall (fun c => isSpace c = true -> c = " "%char) cleanText /\
  Forall (fun pattern => includes pattern cleanText = false)
    [lit "  "; lit " :"; lit " ,"; lit " }"; lit " ]"; lit "{ "; lit "[ ";
     lit ": True"; lit ": False"] /\
  forall before c rest,
    cleanText = before ++ c :: " "%char :: rest ->
    c = ":"%char \/ c = ","%char ->
    exists before', before = before' ++ [quoteChar].
Proof.
  cbv zeta. unfold cleanJsonString.
  pose proof (normalizeJson_cleaned (trimToBraces s)) as H.
  set (cleanText := normalizeJson (trimToBraces s)) in *.
  unfold cleaned, tight in H. rewrite !andb_true_iff, !negb_true_iff in H.
  destruct H as [[[[[[[[[[H1 H2] H3] H4] H5] H6] H7] H8] H9] H10] H11].
  destruct (singleSpaced_blank _ _ H1) as [Hblank Hdouble].
  split; [exact Hblank|]. split.
  - repeat constructor; try assumption.
    + apply (tightBefore_includes ":" " " _ eq_refl _ H3).
    + apply (tightBefore_includes "," " " _ eq_refl _ H5).
    + apply (tightBefore_includes "}" " " _ eq_refl _ H7).
    + apply (tightBefore_includes "]" " " _ eq_refl _ H9).
    + apply (tightAfter_includes "{" " " _ eq_refl H6).
    + apply (tightAfter_includes "[" " " _ eq_refl H8).
  - intros before c rest Hsplit [-> | ->]; rewrite Hsplit in *.
    + pose proof (tightAfter_quoted ":" " " rest eq_refl before true H2) as Hq.
      destruct before; [discriminate|exact Hq].
    + pose proof (tightAfter_quoted "," " " rest eq_refl before true H4) as Hq.
      destruct before; [discriminate|exact Hq].
Qed.

(** X3.  What stands before the first opening brace and after the last
    closing brace of an answer has no part in the result. *)
Theorem cleanJsonString_outside_braces (before inner rest : str) :
  forallb (fun x => negb (ascii_eqb "{" x)) before = true ->
  forallb (fun x => negb (ascii_eqb "}" x)) rest = true ->
  cleanJsonString (before ++ "{"%char :: inner ++ "}"%char :: rest)
  = cleanJsonString ("{"%char :: inner ++ ["}"%char]).
Proof.
  intros Hb Hr. unfold cleanJsonString.
  rewrite (trimToBraces_cut _ _ _ Hb Hr).
  rewrite (braced_fixed ("{"%char :: inner ++ ["}"%char])); [reflexivity|].
  left. exists inner. reflexivity.
Qed.

Lemma cleanJsonString_outside_braces_witness :
  cleanJsonString
    (lit "Here is the answer: " ++
     "{"%char :: lit " a : [ 1 , 2 ] " ++ "}"%char :: lit " Done.")
  = cleanJsonString ("{"%char :: lit " a : [ 1 , 2 ] " ++ ["}"%char]).
Proof.
  apply (cleanJsonString_outside_braces
           (lit "Here is the answer: ") (lit " a : [ 1 , 2 ] ")
           (lit " Done.")); reflexivity.
Defined.


(** ** Matchers *)

Section MatcherFacts.

Context {A : Type}.

Implicit Types (k : str -> str -> option A) (P : ascii -> bool).

Lemma mLit_app (p s : str) (k' : str -> option A) :
  mLit p k' (p ++ s) = k' s.
Proof. unfold mLit. rewrite startsWith_app, drop_app_length. reflexivity. Qed.

Lemma mLit_inv (p s : str) (k' : str -> option A) (r : A) :
  mLit p k' s = Some r -> exists rest, s = p ++ rest /\ k' rest = Some r.
Proof.
  unfold mLit. destruct (startsWith p s) eqn:E; [|discriminate].
  intros H. exists (drop (length p) s). split; [|exact H].
  apply startsWith_split, E.
Qed.

(** A greedy repetition that succeeds has matched some characters and
    handed the rest to its continuation. *)
Lemma mStarFrom_inv P k (s : str) :
  forall (acc : str) (r : A),
    mStarFrom P k acc s = Some r ->
    exists a b, s = a ++ b /\ forallb P a = true /\ k (acc ++ a) b = Some r.
Proof.
  induction s as [|x s IH]; intros acc r; cbn.
  - intros H. exists [], []. rewrite !app_nil_r. auto.
  - destruct (P x) eqn:Px.
    + destruct (mStarFrom P k (acc ++ [x]) s) as [r'|] eqn:E.
      * intros [= <-]. destruct (IH _ _ E) as (a & b & -> & Ha & Hk).
        exists (x :: a), b. cbn. rewrite Px, Ha.
        rewrite <- app_assoc in Hk. auto.
      * intros H. exists [], (x :: s). rewrite !app_nil_r. auto.
    + intros H. exists [], (x :: s). rewrite !app_nil_r. auto.
Qed.

(** It takes all the characters it can when the continuation accepts what
    follows them. *)
Lemma mStarFrom_greedy P k (a b : str) :
  forall (acc : str) (r : A),
    forallb P a = true -> headIs P b = false ->
    k (acc ++ a) b = Some r ->
    mStarFrom P k acc (a ++ b) = Some r.
Proof.
  induction a as [|x a IH]; intros acc r Ha Hb Hk.
  - rewrite app_nil_r in Hk. destruct b as [|y b]; [exact Hk|].
    cbn in Hb |- *. rewrite Hb. exact Hk.
  - cbn in Ha |- *. apply andb_true_iff in Ha as [-> Ha].
    rewrite (IH (acc ++ [x]) r Ha Hb); [reflexivity|].
    rewrite <- app_assoc. exact Hk.
Qed.

Lemma mLazyStarFrom_inv P k (s : str) :
  forall (acc : str) (r : A),
    mLazyStarFrom P k acc s = Some r ->
    exists a b, s = a ++ b /\ forallb P a = true /\ k (acc ++ a) b = Some r.
Proof.
  induction s as [|x s IH]; intros acc r; cbn.
  - destruct (k acc []) eqn:E; [|discriminate]. intros [= <-].
    exists [], []. rewrite !app_nil_r. auto.
  - destruct (k acc (x :: s)) eqn:E.
    + intros [= <-]. exists [], (x :: s). rewrite !app_nil_r. auto.
    + destruct (P x) eqn:Px; [|discriminate]. intros H.
      destruct (IH _ _ H) as (a & b & -> & Ha & Hk).
      exists (x :: a), b. cbn. rewrite Px, Ha.
      rewrite <- app_assoc in Hk. auto.
Qed.

(** A lazy repetition stops at the first place where the continuation
    accepts. *)
Lemma mLazyStarFrom_first P k (a b : str) :
  forall (acc : str) (r : A),
    forallb P a = true ->
    (forall a1 a2, a = a1 ++ a2 -> a2 <> [] ->
       k (acc ++ a1) (a2 ++ b) = None) ->
    k (acc ++ a) b = Some r ->
    mLazyStarFrom P k acc (a ++ b) = Some r.
Proof.
  induction a as [|x a IH]; intros acc r Ha Hnone Hk.
  - rewrite app_nil_r in Hk. destruct b; cbn; rewrite Hk; reflexivity.
  - cbn in Ha. apply andb_true_iff in Ha as [Px Ha].
    cbn [app mLazyStarFrom].
    pose proof (Hnone [] (x :: a) eq_refl ltac:(discriminate)) as H0.
    rewrite app_nil_r in H0. cbn [app] in H0. rewrite H0, Px.
    apply IH; [exact Ha| |rewrite <- app_assoc; exact Hk].
    intros a1 a2 -> Ha2. rewrite <- app_assoc.
    apply (Hnone (x :: a1) a2 eq_refl Ha2).
Qed.

End MatcherFacts.

(** ** Data URIs *)

(** What the expression of [invokeBedrockModelWithImage] accepts, and the
    parts it gives. *)
Lemma dataUri_accepts (imageContent mediaType data : str) :
  dataUri imageContent = Some (mediaType, data) <->
  imageContent = lit "data:" ++ mediaType ++ lit ";base64," ++ data /\
  mediaType <> [] /\ forallb notSemicolon mediaType = true /\
  data <> [] /\ forallb notLineTerminator data = true.
Proof.
  unfold dataUri. split.
  - intros H.
    apply mLit_inv in H as (s1 & -> & H).
    unfold mPlusC in H. destruct s1 as [|t0 s1]; [discriminate|].
    destruct (notSemicolon t0) eqn:Et; [|discriminate].
    apply mStarFrom_inv in H as (ty & s2 & -> & Hty & H).
    apply mLit_inv in H as (s3 & -> & H).
    destruct s3 as [|d0 s3]; [discriminate|].
    destruct (notLineTerminator d0) eqn:Ed; [|discriminate].
    apply mStarFrom_inv in H as (da & s4 & -> & Hda & H).
    destruct s4; [|discriminate]. cbn in H. injection H as <- <-.
    rewrite app_nil_r. cbn [app forallb]. rewrite Et, Ed, Hty, Hda.
    repeat split; discriminate.
  - intros (-> & Hm & Hty & Hd & Hda).
    destruct mediaType as [|t0 ty]; [congruence|].
    destruct data as [|d0 da]; [congruence|].
    cbn in Hty, Hda. apply andb_true_iff in Hty as [Et Hty].
    apply andb_true_iff in Hda as [Ed Hda].
    rewrite mLit_app. cbn [app mPlusC]. rewrite Et.
    apply mStarFrom_greedy; [exact Hty|reflexivity|].
    rewrite mLit_app. cbn [app mPlusC]. rewrite Ed.
    rewrite <- (app_nil_r da) at 1.
    apply mStarFrom_greedy; [exact Hda|reflexivity|]. reflexivity.
Qed.

(** X4.  For an image that the storage holds as a buffer, [getFileContent]
    returns the data URI made of its type and of its bytes in base 64;
    [invokeBedrockModelWithImage] takes that URI apart into the same type
    and data exactly when the type holds no semicolon and the encoded
    bytes are a text that is not empty and has no line terminator. *)
Theorem getFileContent_data_uri (env : Env) (L : Type)
    (userId fileId bytes fileType : str) (st : St L) :
  (forall history, storageFault env history = None) ->
  (forall history,
     originalContent env history = Ok (Buffer bytes, fileType)) ->
  startsWith "image/" fileType = true ->
  exists st',
    getFileContent env userId fileId st
    = (Some (Ok (lit "data:" ++ fileType ++ lit ";base64," ++
                 base64 env bytes, fileType)), st') /\
    (dataUri (lit "data:" ++ fileType ++ lit ";base64," ++ base64 env bytes)
     = Some (fileType, base64 env bytes) <->
     forallb notSemicolon fileType = true /\
     base64 env bytes <> [] /\
     forallb notLineTerminator (base64 env bytes) = true).
Proof.
  intros storage_ok content_read Himage.
  set (uri := lit "data:" ++ fileType ++ lit ";base64," ++ base64 env bytes).
  assert (wp (getFileContent env userId fileId)
            (fun out _ => out = Some (Ok (uri, fileType))) st) as Hwp.
  { unfold getFileContent, getWorkItem, getOriginalContent.
    wp_run_ok storage_ok; rewrite content_read in *; same_outcome.
    rewrite Himage. reflexivity. }
  destruct (getFileContent env userId fileId st) as [out st'] eqn:Hrun.
  apply (wp_exec _ _ _ _ _ Hwp) in Hrun. subst out.
  exists st'. split; [reflexivity|].
  unfold uri. rewrite dataUri_accepts. split.
  - intros (_ & _ & Htype & Hdata & Hline). auto.
  - intros (Htype & Hdata & Hline). repeat split; auto.
    destruct fileType; [discriminate Himage | discriminate].
Qed.

Lemma getFileContent_data_uri_witness :
  exists st',
    getFileContent
      (withContent (Buffer "iVBORw0KGgo=") "image/png"
         (exampleEnv (Ok []) [] [] []))
      "u" "f" (exampleStart tt)
    = (Some (Ok (lit "data:image/png;base64,iVBORw0KGgo=",
                 lit "image/png")), st') /\
    (dataUri (lit "data:image/png;base64,iVBORw0KGgo=")
     = Some (lit "image/png", lit "iVBORw0KGgo=") <->
     forallb notSemicolon (lit "image/png") = true /\
     lit "iVBORw0KGgo=" <> [] /\
     forallb notLineTerminator (lit "iVBORw0KGgo=") = true).
Proof.
  apply (getFileContent_data_uri
           (withContent (Buffer "iVBORw0KGgo=") "image/png"
              (exampleEnv (Ok []) [] [] []))
           unit "u" "f" "iVBORw0KGgo=" "image/png" (exampleStart tt)).
  - intros history. reflexivity.
  - intros history. reflexivity.
  - reflexivity.
Defined.

(** ** Document sections *)

(** Every text that a global match returns is matched at some place of
    the input. *)
Lemma matchAllFrom_pieces (m : str -> option str) (piece : str) (s : str) :
  forall skip : nat,
    In piece (matchAllFrom m skip s) ->
    exists before t rest,
      s = before ++ t /\
      m t = Some rest /\ piece = take (length t - length rest) t.
Proof.
  induction s as [|x s IH]; intros skip; cbn [matchAllFrom]; [intros []|].
  assert (forall k, In piece (matchAllFrom m k s) ->
          exists before t rest,
            x :: s = before ++ t /\
            m t = Some rest /\ piece = take (length t - length rest) t)
    as Hlater.
  { intros k Hk. destruct (IH _ Hk) as (before & t & rest & -> & Hm & Hp).
    exists (x :: before), t, rest. auto. }
  destruct skip as [|skip]; [|apply Hlater].
  destruct (m (x :: s)) as [rest|] eqn:E; [|apply Hlater].
  cbv zeta. intros [<-|H]; [|apply (Hlater _ H)].
  exists [], (x :: s), rest. auto.
Qed.

(** A greedy repetition whose continuation takes whatever follows reads
    the longest run there is. *)
Lemma mStarFrom_capture (P : ascii -> bool) (s : str) :
  forall acc : str,
    exists more tail,
      s = more ++ tail /\
      mStarFrom P (fun d _ => Some d) acc s = Some (acc ++ more) /\
      forallb P more = true /\ headIs P tail = false.
Proof.
  induction s as [|x s IH]; intros acc; cbn.
  - exists [], []. rewrite !app_nil_r. auto.
  - destruct (P x) eqn:Px.
    + destruct (IH (acc ++ [x])) as (more & tail & -> & -> & Hmore & Htail).
      exists (x :: more), tail. cbn. rewrite Px, Hmore, <- app_assoc. auto.
    + exists [], (x :: s). rewrite !app_nil_r. cbn. rewrite Px. auto.
Qed.

Lemma digit_not_space (c : ascii) : isDigit c = true -> isSpace c = false.
Proof. ascii_cases c; vm_compute; congruence. Qed.

(** The text matched as a section starts with a header that carries a
    number, which is the one read as its order. *)
Lemma sectionMatch_numbered (t rest : str) :
  sectionMatch t = Some rest ->
  exists blanks blanks' digits tail,
    take (length t - length rest) t
    = lit "#" ++ blanks ++ lit "Section" ++ blanks' ++ digits ++ tail /\
    forallb isSpace blanks = true /\ forallb isSpace blanks' = true /\
    digits <> [] /\ forallb isDigit digits = true /\
    headIs isDigit tail = false /\
    orderMatch (take (length t - length rest) t) = Some digits.
Proof.
  unfold sectionMatch, orderMatch, sectionHeader, mChar, mStar, mLazyStar.
  destruct t as [|c t]; [discriminate|].
  destruct (ascii_eqb c "#") eqn:Ec; [|discriminate].
  intros H.
  apply mStarFrom_inv in H as (sp & s1 & -> & Hsp & H).
  apply mLit_inv in H as (s2 & -> & H).
  apply mStarFrom_inv in H as (sp2 & s3 & -> & Hsp2 & H).
  unfold mPlusC in H. destruct s3 as [|d0 s3]; [discriminate|].
  destruct (isDigit d0) eqn:Ed; [|discriminate].
  apply mStarFrom_inv in H as (ds & s4 & -> & Hds & H).
  apply mLazyStarFrom_inv in H as (body & s5 & -> & _ & H).
  unfold mLook in H. destruct (sectionEnds s5); [|discriminate].
  injection H as <-.
  replace (take _ _)
    with (c :: sp ++ lit "Section" ++ sp2 ++ d0 :: ds ++ body).
  2:{ symmetry.
      replace (c :: sp ++ lit "Section" ++ sp2 ++ d0 :: ds ++ body ++ s5)
        with ((c :: sp ++ lit "Section" ++ sp2 ++ d0 :: ds ++ body) ++ s5).
      - apply take_app_length'. rewrite length_app. lia.
      - cbn. repeat (rewrite <- app_assoc; cbn [app]). reflexivity. }
  rewrite Ec. apply Ascii.eqb_eq in Ec. subst c.
  destruct (mStarFrom_capture isDigit (ds ++ body) [d0])
    as (more & tail & Hsplit & Hmore & Hall & Htail).
  exists sp, sp2, ([d0] ++ more), tail.
  split; [rewrite Hsplit; cbn;
          repeat (rewrite <- app_assoc; cbn [app]); reflexivity|].
  split; [exact Hsp|]. split; [exact Hsp2|]. split; [discriminate|].
  split; [cbn; rewrite Ed; exact Hall|]. split; [exact Htail|].
  apply mStarFrom_greedy; [exact Hsp|reflexivity|].
  rewrite mLit_app.
  apply mStarFrom_greedy; [exact Hsp2|cbn; apply digit_not_space, Ed|].
  cbn [mPlusC]. rewrite Ed. exact Hmore.
Qed.

(** X5.  Every section that [parseImplementationModelResponse] returns is
    read from a piece of the cleaned answer that starts with a numbered
    header, [#], [Section] and a run of digits with optional blanks
    between them, and its order is the number that those digits write:
    the default order is never used. *)
Theorem parseImplementationModelResponse_orders (content : str)
    (section : DocumentSection.t) :
  In section
    (ModelSectionResponse.sections (parseImplementationModelResponse content)) ->
  exists before piece after blanks blanks' digits tail,
    trim (replaceFirst endOfIacDocument [] content)
    = before ++ piece ++ after /\
    piece = lit "#" ++ blanks ++ lit "Section" ++ blanks' ++ digits ++ tail /\
    forallb isSpace blanks = true /\ forallb isSpace blanks' = true /\
    digits <> [] /\ forallb isDigit digits = true /\
    headIs isDigit tail = false /\
    section = toDocumentSection piece /\
    DocumentSection.order section = parseInt digits.
Proof.
  unfold parseImplementationModelResponse. cbn.
  rewrite in_map_iff. intros (piece & <- & Hpiece).
  apply matchAllFrom_pieces in Hpiece as (before & t & rest & Hs & Hmatch & ->).
  destruct (sectionMatch_numbered _ _ Hmatch)
    as (blanks & blanks' & digits & tail & Hpiece & Hb & Hb' & Hne & Hall &
        Htail & Horder).
  exists before, (take (length t - length rest) t),
    (drop (length t - length rest) t), blanks, blanks', digits, tail.
  split; [rewrite take_drop; exact Hs|].
  repeat (split; [assumption|]). split; [reflexivity|].
  unfold toDocumentSection. cbn. rewrite Horder. reflexivity.
Qed.

Lemma parseImplementationModelResponse_orders_witness :
  exists before piece after blanks blanks' digits tail,
    trim (replaceFirst endOfIacDocument []
            (lit "# Section 12 - Resources" ++ newline ++
             lit "Resources: {}" ++ newline ++ endOfIacDocument))
    = before ++ piece ++ after /\
    piece = lit "#" ++ blanks ++ lit "Section" ++ blanks' ++ digits ++ tail /\
    forallb isSpace blanks = true /\ forallb isSpace blanks' = true /\
    digits <> [] /\ forallb isDigit digits = true /\
    headIs isDigit tail = false /\
    DocumentSection.mk "Resources: {}" (Finite 12) "Resources"
    = toDocumentSection piece /\
    DocumentSection.order
      (DocumentSection.mk "Resources: {}" (Finite 12) "Resources")
    = parseInt digits.
Proof.
  apply (parseImplementationModelResponse_orders
           (lit "# Section 12 - Resources" ++ newline ++ lit "Resources: {}"
            ++ newline ++ endOfIacDocument)).
  vm_compute. left. reflexivity.
Defined.
(** ** The layout of a generated document *)

Section LayoutFacts.

Lemma dropWhile_head (P : ascii -> bool) (s : str) :
  headIs P s = false -> dropWhile P s = s.
Proof. destruct s as [|x s]; cbn; [auto|]. intros ->. reflexivity. Qed.

Lemma trim_plain (s : str) :
  headIs isSpace s = false -> headIs isSpace (rev s) = false -> trim s = s.
Proof.
  intros Hs Hr. unfold trim, trimEnd, trimStart.
  rewrite (dropWhile_head _ _ Hs), (dropWhile_head _ _ Hr).
  apply rev_involutive.
Qed.

Lemma trim_newline (s : str) :
  headIs isSpace s = false -> headIs isSpace (rev s) = false ->
  s <> [] -> trim (s ++ newline) = s.
Proof.
  intros Hs Hr Hne. unfold trim, trimEnd, trimStart.
  rewrite (dropWhile_head isSpace (s ++ newline))
    by (destruct s; [congruence|exact Hs]).
  rewrite rev_app_distr. cbn [rev newline app dropWhile].
  replace (isSpace "010") with true by reflexivity.
  rewrite (dropWhile_head _ _ Hr). apply rev_involutive.
Qed.

(** [\s*$] holds where nothing but white space is left. *)
Lemma blankEnd {A : Type} (k : str -> option A) (s : str) :
  forall acc : str,
    mStarFrom isSpace (fun _ => mEnd k) acc s
    = if forallb isSpace s then k [] else None.
Proof.
  induction s as [|x s IH]; intros acc; cbn; [reflexivity|].
  destruct (isSpace x); cbn; [|reflexivity].
  rewrite IH. destruct (forallb isSpace s); [|reflexivity].
  destruct (k []); reflexivity.
Qed.

Lemma sectionEnds_false (x : ascii) (s : str) :
  ascii_eqb x "#" = false -> forallb isSpace (x :: s) = false ->
  sectionEnds (x :: s) = false.
Proof.
  intros Hx Hs. unfold sectionEnds, matches, mChar, mStar.
  rewrite Hx, blankEnd, Hs. reflexivity.
Qed.

Lemma sectionEnds_header (s : str) : sectionEnds (lit "# Section " ++ s) = true.
Proof. reflexivity. Qed.

Lemma sectionEnds_nil : sectionEnds [] = true.
Proof. reflexivity. Qed.

(** The header expression on a header as laid out. *)
Lemma sectionHeader_laid {A : Type} (k : str -> str -> option A)
    (digits rest : str) (r : A) :
  truthy digits = true -> forallb isDigit digits = true ->
  headIs isDigit rest = false ->
  k digits rest = Some r ->
  sectionHeader k (lit "# Section " ++ digits ++ rest) = Some r.
Proof.
  intros Hne Hdigits Hrest Hk.
  destruct digits as [|d0 ds]; [discriminate|].
  cbn in Hdigits. apply andb_true_iff in Hdigits as [Hd0 Hds].
  change (lit "# Section " ++ (d0 :: ds) ++ rest)
    with ("#"%char ::
          ([" "%char] ++ (lit "Section" ++ ([" "%char] ++ d0 :: (ds ++ rest))))).
  unfold sectionHeader, mChar, mStar.
  replace (ascii_eqb "#" "#") with true by reflexivity.
  apply (mStarFrom_greedy isSpace _ [" "%char] _ []); [reflexivity..|].
  cbv beta. rewrite mLit_app.
  apply (mStarFrom_greedy isSpace _ [" "%char] _ []);
    [reflexivity|cbn; apply digit_not_space, Hd0|].
  cbn [app mPlusC]. rewrite Hd0.
  apply mStarFrom_greedy; assumption.
Qed.

Lemma forallb_split (P : ascii -> bool) (a a1 a2 : str) :
  forallb P a = true -> a = a1 ++ a2 -> a2 <> [] -> headIs P a2 = true.
Proof.
  intros Ha -> Hne. rewrite forallb_app in Ha.
  apply andb_true_iff in Ha as [_ Ha].
  destruct a2 as [|x a2]; [congruence|]. cbn in Ha |- *.
  apply andb_true_iff in Ha as [Hx _]. exact Hx.
Qed.

Lemma not_newline (x : ascii) :
  notLineTerminator x = true -> ascii_eqb x "010" = false.
Proof. ascii_cases x; vm_compute; congruence. Qed.

(** A lazy run of characters up to the end of the line. *)
Lemma lazy_to_newline {A : Type} (k : str -> str -> option A)
    (line rest acc : str) (r : A) :
  forallb notLineTerminator line = true ->
  k (acc ++ line) rest = Some r ->
  mLazyStarFrom notLineTerminator (fun text => mChar "010" (k text)) acc
    (line ++ newline ++ rest) = Some r.
Proof.
  intros Hline Hk. apply mLazyStarFrom_first; [exact Hline| |].
  - intros a1 a2 Ha Hne.
    pose proof (forallb_split _ _ _ _ Hline Ha Hne) as Hhead.
    destruct a2 as [|x a2]; [congruence|]. cbn in Hhead |- *.
    rewrite (not_newline _ Hhead). reflexivity.
  - cbn. exact Hk.
Qed.

Lemma plainText_facts (s : str) :
  plainText s = true ->
  forallb (fun c => negb (ascii_eqb c "#")) s = true /\
  forallb (fun c => negb (ascii_eqb c "<")) s = true /\
  headIs isSpace s = false /\ headIs isSpace (rev s) = false /\ s <> [].
Proof.
  unfold plainText. rewrite !andb_true_iff, !negb_true_iff.
  intros [[[Hall Hhead] Hlast] Hne]. repeat split; try assumption.
  - rewrite forallb_forall in Hall |- *. intros x Hx.
    apply Hall in Hx. apply andb_true_iff in Hx. tauto.
  - rewrite forallb_forall in Hall |- *. intros x Hx.
    apply Hall in Hx. apply andb_true_iff in Hx. tauto.
  - intros ->. discriminate.
Qed.

Lemma truncatedFlag_absent (s : str) :
  forallb (fun c => negb (ascii_eqb c "<")) s = true ->
  replaceFirstMatch truncatedFlag [] s = s.
Proof.
  induction s as [|x s IH]; [reflexivity|].
  cbn [forallb]. rewrite andb_true_iff, negb_true_iff. intros [Hx Hs].
  cbn [replaceFirstMatch].
  replace (truncatedFlag (x :: s)) with (@None str).
  - rewrite (IH Hs). reflexivity.
  - unfold truncatedFlag, mLit. cbn [lit list_ascii_of_string startsWith].
    rewrite (ascii_eqb_sym "<" x), Hx. reflexivity.
Qed.

Lemma headIs_app (P : ascii -> bool) (s t : str) :
  s <> [] -> headIs P (s ++ t) = headIs P s.
Proof. destruct s; [congruence|reflexivity]. Qed.

(** The text of a section as it is cut out of the document: with the line
    break that ends its body, or without it at the end of the text. *)
Lemma toDocumentSection_laid (section : Layout.t) (tail : str) :
  wellLaid section = true ->
  tail = newline \/ tail = [] ->
  toDocumentSection
    (headerText section ++ newline ++ Layout.body section ++ tail)
  = sectionOf section.
Proof.
  destruct section as [digits description body].
  unfold wellLaid, headerText, sectionOf. cbn [Layout.digits Layout.description Layout.body].
  rewrite !andb_true_iff.
  intros [[[[Hne Hdigits] Hdesc] Hline] Hbody] Htail.
  apply plainText_facts in Hdesc as (_ & _ & Hd1 & Hd2 & Hd3).
  apply plainText_facts in Hbody as (_ & Hb0 & Hb1 & Hb2 & Hb3).
  set (rest := body ++ tail).
  assert (lit "# Section " ++ digits ++ lit " - " ++ description
          ++ newline ++ rest
          = (lit "# Section " ++ digits ++ lit " - " ++ description)
            ++ newline ++ rest) as <-.
  { repeat (rewrite <- app_assoc; cbn [app]). reflexivity. }
  unfold toDocumentSection. f_equal.
  - replace (headerLine _) with (Some rest).
    + rewrite truncatedFlag_absent.
      * unfold rest. destruct Htail as [-> | ->].
        -- apply trim_newline; assumption.
        -- rewrite app_nil_r. apply trim_plain; assumption.
      * unfold rest. rewrite forallb_app, Hb0.
        destruct Htail as [-> | ->]; reflexivity.
    + symmetry. unfold headerLine.
      apply sectionHeader_laid; [assumption..|reflexivity|].
      unfold mLazyStar.
      apply (lazy_to_newline (fun _ s => Some s) (lit " - " ++ description)
               rest []); [|reflexivity].
      rewrite forallb_app, Hline. reflexivity.
  - replace (orderMatch _) with (Some digits); [reflexivity|].
    symmetry. unfold orderMatch.
    apply sectionHeader_laid; [assumption..|reflexivity|reflexivity].
  - replace (descriptionMatch _) with (Some description).
    + apply trim_plain; assumption.
    + symmetry. unfold descriptionMatch.
      apply sectionHeader_laid; [assumption..|reflexivity|].
      change (lit " - " ++ description ++ newline ++ rest)
        with ([" "%char] ++ "-"%char :: [" "%char] ++ description ++ newline ++ rest).
      unfold mStar.
      apply (mStarFrom_greedy isSpace _ [" "%char] _ []); [reflexivity..|].
      cbv beta. cbn [mChar]. unfold mChar at 1.
      replace (ascii_eqb "-" "-") with true by reflexivity.
      apply (mStarFrom_greedy isSpace _ [" "%char] _ []);
        [reflexivity|rewrite headIs_app; assumption|].
      cbv beta. destruct description as [|c0 description]; [congruence|].
      cbn in Hline. apply andb_true_iff in Hline as [Hc0 Hline].
      cbn [app mLazyPlusC]. rewrite Hc0.
      apply (lazy_to_newline (fun text _ => Some text)); [exact Hline|].
      reflexivity.
Qed.

Lemma forallb_anyChar (s : str) : forallb anyChar s = true.
Proof. induction s; auto. Qed.

Lemma last_not_space (a1 a2 : str) :
  a2 <> [] -> headIs isSpace (rev (a1 ++ a2)) = false ->
  forallb isSpace a2 = false.
Proof.
  intros Hne. rewrite rev_app_distr.
  destruct (rev a2) as [|x t] eqn:E.
  - apply (f_equal (@rev _)) in E. rewrite rev_involutive in E. cbn in E.
    congruence.
  - cbn. intros Hx.
    apply (f_equal (@rev _)) in E. rewrite rev_involutive in E. subst a2.
    cbn. rewrite forallb_app. cbn. rewrite Hx, andb_false_r. reflexivity.
Qed.

Lemma wellLaid_no_hash (section : Layout.t) (tail : str) :
  wellLaid section = true -> tail = newline \/ tail = [] ->
  forallb (fun c => negb (ascii_eqb c "#"))
    (lit " - " ++ Layout.description section ++ newline ++
     Layout.body section ++ tail) = true.
Proof.
  unfold wellLaid. rewrite !andb_true_iff.
  intros [[[[_ _] Hdesc] _] Hbody] Htail.
  apply plainText_facts in Hdesc as (Hd & _).
  apply plainText_facts in Hbody as (Hb & _).
  rewrite !forallb_app, Hd, Hb. destruct Htail as [-> | ->]; reflexivity.
Qed.

(** Where a section as laid out starts, the section expression matches it
    up to the next header or to the end of the text. *)
Lemma sectionMatch_laid (section : Layout.t) (tail rest : str) :
  wellLaid section = true ->
  (tail = newline /\ exists rest', rest = lit "# Section " ++ rest') \/
  (tail = [] /\ rest = []) ->
  sectionMatch
    ((headerText section ++ newline ++ Layout.body section ++ tail) ++ rest)
  = Some rest.
Proof.
  intros Hwell Hcase.
  assert (tail = newline \/ tail = []) as Htail by tauto.
  pose proof (wellLaid_no_hash section tail Hwell Htail) as Hhash.
  set (a := lit " - " ++ Layout.description section ++ newline ++
            Layout.body section ++ tail) in *.
  assert ((headerText section ++ newline ++ Layout.body section ++ tail)
          ++ rest
          = lit "# Section " ++ Layout.digits section ++ a ++ rest) as ->.
  { unfold a, headerText. repeat (rewrite <- app_assoc; cbn [app]).
    reflexivity. }
  unfold wellLaid in Hwell. rewrite !andb_true_iff in Hwell.
  destruct Hwell as [[[[Hne Hdigits] _] _] Hbody].
  apply plainText_facts in Hbody as (_ & _ & _ & Hlast & Hbne).
  unfold sectionMatch.
  apply sectionHeader_laid; [assumption|assumption|reflexivity|].
  unfold mLazyStar.
  apply mLazyStarFrom_first; [apply forallb_anyChar| |].
  - intros a1 a2 Ha Ha2. unfold mLook.
    pose proof (forallb_split _ _ _ _ Hhash Ha Ha2) as Hhead.
    destruct a2 as [|x a2]; [congruence|]. cbn in Hhead.
    apply negb_true_iff in Hhead. cbn [app].
    rewrite sectionEnds_false; [reflexivity|exact Hhead|].
    change (x :: a2 ++ rest) with ((x :: a2) ++ rest).
    rewrite forallb_app.
    destruct Hcase as [[_ [rest' ->]] | [-> ->]].
    + cbn [lit list_ascii_of_string app forallb].
      replace (isSpace "#") with false by reflexivity.
      apply andb_false_r.
    + rewrite andb_true_r. apply (last_not_space a1); [discriminate|].
      rewrite <- Ha. unfold a. rewrite app_nil_r, !app_assoc, rev_app_distr.
      rewrite headIs_app; [exact Hlast|].
      intros E. apply (f_equal (@rev _)) in E.
      rewrite rev_involutive in E. cbn in E. congruence.
  - unfold mLook. destruct Hcase as [[_ [rest' ->]] | [_ ->]];
      [rewrite sectionEnds_header|rewrite sectionEnds_nil]; reflexivity.
Qed.

Lemma matchAllFrom_skip (m : str -> option str) (s : str) :
  forall skip : nat, matchAllFrom m skip s = matchAll m (drop skip s).
Proof.
  induction s as [|x s IH]; intros [|skip]; try reflexivity.
  cbn [matchAllFrom drop]. apply IH.
Qed.

Lemma matchAll_cons (m : str -> option str) (piece rest : str) :
  piece <> [] -> m (piece ++ rest) = Some rest ->
  matchAll m (piece ++ rest) = piece :: matchAll m rest.
Proof.
  intros Hne Hm. destruct piece as [|x piece]; [congruence|].
  unfold matchAll at 1. cbn [matchAllFrom app].
  cbn [app] in Hm. rewrite Hm. cbv zeta.
  replace (length (x :: piece ++ rest) - length rest)%nat
    with (S (length piece)) by (cbn; rewrite length_app; lia).
  cbn [take]. rewrite take_app_length, matchAllFrom_skip.
  replace (S (length piece) - 1)%nat with (length piece) by lia.
  rewrite drop_app_length. reflexivity.
Qed.

(** The sections found in a document as laid out, its last line break
    taken off. *)
Lemma laid_out_pieces (sections : list Layout.t) :
  forallb wellLaid sections = true -> sections <> [] ->
  exists text rest',
    documentText sections = text ++ newline /\
    text = lit "# Section " ++ rest' /\
    headIs isSpace (rev text) = false /\
    map toDocumentSection (matchAll sectionMatch text)
    = map sectionOf sections.
Proof.
  induction sections as [|section sections IH]; [congruence|].
  cbn [forallb]. rewrite andb_true_iff. intros [Hwell Hall] _.
  assert (headIs isSpace (rev (Layout.body section)) = false /\
          Layout.body section <> []) as [Hlast Hbne].
  { unfold wellLaid in Hwell. rewrite !andb_true_iff in Hwell.
    destruct Hwell as [_ Hbody].
    apply plainText_facts in Hbody. tauto. }
  destruct sections as [|next sections].
  - exists (headerText section ++ newline ++ Layout.body section).
    eexists. split; [|split; [|split]].
    + unfold documentText, sectionText. cbn [map concat].
      rewrite app_nil_r. repeat (rewrite <- app_assoc; cbn [app]).
      reflexivity.
    + unfold headerText. repeat (rewrite <- app_assoc; cbn [app]).
      reflexivity.
    + rewrite !app_assoc, rev_app_distr. rewrite headIs_app; [exact Hlast|].
      intros E. apply (f_equal (@rev _)) in E.
      rewrite rev_involutive in E. cbn in E. congruence.
    + pose proof (sectionMatch_laid section [] [] Hwell
                    (or_intror (conj eq_refl eq_refl))) as Hm.
      rewrite !app_nil_r in Hm.
      rewrite <- (app_nil_r (headerText section ++ _)).
      rewrite matchAll_cons; [|destruct (headerText section); discriminate
                              |rewrite app_nil_r; exact Hm].
      cbn [map matchAll matchAllFrom]. f_equal.
      pose proof (toDocumentSection_laid section [] Hwell (or_intror eq_refl))
        as Hsec.
      rewrite app_nil_r in Hsec. exact Hsec.
  - destruct (IH Hall ltac:(discriminate))
      as (text & rest' & Htext & Hhead & Hlast' & Hmap).
    exists (sectionText section ++ text).
    eexists. split; [|split; [|split]].
    + change (documentText (section :: next :: sections))
        with (sectionText section ++ documentText (next :: sections)).
      rewrite Htext, app_assoc. reflexivity.
    + unfold sectionText, headerText.
      repeat (rewrite <- app_assoc; cbn [app]). reflexivity.
    + rewrite rev_app_distr. rewrite headIs_app; [exact Hlast'|].
      rewrite Hhead. intros E. apply (f_equal (@rev _)) in E.
      rewrite rev_involutive in E. discriminate.
    + pose proof (sectionMatch_laid section newline text Hwell
                    (or_introl (conj eq_refl (ex_intro _ rest' Hhead))))
        as Hm.
      unfold sectionText.
      rewrite matchAll_cons; [|destruct (headerText section); discriminate
                              |exact Hm].
      cbn [map]. rewrite Hmap. f_equal.
      apply (toDocumentSection_laid section newline Hwell). auto.
Qed.

Lemma replaceFirst_absent (p' r s : str) :
  forallb (fun c => negb (ascii_eqb c "<")) s = true ->
  replaceFirst ("<"%char :: p') r s = s /\
  includes ("<"%char :: p') s = false.
Proof.
  induction s as [|x s IH]; [auto|].
  cbn [forallb]. rewrite andb_true_iff, negb_true_iff. intros [Hx Hs].
  destruct (IH Hs) as [IH1 IH2].
  cbn [replaceFirst includes startsWith].
  rewrite (ascii_eqb_sym "<" x), Hx, IH1, IH2. auto.
Qed.

Lemma replaceFirst_end (p' s : str) :
  forallb (fun c => negb (ascii_eqb c "<")) s = true ->
  replaceFirst ("<"%char :: p') [] (s ++ "<"%char :: p') = s.
Proof.
  induction s as [|x s IH].
  - intros _. cbn [app].
    pose proof (startsWith_app ("<"%char :: p') []) as Hself.
    rewrite app_nil_r in Hself.
    unfold replaceFirst. rewrite Hself. cbn [app]. apply drop_all.
  - cbn [forallb]. rewrite andb_true_iff, negb_true_iff. intros [Hx Hs].
    cbn [app replaceFirst startsWith].
    rewrite (ascii_eqb_sym "<" x), Hx, (IH Hs). reflexivity.
Qed.

Lemma digit_not_angle (c : ascii) :
  isDigit c = true -> negb (ascii_eqb c "<") = true.
Proof. ascii_cases c; vm_compute; congruence. Qed.

Lemma documentText_no_angle (sections : list Layout.t) :
  forallb wellLaid sections = true ->
  forallb (fun c => negb (ascii_eqb c "<")) (documentText sections) = true.
Proof.
  induction sections as [|section sections IH]; [reflexivity|].
  cbn [forallb]. rewrite andb_true_iff. intros [Hwell Hall].
  change (documentText (section :: sections))
    with (sectionText section ++ documentText sections).
  rewrite forallb_app, (IH Hall), andb_true_r.
  unfold wellLaid in Hwell. rewrite !andb_true_iff in Hwell.
  destruct Hwell as [[[[_ Hdigits] Hdesc] _] Hbody].
  apply plainText_facts in Hdesc as (_ & Hd & _).
  apply plainText_facts in Hbody as (_ & Hb & _).
  unfold sectionText, headerText. rewrite !forallb_app, Hd, Hb.
  replace (forallb _ (Layout.digits section)) with true; [reflexivity|].
  symmetry. rewrite forallb_forall in Hdigits |- *.
  intros x Hx. apply digit_not_angle, Hdigits, Hx.
Qed.

(** A document laid out as the prompt asks is read back as its sections,
    with or without the end marker. *)
Lemma laid_out_parsed (sections : list Layout.t) :
  forallb wellLaid sections = true ->
  parseImplementationModelResponse (documentText sections ++ endOfIacDocument)
  = {| ModelSectionResponse.isComplete := true;
       ModelSectionResponse.sections := map sectionOf sections |} /\
  parseImplementationModelResponse (documentText sections)
  = {| ModelSectionResponse.isComplete := false;
       ModelSectionResponse.sections := map sectionOf sections |}.
Proof.
  intros Hall. pose proof (documentText_no_angle _ Hall) as Hangle.
  unfold parseImplementationModelResponse. cbv zeta.
  change endOfIacDocument
    with ("<"%char :: lit "end_of_iac_document_generation>").
  rewrite (replaceFirst_end _ _ Hangle).
  destruct (replaceFirst_absent (lit "end_of_iac_document_generation>") []
              _ Hangle) as [-> ->].
  replace (includes _ (documentText sections ++ _)) with true.
  2:{ symmetry.
      apply (includes_app ("<"%char :: lit "end_of_iac_document_generation>")
               (documentText sections) []). }
  destruct sections as [|section sections]; [split; reflexivity|].
  destruct (laid_out_pieces _ Hall ltac:(discriminate))
    as (text & rest' & -> & Hhead & Hlast & Hmap).
  rewrite trim_newline, Hmap; [split; reflexivity|..].
  - rewrite Hhead. reflexivity.
  - exact Hlast.
  - rewrite Hhead. discriminate.
Qed.


End LayoutFacts.

(** X6.  A document laid out as the generation prompt asks, each section
    under its header line [# Section <number> - <description>], is read
    back as exactly those sections, with their numbers, descriptions and
    bodies; it is complete when the end marker follows it and incomplete
    without it. *)
Theorem parseImplementationModelResponse_laid_out
    (sections : list Layout.t) :
  forallb wellLaid sections = true ->
  parseImplementationModelResponse (documentText sections ++ endOfIacDocument)
  = {| ModelSectionResponse.isComplete := true;
       ModelSectionResponse.sections := map sectionOf sections |} /\
  parseImplementationModelResponse (documentText sections)
  = {| ModelSectionResponse.isComplete := false;
       ModelSectionResponse.sections := map sectionOf sections |}.
Proof. exact (laid_out_parsed sections). Qed.

Lemma parseImplementationModelResponse_laid_out_witness :
  let sections :=
    [Layout.mk "1" "Resources" "Resources: {}";
     Layout.mk "2" "Outputs" "Outputs: {}"] in
  parseImplementationModelResponse (documentText sections ++ endOfIacDocument)
  = {| ModelSectionResponse.isComplete := true;
       ModelSectionResponse.sections := map sectionOf sections |} /\
  parseImplementationModelResponse (documentText sections)
  = {| ModelSectionResponse.isComplete := false;
       ModelSectionResponse.sections := map sectionOf sections |}.
Proof.
  apply (parseImplementationModelResponse_laid_out
           [Layout.mk "1" "Resources" "Resources: {}";
            Layout.mk "2" "Outputs" "Outputs: {}"]).
  reflexivity.
Defined.



(** ** Unfinished details *)

Section Splitting.

Context (p : str).

Hypothesis p_not_empty : p <> [].

Lemma includes_nil : includes p [] = false.
Proof. destruct p; [congruence|reflexivity]. Qed.

(** The pieces cut before the occurrences of [p], once a piece has been
    begun. *)
Lemma splitBeforeFrom_begun (s : str) :
  forall cur : str,
    cur <> [] ->
    exists pieces final,
      splitBeforeFrom p cur s = pieces ++ [final] /\
      concat pieces ++ final = rev cur ++ s /\
      ((pieces = [] /\ includes p s = false) \/
       (pieces <> [] /\ startsWith p final = true /\
        includes p (drop 1 final) = false)).
Proof.
  induction s as [|c s IH]; intros cur Hcur.
  - exists [], (rev cur). cbn. rewrite app_nil_r. 
    split; [reflexivity|]. split; [reflexivity|].
    left. split; [reflexivity|apply includes_nil].
  - cbn [splitBeforeFrom].
    destruct (startsWith p (c :: s)) eqn:Estart.
    + replace (truthy cur) with true by (destruct cur; [congruence|reflexivity]).
      cbn [andb].
      destruct (IH [c] ltac:(discriminate))
        as (pieces & final & -> & Hcat & Hcase).
      exists (rev cur :: pieces), final. cbn [app concat].
      split; [reflexivity|]. split.
      * rewrite <- app_assoc, Hcat. reflexivity.
      * right. split; [discriminate|].
        destruct Hcase as [[-> Hnone] | (_ & Hs & Hl)]; [|auto].
        cbn in Hcat. subst final. auto.
    + cbn [andb].
      destruct (IH (c :: cur) ltac:(discriminate))
        as (pieces & final & -> & Hcat & Hcase).
      exists pieces, final. split; [reflexivity|]. split.
      * rewrite Hcat. cbn [rev]. rewrite <- app_assoc. reflexivity.
      * destruct Hcase as [[-> Hnone] | Hcase]; [left|right; exact Hcase].
        split; [reflexivity|]. cbn [includes]. rewrite Estart, Hnone.
        reflexivity.
Qed.

Lemma splitBefore_pieces (s : str) :
  exists pieces final,
    splitBefore p s = pieces ++ [final] /\
    concat pieces ++ final = s /\
    includes p (drop 1 final) = false /\
    (pieces = [] \/ startsWith p final = true).
Proof.
  unfold splitBefore. destruct s as [|c s].
  - exists [], []. cbn. repeat split; auto. apply includes_nil.
  - cbn [splitBeforeFrom truthy]. rewrite andb_false_r.
    destruct (splitBeforeFrom_begun s [c] ltac:(discriminate))
      as (pieces & final & -> & Hcat & Hcase).
    exists pieces, final. split; [reflexivity|]. split; [exact Hcat|].
    destruct Hcase as [[-> Hnone] | (_ & Hs & Hl)]; [|auto].
    cbn in Hcat. subst final. auto.
Qed.

Lemma includes_later (before final : str) :
  before <> [] -> startsWith p final = true ->
  includes p (drop 1 (before ++ final)) = true.
Proof.
  intros Hne Hs. destruct before as [|x before]; [congruence|].
  cbn [app drop]. clear Hne. induction before as [|y before IH].
  - apply includes_starts, Hs.
  - apply includes_cons, IH.
Qed.

End Splitting.

(** X7.  Of an unfinished answer that holds a heading, [parseDetailsModelResponse]
    keeps the text up to the last [# ] that does not start it and drops the
    rest; an answer with no such later heading is dropped whole. *)
Theorem parseDetailsModelResponse_unfinished (content : str) :
  let cleanContent :=
    trim (replaceFirst "<details_truncated>" []
            (replaceFirst endOfDetails [] content)) in
  includes endOfDetails content = false ->
  includes "#" cleanContent = true ->
  exists dropped,
    parseDetailsModelResponse content
    = (fst (parseDetailsModelResponse content), false) /\
    cleanContent = fst (parseDetailsModelResponse content) ++ dropped /\
    includes "# " (drop 1 dropped) = false /\
    (fst (parseDetailsModelResponse content) = [] \/
     startsWith "# " dropped = true) /\
    (includes "# " (drop 1 cleanContent) = false ->
     fst (parseDetailsModelResponse content) = []).
Proof.
  cbv zeta. intros Hopen Hhash. unfold parseDetailsModelResponse.
  rewrite Hopen. cbv zeta. cbn [negb andb]. rewrite Hhash. cbn [fst].
  destruct (splitBefore_pieces "# " ltac:(discriminate)
              (trim (replaceFirst "<details_truncated>" []
                       (replaceFirst endOfDetails [] content))))
    as (pieces & final & Hsplit & Hcat & Hlater & Hcase).
  rewrite Hsplit, removelast_last. exists final.
  split; [reflexivity|]. split; [symmetry; exact Hcat|].
  split; [exact Hlater|]. split.
  - destruct Hcase as [-> | Hs]; auto.
  - rewrite <- Hcat. intros Hnone.
    destruct Hcase as [-> | Hs]; [reflexivity|].
    destruct (concat pieces) as [|x before] eqn:E; [reflexivity|].
    rewrite (includes_later "# " (x :: before) final) in Hnone;
      [discriminate|discriminate|exact Hs].
Qed.

Lemma parseDetailsModelResponse_unfinished_witness :
  let content :=
    lit "# Security - Encrypt data" ++ newline ++ lit "Use keys." ++ newline
    ++ lit "# Risks" ++ newline ++ lit "Data may le<details_truncated>" in
  exists dropped,
    parseDetailsModelResponse content
    = (fst (parseDetailsModelResponse content), false) /\
    trim (replaceFirst "<details_truncated>" []
            (replaceFirst endOfDetails [] content))
    = fst (parseDetailsModelResponse content) ++ dropped /\
    includes "# " (drop 1 dropped) = false /\
    (fst (parseDetailsModelResponse content) = [] \/
     startsWith "# " dropped = true) /\
    (includes "# "
       (drop 1 (trim (replaceFirst "<details_truncated>" []
                        (replaceFirst endOfDetails [] content)))) = false ->
     fst (parseDetailsModelResponse content) = []).
Proof.
  apply (parseDetailsModelResponse_unfinished
           (lit "# Security - Encrypt data" ++ newline ++ lit "Use keys."
            ++ newline ++ lit "# Risks" ++ newline
            ++ lit "Data may le<details_truncated>")); reflexivity.
Defined.
(** ** The question groups of a pillar *)

Lemma addPractice_keys (m : OrderedMap GroupData.t)
    (bp : WellArchitectedBestPractice.t) :
  map fst (addPractice m bp)
  = if mapHas (WellArchitectedBestPractice.Question bp) m then map fst m
    else map fst m ++ [WellArchitectedBestPractice.Question bp].
Proof.
  unfold addPractice. cbv zeta.
  destruct (mapHas _ m) eqn:Hhas; cbn [negb]; rewrite keys_update;
    [reflexivity|].
  apply keys_set_fresh, mapHas_get, Hhas.
Qed.

Lemma mapHas_keys {V : Type} (key : str) (m : OrderedMap V) :
  mapHas key m = true <-> key ∈ map fst m.
Proof.
  destruct (mapHas key m) eqn:E.
  - split; [intros _|reflexivity].
    destruct (decide (key ∈ map fst m)) as [H|H]; [exact H|].
    apply mapGet_None_keys, mapHas_get in H. congruence.
  - apply mapHas_get, mapGet_None_keys in E. split; [discriminate|tauto].
Qed.

Lemma fold_addPractice_keys (l : list WellArchitectedBestPractice.t) :
  forall (m : OrderedMap GroupData.t) (q : str),
    q ∈ map fst (fold_left addPractice l m) <->
    q ∈ map fst m \/
    exists bp, bp ∈ l /\ WellArchitectedBestPractice.Question bp = q.
Proof.
  induction l as [|bp l IH]; intros m q; cbn [fold_left].
  - split; [auto|]. intros [H|(bp & Hin & _)]; [exact H|].
    apply elem_of_nil in Hin. contradiction.
  - rewrite IH, addPractice_keys.
    destruct (mapHas _ m) eqn:Hhas.
    + apply mapHas_keys in Hhas. split.
      * intros [H|(bp' & Hin & Hq)]; [auto|].
        right. exists bp'. split; [apply elem_of_cons; auto|exact Hq].
      * intros [H|(bp' & Hin & Hq)]; [auto|].
        apply elem_of_cons in Hin as [-> | Hin]; [left; congruence|].
        right. exists bp'. auto.
    + rewrite elem_of_app, list_elem_of_singleton. split.
      * intros [[H| ->]|(bp' & Hin & Hq)]; [auto| |].
        -- right. exists bp. split; [apply elem_of_cons; auto|reflexivity].
        -- right. exists bp'. split; [apply elem_of_cons; auto|exact Hq].
      * intros [H|(bp' & Hin & Hq)]; [auto|].
        apply elem_of_cons in Hin as [-> | Hin]; [auto|].
        right. exists bp'. auto.
Qed.

(** X8.  With a cached taxonomy [retrieveBestPractices] never fails: it
    returns one group for every question that has an entry under the
    pillar, no question twice and no group without a practice; for a
    pillar without entries it returns no group. *)
Theorem retrieveBestPractices_groups (env : Env) (L : Type)
    (taxonomy : list WellArchitectedBestPractice.t)
    (pillarId workloadId : str)
    (stored : gmap (str * str) (option str * WorkItemFields.t))
    (history : list Event) (l : L) :
  let st :=
    mkSt {| items := stored;
            cachedBestPractices := Some taxonomy;
            trace := history |} l in
  exists groups,
    retrieveBestPractices env pillarId workloadId st = (Some (Ok groups), st)
    /\ NoDup (map QuestionGroup.title groups)
    /\ (forall q, q ∈ map QuestionGroup.title groups <->
                  entriesOf taxonomy pillarId q <> [])
    /\ Forall (fun group => QuestionGroup.bestPractices group <> []) groups
    /\ ((forall bp, bp ∈ taxonomy ->
           pillarSlug (WellArchitectedBestPractice.Pillar bp) <> pillarId) ->
        groups = []).
Proof.
  intros st.
  assert (exists groups,
            groupBestPractices taxonomy pillarId = Ok groups /\
            Forall (alignedWith taxonomy pillarId) groups /\
            NoDup (map QuestionGroup.title groups) /\
            (forall q, q ∈ map QuestionGroup.title groups <->
                       entriesOf taxonomy pillarId q <> []))
    as (groups & Hg & Haligned & Hnd & Hkeys).
  { unfold groupBestPractices.
    set (pbp := filter _ taxonomy).
    destruct (fold_addPractice_spec pbp [] (NoDup_nil_2)) as (Hnd & Hpr).
    pose proof (fold_addPractice_keys pbp []) as Hkeys.
    assert (forall q,
              (exists bp, bp ∈ pbp /\ WellArchitectedBestPractice.Question bp = q)
              <-> entriesOf taxonomy pillarId q <> []) as Hentries.
    { intros q. split.
      - unfold entriesOf, pbp. intros (bp & Hin & Hq) Hnil.
        apply list_elem_of_filter in Hin as [Hp Hin].
        assert (bp ∈ filter
                  (fun bp => WellArchitectedBestPractice.Question bp = q /\
                     pillarSlug (WellArchitectedBestPractice.Pillar bp)
                     = pillarId) taxonomy) as Hin'
          by (apply list_elem_of_filter; auto).
        rewrite Hnil in Hin'. apply elem_of_nil in Hin'. exact Hin'.
      - intros Hne.
        destruct (entriesOf taxonomy pillarId q) as [|bp rest] eqn:E;
          [congruence|].
        assert (bp ∈ bp :: rest) as Hin by apply list_elem_of_here.
        rewrite <- E in Hin. unfold entriesOf in Hin.
        apply list_elem_of_filter in Hin as [[Hq Hp] Hin].
        exists bp. split; [apply list_elem_of_filter; auto|exact Hq]. }
    destruct (groupBestPractices_aligned taxonomy pillarId)
      as (groups & Hg & Ha).
    unfold groupBestPractices in Hg. fold pbp in Hg.
    exists groups. split; [exact Hg|]. split; [exact Ha|].
    destruct (fold_left addPractice pbp []) as [|e m] eqn:Hfold.
    - injection Hg as <-. split; [constructor|].
      intros q. rewrite <- Hentries. cbn [map]. split.
      + intros H. apply elem_of_nil in H. contradiction.
      + intros H. apply (Hkeys q). right. exact H.
    - destruct pbp as [|first rest] eqn:Hpbp; [discriminate|].
      injection Hg as <-. cbn [map]. rewrite map_map.
      split; [exact Hnd|].
      intros q. rewrite <- Hentries. specialize (Hkeys q).
      cbn [map] in Hkeys. split.
      + intros H. apply Hkeys in H as [H|H]; [|exact H].
        apply elem_of_nil in H. contradiction.
      + intros H. apply Hkeys. right. exact H. }
  exists groups. split; [|split; [exact Hnd|split; [exact Hkeys|split]]].
  - unfold retrieveBestPractices, loadBestPractices, tryCatch, bind, getWorld,
      liftResult, ret.
    simpl. rewrite Hg. reflexivity.
  - rewrite Forall_forall in Haligned |- *. intros group Hin.
    destruct (Haligned group Hin) as (Hnames & _). rewrite Hnames.
    assert (QuestionGroup.title group ∈ map QuestionGroup.title groups) as Ht
      by (apply list_elem_of_In, in_map, list_elem_of_In, Hin).
    apply Hkeys in Ht.
    destruct (entriesOf taxonomy pillarId (QuestionGroup.title group));
      [congruence|discriminate].
  - intros Hnone. destruct groups as [|group groups]; [reflexivity|exfalso].
    assert (QuestionGroup.title group
              ∈ map QuestionGroup.title (group :: groups)) as Ht
      by apply list_elem_of_here.
    apply Hkeys in Ht. apply Ht.
    destruct (entriesOf taxonomy pillarId (QuestionGroup.title group))
      as [|bp rest] eqn:E; [reflexivity|].
    assert (bp ∈ bp :: rest) as Hin by apply list_elem_of_here.
    rewrite <- E in Hin. unfold entriesOf in Hin.
    apply list_elem_of_filter in Hin as [[_ Hp] Hin].
    destruct (Hnone bp Hin Hp).
Qed.
(** ** What a method may ask of its collaborators *)

Section Emits.

Context {L : Type} (allowed : Event -> bool).

Implicit Types (st : St L).

Lemma emitsOnly_same {A : Type} (m : M L A) :
  (forall st, world (snd (m st)) = world st) -> emitsOnly allowed m.
Proof.
  intros H st. exists []. rewrite H, app_nil_r. auto.
Qed.

Lemma emitsOnly_ret {A : Type} (a : A) : emitsOnly allowed (@ret L A a).
Proof. apply emitsOnly_same. reflexivity. Qed.

Lemma emitsOnly_throw {A : Type} (e : Exn) :
  emitsOnly allowed (@throw L A e).
Proof. apply emitsOnly_same. reflexivity. Qed.

Lemma emitsOnly_pending {A : Type} : emitsOnly allowed (@pending L A).
Proof. apply emitsOnly_same. reflexivity. Qed.

Lemma emitsOnly_liftResult {A : Type} (r : Result A) :
  emitsOnly allowed (@liftResult L A r).
Proof. apply emitsOnly_same. reflexivity. Qed.

Lemma emitsOnly_getLocals : emitsOnly allowed (@getLocals L).
Proof. apply emitsOnly_same. reflexivity. Qed.

Lemma emitsOnly_setLocals (l : L) : emitsOnly allowed (setLocals l).
Proof. apply emitsOnly_same. reflexivity. Qed.

Lemma emitsOnly_getWorld : emitsOnly allowed (@getWorld L).
Proof. apply emitsOnly_same. reflexivity. Qed.

Lemma emitsOnly_modifyWorld (f : World -> World) :
  (forall w, trace (f w) = trace w) -> emitsOnly allowed (@modifyWorld L f).
Proof.
  intros H st. exists []. cbn. rewrite H, app_nil_r. auto.
Qed.

Lemma emitsOnly_emit (ev : Event) :
  allowed ev = true -> emitsOnly allowed (@emit L ev).
Proof. intros H st. exists [ev]. cbn. rewrite H. auto. Qed.

Lemma emitsOnly_ask {A : Type} (oracle : list Event -> Result A)
    (ev : Result A -> Event) :
  (forall out, allowed (ev out) = true) -> emitsOnly allowed (@ask L A oracle ev).
Proof. intros H st. eexists [_]. cbn. rewrite H. auto. Qed.

Lemma emitsOnly_bind {A B : Type} (m : M L A) (k : A -> M L B) :
  emitsOnly allowed m -> (forall a, emitsOnly allowed (k a)) ->
  emitsOnly allowed (bind m k).
Proof.
  intros Hm Hk st. unfold bind.
  destruct (Hm st) as (new1 & Ht1 & Hp1).
  destruct (m st) as [[[a|e]|] st1]; cbn [snd] in *;
    [|exists new1; auto..].
  destruct (Hk a st1) as (new2 & Ht2 & Hp2).
  exists (new1 ++ new2). rewrite Ht2, Ht1, app_assoc, forallb_app, Hp1, Hp2.
  auto.
Qed.

Lemma emitsOnly_tryCatch {A : Type} (m : M L A) (handler : Exn -> M L A) :
  emitsOnly allowed m -> (forall e, emitsOnly allowed (handler e)) ->
  emitsOnly allowed (tryCatch m handler).
Proof.
  intros Hm Hh st. unfold tryCatch.
  destruct (Hm st) as (new1 & Ht1 & Hp1).
  destruct (m st) as [[[a|e]|] st1]; cbn [snd] in *;
    [exists new1; auto| |exists new1; auto].
  destruct (Hh e st1) as (new2 & Ht2 & Hp2).
  exists (new1 ++ new2). rewrite Ht2, Ht1, app_assoc, forallb_app, Hp1, Hp2.
  auto.
Qed.

Lemma emitsOnly_forEach {R X : Type} (xs : list X)
    (body : X -> M L (option R)) :
  (forall x, emitsOnly allowed (body x)) ->
  emitsOnly allowed (forEach xs body).
Proof.
  intros Hbody. induction xs as [|x xs IH]; cbn [forEach].
  - apply emitsOnly_ret.
  - apply emitsOnly_bind; [apply Hbody|].
    intros [r|]; [apply emitsOnly_ret|exact IH].
Qed.

Lemma emitsOnly_forEach_ {X : Type} (xs : list X) (body : X -> M L unit) :
  (forall x, emitsOnly allowed (body x)) ->
  emitsOnly allowed (forEach_ xs body).
Proof.
  intros Hbody. induction xs as [|x xs IH]; cbn [forEach_].
  - apply emitsOnly_ret.
  - apply emitsOnly_bind; [apply Hbody|]. intros _. exact IH.
Qed.

Lemma emitsOnly_mapM {X Y : Type} (f : X -> M L Y) (xs : list X) :
  (forall x, emitsOnly allowed (f x)) -> emitsOnly allowed (mapM f xs).
Proof.
  intros Hf. induction xs as [|x xs IH]; cbn [mapM].
  - apply emitsOnly_ret.
  - apply emitsOnly_bind; [apply Hf|]. intros y.
    apply emitsOnly_bind; [exact IH|]. intros ys. apply emitsOnly_ret.
Qed.

Lemma emitsOnly_while {R : Type} (fuel : nat) (cond : L -> bool)
    (body : M L (option R)) :
  emitsOnly allowed body -> emitsOnly allowed (while fuel cond body).
Proof.
  intros Hbody. induction fuel as [|fuel IH]; cbn [while].
  - apply emitsOnly_pending.
  - apply emitsOnly_bind; [apply emitsOnly_getLocals|]. intros l.
    destruct (cond l); [|apply emitsOnly_ret].
    apply emitsOnly_bind; [exact Hbody|].
    intros [r|]; [apply emitsOnly_ret|exact IH].
Qed.

Context (env : Env).

Lemma emitsOnly_storageCall {A : Type} (ev : Result A -> Event)
    (value : World -> A) (effect : World -> World) :
  (forall out, allowed (ev out) = true) ->
  (forall w, trace (effect w) = trace w) ->
  emitsOnly allowed (@storageCall env L A ev value effect).
Proof.
  intros Hev Heff st. unfold storageCall.
  destruct (storageFault env (trace (world st))); eexists [_]; cbn;
    rewrite ?Heff, Hev; auto.
Qed.

Lemma emitsOnly_subscribeCancel : emitsOnly allowed (@subscribeCancel L).
Proof. apply emitsOnly_same. reflexivity. Qed.

Lemma emitsOnly_pollCancel (cancelPromise : nat) :
  (forall out, allowed (PollCancel out) = true) ->
  emitsOnly allowed (@pollCancel env L cancelPromise).
Proof. intros H st. eexists [_]. cbn. rewrite H. auto. Qed.

End Emits.

Ltac head_of t :=
  lazymatch t with
  | ?f _ => head_of f
  | _ => t
  end.

(** The calls of a computation, read off its text. *)
Ltac emits_step side :=
  lazymatch goal with
  | |- emitsOnly _ (bind _ _) => apply emitsOnly_bind; [|intros ?]
  | |- emitsOnly _ (tryCatch _ _) => apply emitsOnly_tryCatch; [|intros ?]
  | |- emitsOnly _ (ret _) => apply emitsOnly_ret
  | |- emitsOnly _ (throw _) => apply emitsOnly_throw
  | |- emitsOnly _ pending => apply emitsOnly_pending
  | |- emitsOnly _ (liftResult _) => apply emitsOnly_liftResult
  | |- emitsOnly _ getLocals => apply emitsOnly_getLocals
  | |- emitsOnly _ (setLocals _) => apply emitsOnly_setLocals
  | |- emitsOnly _ getWorld => apply emitsOnly_getWorld
  | |- emitsOnly _ (modifyWorld _) =>
      apply emitsOnly_modifyWorld; intros ?; reflexivity
  | |- emitsOnly _ (emit _) => apply emitsOnly_emit; side
  | |- emitsOnly _ (ask _ _) => apply emitsOnly_ask; intros ?; side
  | |- emitsOnly _ subscribeCancel => apply emitsOnly_subscribeCancel
  | |- emitsOnly _ (pollCancel _ _) =>
      apply emitsOnly_pollCancel; intros ?; side
  | |- emitsOnly _ (storageCall _ _ _ _) =>
      apply emitsOnly_storageCall; [intros ?; side | intros ?; reflexivity]
  | |- emitsOnly _ (forEach _ _) => apply emitsOnly_forEach; intros ?
  | |- emitsOnly _ (forEach_ _ _) => apply emitsOnly_forEach_; intros ?
  | |- emitsOnly _ (mapM _ _) => apply emitsOnly_mapM; intros ?
  | |- emitsOnly _ (while _ _ _) => apply emitsOnly_while
  | |- emitsOnly _ (if ?b then _ else _) => destruct b
  | |- emitsOnly _ (match ?x with _ => _ end) => destruct x
  | |- emitsOnly _ ?m => let h := head_of m in unfold h
  end.

Ltac emits side := repeat emits_step side.

(** X9.  Whatever its collaborators answer, [analyze] writes only the
    fields of the analysis, with no status other than [IN_PROGRESS],
    [PARTIAL] and [COMPLETED] (never [FAILED]); it stores no document and
    asks neither the generation nor the details of the model. *)
Theorem analyze_calls (env : Env) (fileId workloadId : str)
    (selectedPillars : list str) (userId : option str) :
  emitsOnly analysisCall
    (analyze env fileId workloadId selectedPillars userId).
Proof. emits ltac:(reflexivity). Qed.

(** X10.  Whatever its collaborators answer, [generateIacDocument] writes
    only the fields of the generation, asks the generation model only, and
    every progress it reports lies between 0 and 100. *)
Theorem generateIacDocument_calls (env : Env) (fuel : nat) (fileId : str)
    (recommendations : list str) (templateType : str)
    (userId : option str) :
  emitsOnly generationCall
    (generateIacDocument env fuel fileId recommendations templateType userId).
Proof.
  emits ltac:(first [reflexivity
                    | cbn; apply andb_true_iff; split; apply Z.leb_le; lia]).
Qed.

(** X11.  [getMoreDetails] writes nothing: it reads the work item and the
    file, asks the model for details and reports its progress. *)
Theorem getMoreDetails_calls (env : Env) (fuel : nat)
    (selectedItems : list Item.t) (userId fileId : str)
    (templateType : option str) :
  emitsOnly detailsCall
    (getMoreDetails env fuel selectedItems userId fileId templateType).
Proof. emits ltac:(reflexivity). Qed.
(** ** The cache of best practices *)

Lemma wp_run_of {L A : Type} (m : M L A)
    (Q : option (Result A) -> St L -> Prop) (st st' : St L)
    (out : option (Result A)) :
  m st = (out, st') -> wp m Q st -> Q out st'.
Proof. intros E H. apply (wp_exec m Q st out st' H E). Qed.

(** X12.  Once [loadBestPractices] has succeeded, the taxonomy it returned
    is cached: every later call returns it again without a call to any
    collaborator, whatever the workload asked for. *)
Theorem loadBestPractices_cached (env : Env) (L : Type)
    (workloadId : str) (st st' : St L)
    (taxonomy : list WellArchitectedBestPractice.t) :
  loadBestPractices env workloadId st = (Some (Ok taxonomy), st') ->
  cachedBestPractices (world st') = Some taxonomy /\
  forall otherWorkloadId,
    loadBestPractices env otherWorkloadId st' = (Some (Ok taxonomy), st').
Proof.
  intros Hrun.
  assert (cachedBestPractices (world st') = Some taxonomy) as Hcache.
  { apply (wp_run_of _ (fun out st' =>
             forall t, out = Some (Ok t) ->
                       cachedBestPractices (world st') = Some t)
             _ _ _ Hrun); [|reflexivity].
    destruct st as [w l].
    unfold loadBestPractices, loadWellArchitectedAnswers.
    wp_run; intros t Ht; try discriminate; injection Ht as <-;
      cbn [world cachedBestPractices setCache record]; auto. }
  split; [exact Hcache|]. intros other.
  unfold loadBestPractices, bind, getWorld, ret. cbn. rewrite Hcache.
  reflexivity.
Qed.

Lemma loadBestPractices_cached_witness :
  let env := exampleEnv (Ok exampleTaxonomy) [] [] [] in
  let st := exampleStart tt in
  let st' := snd (loadBestPractices env "w" st) in
  cachedBestPractices (world st')
  = Some (map (enrich ∅ ∅) exampleTaxonomy) /\
  forall otherWorkloadId,
    loadBestPractices env otherWorkloadId st'
    = (Some (Ok (map (enrich ∅ ∅) exampleTaxonomy)), st').
Proof.
  apply (loadBestPractices_cached
           (exampleEnv (Ok exampleTaxonomy) [] [] []) unit "w"
           (exampleStart tt)).
  vm_compute. reflexivity.
Defined.

(** X13.  [retrieveBestPractices] fails only while nothing is cached, with
    one message whatever went wrong underneath, and a failure leaves the
    cache empty. *)
Theorem retrieveBestPractices_failure (env : Env) (L : Type)
    (pillarId workloadId : str) (st st' : St L) (e : Exn) :
  retrieveBestPractices env pillarId workloadId st = (Some (Throw e), st') ->
  e = Error "Failed to retrieve Well-Architected best practices" /\
  cachedBestPractices (world st) = None /\
  cachedBestPractices (world st') = None.
Proof.
  intros Hrun.
  apply (wp_run_of _ (fun out st' =>
           forall e, out = Some (Throw e) ->
             e = Error "Failed to retrieve Well-Architected best practices" /\
             cachedBestPractices (world st) = None /\
             cachedBestPractices (world st') = None)
           _ _ _ Hrun); [|reflexivity].
  destruct st as [w l].
  unfold retrieveBestPractices, loadBestPractices, loadWellArchitectedAnswers.
  wp_run; intros e' He'; try discriminate; injection He' as <-;
    cbn [world cachedBestPractices setCache record] in *;
    first
      [ match goal with
        | H : groupBestPractices ?t ?p = Throw _ |- _ =>
            destruct (groupBestPractices_aligned t p) as (? & Hok & _);
            rewrite Hok in H; discriminate H
        end
      | repeat split; first [reflexivity | assumption] ].
Qed.

Lemma retrieveBestPractices_failure_witness :
  let env := exampleEnv (Throw (mkExn "SyntaxError" "Unexpected token")) [] [] [] in
  let st := exampleStart tt in
  let st' := snd (retrieveBestPractices env "security" "w" st) in
  Error "Failed to retrieve Well-Architected best practices"
  = Error "Failed to retrieve Well-Architected best practices" /\
  cachedBestPractices (world st) = None /\
  cachedBestPractices (world st') = None.
Proof.
  apply (retrieveBestPractices_failure
           (exampleEnv (Throw (mkExn "SyntaxError" "Unexpected token")) [] [] [])
           unit "security" "w" (exampleStart tt)).
  vm_compute. reflexivity.
Defined.
(** ** A run in which every question is analyzed *)

Section Completion.

Context (env : Env) (userId fileId fileContent fileType : str)
  (totalQuestions : nat).

Hypothesis storage_ok : forall history, storageFault env history = None.
Hypothesis retrieval_ok :
  forall history, exists contexts, knowledgeBase env history = Ok contexts.
Hypothesis content_ok : analyzable fileContent fileType = true.
Hypothesis model_ok :
  forall history,
    exists text response verdicts,
      analysisModel env history = Ok text /\
      parseAnalysis env (cleanJsonString text) = Ok response /\
      ModelResponse.bestPractices response = Some (Some <$> verdicts).

Lemma analyzeQuestion_answers (question : QuestionGroup.t)
    (kbContexts : list str) (st : St AnalyzeLocals.t) :
  wp (analyzeQuestion env fileContent question kbContexts fileType)
    (fun out st' =>
       exists analysis ev,
         out = Some (Ok analysis) /\
         AnalysisResult.question analysis = QuestionGroup.title question /\
         st' = mkSt (record ev (world st)) (locals st)) st.
Proof.
  destruct st as [w l].
  pose proof content_ok as Hc. unfold analyzable in Hc.
  unfold analyzeQuestion, invokeBedrockModelWithImage, invokeBedrockModel,
    invokeAnalysis.
  cbn zeta.
  destruct (startsWith "image/" fileType).
  - apply andb_prop in Hc as [Hdata Huri]. rewrite Hdata.
    destruct (dataUri fileContent); [|discriminate].
    cbn [negb andb].
    destruct (model_ok (trace w)) as (text & response & verdicts & Ht & Hp & Hv).
    wp_run; same_outcome;
      rewrite ?(parseModelResponse_objects _ _ _ Hv) in *; same_outcome.
    eexists _, _. split; [reflexivity|]. split; reflexivity.
  - cbn [negb andb].
    destruct (model_ok (trace w)) as (text & response & verdicts & Ht & Hp & Hv).
    wp_run; same_outcome;
      rewrite ?(parseModelResponse_objects _ _ _ Hv) in *; same_outcome.
    eexists _, _. split; [reflexivity|]. split; reflexivity.
Qed.

Ltac on_course :=
  try match goal with
      | H : _ && cancelRequested env _ = true |- _ => congruence
      | H : knowledgeBase env ?h = Throw _ |- _ =>
          let c := fresh in
          let Hc := fresh in
          destruct (retrieval_ok h) as [c Hc]; rewrite Hc in H;
          discriminate H
      end.

(** A question at which no cancellation is seen is analyzed, and the loop
    goes on with a longer history. *)
Lemma analyzeStep_proceeds (cancelPromise : nat) (pillar : str)
    (question : QuestionGroup.t) (workItem : WorkItem.t)
    (st : St AnalyzeLocals.t) :
  AnalyzeLocals.workItem (locals st) = Some workItem ->
  (cancelPromise <? length (trace (world st)))%nat
  && cancelRequested env (trace (world st)) = false ->
  wp (analyzeStep env userId fileContent fileType totalQuestions
        cancelPromise pillar question)
    (fun out st' =>
       out = Some (Ok None) /\
       (exists new,
          trace (world st') = trace (world st) ++ PollCancel false :: new) /\
       exists analysis,
         AnalysisResult.question analysis = QuestionGroup.title question /\
         locals st'
         = AnalyzeLocals.mk
             (AnalyzeLocals.results (locals st) ++ [analysis])
             (Some workItem)
             (S (AnalyzeLocals.processedQuestions (locals st)))) st.
Proof.
  destruct st as [w [results item processed]]. cbn [locals world].
  cbn [AnalyzeLocals.workItem]. intros -> Hpoll.
  unfold analyzeStep, retrieveFromKnowledgeBase.
  wp_run_ok storage_ok; on_course.
  eapply wp_mono; [apply analyzeQuestion_answers|].
  intros out st1 (analysis & ev & -> & Hq & ->).
  cbn [afterBind afterTry locals world].
  unfold pushResult, incrementProcessed, updateWorkItem.
  wp_run_ok storage_ok.
  split; [reflexivity|].
  split.
  { cbn [trace record mergeWorkItem world].
    repeat rewrite <- app_assoc. cbn [app]. eexists. reflexivity. }
  exists analysis. split; [exact Hq|reflexivity].
Qed.

Lemma analyzeLoop_proceeds (cancelPromise : nat)
    (questions : list (str * QuestionGroup.t)) (workItem : WorkItem.t) :
  (forall history, cancelRequested env history = false) ->
  forall st : St AnalyzeLocals.t,
    AnalyzeLocals.workItem (locals st) = Some workItem ->
    wp (forEach questions
          (fun '(pillar, question) =>
             analyzeStep env userId fileContent fileType totalQuestions
               cancelPromise pillar question))
      (fun out st' =>
         out = Some (Ok None) /\
         exists analyses,
           map AnalysisResult.question analyses
           = map (fun entry => QuestionGroup.title (snd entry)) questions /\
           locals st'
           = AnalyzeLocals.mk
               (AnalyzeLocals.results (locals st) ++ analyses)
               (Some workItem)
               (AnalyzeLocals.processedQuestions (locals st)
                + length questions)) st.
Proof.
  intros not_cancelled.
  induction questions as [|[pillar question] questions IH]; intros st Hitem.
  - cbn [forEach]. apply wp_ret. split; [reflexivity|]. exists [].
    destruct st as [w [results item processed]]. cbn in *. subst item.
    rewrite app_nil_r, Nat.add_0_r. auto.
  - cbn [forEach]. apply wp_bind.
    eapply wp_mono.
    { apply (analyzeStep_proceeds _ _ _ _ _ Hitem).
      rewrite not_cancelled. apply andb_false_r. }
    intros out st1 (-> & _ & analysis & Hq & Hl). cbn [afterBind].
    eapply wp_mono; [apply IH; rewrite Hl; reflexivity|].
    intros out st2 (-> & analyses & Hqs & Hl2). split; [reflexivity|].
    exists (analysis :: analyses). split; [cbn; congruence|].
    rewrite Hl2, Hl. cbn. rewrite <- app_assoc. f_equal. lia.
Qed.

End Completion.

(** X14.  When the storage answers, nobody cancels and every question is
    analyzed, [analyze] returns one result per question of the selected
    pillars, in their order, without error; the results are stored and the
    work item is left [COMPLETED] with a progress of 100. *)
Theorem analyze_completes (env : Env)
    (userId fileId fileContent fileType workloadId : str)
    (selectedPillars : list str)
    (taxonomy : list WellArchitectedBestPractice.t)
    (storedType : option str) (storedFields : WorkItemFields.t)
    (st : St AnalyzeLocals.t) :
  (forall history, storageFault env history = None) ->
  (forall history, cancelRequested env history = false) ->
  (forall history, exists contexts, knowledgeBase env history = Ok contexts) ->
  (forall history,
     originalContent env history = Ok (Text fileContent, fileType)) ->
  analyzable fileContent fileType = true ->
  (forall history,
     exists text response verdicts,
       analysisModel env history = Ok text /\
       parseAnalysis env (cleanJsonString text) = Ok response /\
       ModelResponse.bestPractices response = Some (Some <$> verdicts)) ->
  truthy userId = true ->
  items (world st) !! (userId, fileId) = Some (storedType, storedFields) ->
  cachedBestPractices (world st) = Some taxonomy ->
  exists r st' before,
    analyze env fileId workloadId selectedPillars (Some userId) st
    = (Some (Ok r), st') /\
    map AnalysisResult.question (AnalyzeReturn.results r)
    = map (fun entry => QuestionGroup.title (snd entry))
        (questionsOf taxonomy selectedPillars) /\
    AnalyzeReturn.isCancelled r = false /\
    AnalyzeReturn.error r = None /\
    AnalyzeReturn.fileId r = Some fileId /\
    trace (world st')
    = before ++
      [StoreAnalysisResults userId fileId (AnalyzeReturn.results r) (Ok tt);
       UpdateWorkItem userId fileId
         (WorkItemFields.analysis (Some COMPLETED) (Some (Int 100)) None None)
         (Ok tt)] /\
    analysisStatusOf userId fileId (world st') = Some COMPLETED /\
    analysisProgressOf userId fileId (world st') = Some (Int 100).
Proof.
  intros storage_ok not_cancelled retrieval_ok content_read content_ok
    model_ok Huser Hitem Hcache.
  assert (wp (analyze env fileId workloadId selectedPillars (Some userId))
            (fun out st' =>
               exists r before,
                 out = Some (Ok r) /\
                 map AnalysisResult.question (AnalyzeReturn.results r)
                 = map (fun entry => QuestionGroup.title (snd entry))
                     (questionsOf taxonomy selectedPillars) /\
                 AnalyzeReturn.isCancelled r = false /\
                 AnalyzeReturn.error r = None /\
                 AnalyzeReturn.fileId r = Some fileId /\
                 trace (world st')
                 = before ++
                   [StoreAnalysisResults userId fileId
                      (AnalyzeReturn.results r) (Ok tt);
                    UpdateWorkItem userId fileId
                      (WorkItemFields.analysis (Some COMPLETED)
                         (Some (Int 100)) None None) (Ok tt)] /\
                 analysisStatusOf userId fileId (world st') = Some COMPLETED /\
                 analysisProgressOf userId fileId (world st')
                 = Some (Int 100)) st) as Hwp.
  { destruct st as [w l]. cbn [world] in *.
    unfold analyze, getFileContent, getWorkItem, getOriginalContent,
      setWorkItem, updateWorkItem, loadBestPractices.
    wp_run_ok storage_ok.
    all: cbn [cachedBestPractices record mergeWorkItem] in *.
    all: try (rewrite content_read in *).
    all: same_outcome.
    all: try (rewrite Huser in *; discriminate).
    unfold lookupWorkItem. cbn [items record]. rewrite Hitem.
    match goal with
    | |- wp _ _ ?st0 =>
        destruct (mapM_retrieve env taxonomy workloadId selectedPillars st0)
          as (groups & Hrun & Hlen & Hq); [exact Hcache|]
    end.
    eapply wp_eq; [exact Hrun|]. apply wp_ret. cbn [afterBind].
    wp_step. wp_step. wp_step.
    eapply wp_eq; [apply forEach_nested|]. rewrite Hq.
    eapply wp_mono.
    { apply (analyzeLoop_proceeds env userId _ _
               (countQuestions groups) storage_ok retrieval_ok
               content_ok model_ok _ _
               (WorkItem.mk fileId storedType storedFields) not_cancelled).
      reflexivity. }
    intros out [w1 l1] (-> & analyses & Hqs & Hl).
    cbn [locals world AnalyzeLocals.results
         AnalyzeLocals.processedQuestions] in Hl. subst l1.
    cbn [afterBind afterTry]. unfold storeAnalysisResults.
    wp_run_ok storage_ok.
    eexists. eexists. split; [reflexivity|].
    cbn [AnalyzeReturn.results AnalyzeReturn.isCancelled AnalyzeReturn.error
         AnalyzeReturn.fileId WorkItem.fileId app].
    split; [exact Hqs|]. repeat (split; [reflexivity|]).
    split.
    - cbn [trace record mergeWorkItem world]. rewrite <- app_assoc.
      reflexivity.
    - unfold analysisStatusOf, analysisProgressOf.
      rewrite !fieldsOf_record, fieldsOf_merge. split; reflexivity. }
  destruct (analyze env fileId workloadId selectedPillars (Some userId) st)
    as [out st'] eqn:Hrun.
  apply (wp_exec _ _ _ _ _ Hwp) in Hrun.
  destruct Hrun as (r & before & -> & H).
  exists r, st', before. split; [reflexivity|exact H].
Qed.

Lemma analyze_completes_witness :
  exists r st' before,
    analyze answeringEnv "f" "w" examplePillars (Some (lit "u"))
      (mkSt (loadedWorld exampleTaxonomy) (AnalyzeLocals.mk [] None O))
    = (Some (Ok r), st') /\
    map AnalysisResult.question (AnalyzeReturn.results r)
    = map (fun entry => QuestionGroup.title (snd entry))
        (questionsOf exampleTaxonomy examplePillars) /\
    AnalyzeReturn.isCancelled r = false /\
    AnalyzeReturn.error r = None /\
    AnalyzeReturn.fileId r = Some (lit "f") /\
    trace (world st')
    = before ++
      [StoreAnalysisResults "u" "f" (AnalyzeReturn.results r) (Ok tt);
       UpdateWorkItem "u" "f"
         (WorkItemFields.analysis (Some COMPLETED) (Some (Int 100)) None None)
         (Ok tt)] /\
    analysisStatusOf (lit "u") (lit "f") (world st') = Some COMPLETED /\
    analysisProgressOf (lit "u") (lit "f") (world st') = Some (Int 100).
Proof.
  apply (analyze_completes answeringEnv
           "u" "f" "data:image/png;base64,iVBORw0KGgo=" "image/png" "w"
           examplePillars exampleTaxonomy (Some (lit "image/png"))
           WorkItemFields.none).
  - intros history. reflexivity.
  - intros history. cbn. unfold scripted.
    destruct (countEvents isPollCancel history); reflexivity.
  - intros history. eexists. reflexivity.
  - intros history. reflexivity.
  - vm_compute. reflexivity.
  - intros history. eexists _, _, [_]. repeat split; reflexivity.
  - reflexivity.
  - vm_compute. reflexivity.
  - reflexivity.
Defined.
(** ** Failures of a generation *)

Lemma tryCatch_throws {L A : Type} (m : M L A) (handler : Exn -> M L A)
    (st st' : St L) (e : Exn) :
  tryCatch m handler st = (Some (Throw e), st') ->
  exists e0 st1,
    m st = (Some (Throw e0), st1) /\ handler e0 st1 = (Some (Throw e), st').
Proof.
  unfold tryCatch. destruct (m st) as [[[a|e0]|] st1]; try discriminate.
  intros H. exists e0, st1. auto.
Qed.

(** X15.  Whatever fails in [generateIacDocument], the caller is told
    [Failed to generate IaC document] and, when the user and the file are
    given, the work item is left [FAILED]; the one exception is a failure
    of the storage while that status is being written, which is passed
    on. *)
Theorem generateIacDocument_failure (env : Env) (fuel : nat) (fileId : str)
    (recommendations : list str) (templateType : str)
    (userId : option str) (st st' : St GenerateLocals.t) (e : Exn) :
  generateIacDocument env fuel fileId recommendations templateType userId st
  = (Some (Throw e), st') ->
  (e = Error "Failed to generate IaC document" /\
   (truthy (default [] userId) && truthy fileId = true ->
    WorkItemFields.iacGenerationStatus
      (fieldsOf (default [] userId) fileId (world st')) = Some FAILED)) \/
  (exists history, storageFault env history = Some e).
Proof.
  unfold generateIacDocument. intros H.
  apply tryCatch_throws in H as (e0 & st1 & _ & H).
  unfold bind, updateWorkItem, storageCall, ret, throw in H.
  destruct (truthy (default [] userId) && truthy fileId).
  - destruct (storageFault env (trace (world st1))) as [fault|] eqn:Ef.
    + injection H as <- <-. right. eauto.
    + injection H as <- <-. left. split; [reflexivity|]. intros _.
      cbn [world]. rewrite fieldsOf_record, fieldsOf_merge. reflexivity.
  - injection H as <- <-. left. split; [reflexivity|discriminate].
Qed.

Lemma generateIacDocument_failure_witness :
  let st' :=
    snd (generateIacDocument
           (exampleEnv (Ok []) [] [Throw (Error "throttled")] []) 5 "f" []
           exampleTemplate (Some (lit "u"))
           (exampleStart (GenerateLocals.mk false [] O))) in
  (Error "Failed to generate IaC document"
   = Error "Failed to generate IaC document" /\
   (truthy (default [] (Some (lit "u"))) && truthy "f" = true ->
    WorkItemFields.iacGenerationStatus
      (fieldsOf (default [] (Some (lit "u"))) "f" (world st'))
    = Some FAILED)) \/
  (exists history,
     storageFault (exampleEnv (Ok []) [] [Throw (Error "throttled")] [])
       history
     = Some (Error "Failed to generate IaC document")).
Proof.
  apply (generateIacDocument_failure
           (exampleEnv (Ok []) [] [Throw (Error "throttled")] []) 5 "f" []
           exampleTemplate (Some (lit "u"))
           (exampleStart (GenerateLocals.mk false [] O))).
  vm_compute. reflexivity.
Defined.

(** X16.  A file that is no diagram is refused before the model is asked:
    [generateIacDocument] fails, and the work item is left [FAILED] with
    the reason. *)
Theorem generateIacDocument_not_a_diagram (env : Env) (fuel : nat)
    (userId fileId : str) (recommendations : list str) (templateType : str)
    (data : Data) (fileType : str) (st : St GenerateLocals.t) :
  (forall history, storageFault env history = None) ->
  (forall history, originalContent env history = Ok (data, fileType)) ->
  startsWith "image/" fileType = false ->
  truthy userId = true -> truthy fileId = true ->
  exists st',
    generateIacDocument env fuel fileId recommendations templateType
      (Some userId) st
    = (Some (Throw (Error "Failed to generate IaC document")), st') /\
    WorkItemFields.iacGenerationStatus (fieldsOf userId fileId (world st'))
    = Some FAILED /\
    WorkItemFields.iacGenerationError (fieldsOf userId fileId (world st'))
    = Some (lit "This operation is only supported for architecture diagrams")
    /\
    countEvents isInvokeGeneration (trace (world st'))
    = countEvents isInvokeGeneration (trace (world st)).
Proof.
  intros storage_ok content_read Himage Huser Hfile.
  assert (wp (generateIacDocument env fuel fileId recommendations
                templateType (Some userId))
            (fun out st' =>
               out = Some (Throw (Error "Failed to generate IaC document")) /\
               WorkItemFields.iacGenerationStatus
                 (fieldsOf userId fileId (world st')) = Some FAILED /\
               WorkItemFields.iacGenerationError
                 (fieldsOf userId fileId (world st'))
               = Some (lit "This operation is only supported for architecture diagrams")
               /\
               countEvents isInvokeGeneration (trace (world st'))
               = countEvents isInvokeGeneration (trace (world st))) st) as Hwp.
  { destruct st as [w l].
    unfold generateIacDocument, getFileContent, getWorkItem,
      getOriginalContent, updateWorkItem.
    rewrite Huser. cbn [negb default].
    wp_run_ok storage_ok.
    all: try (rewrite content_read in *).
    all: same_outcome.
    all: try congruence.
    all: cbn [default] in *; unfold id in *.
    all: rewrite ?Huser, ?Hfile, ?Himage in *; try discriminate.
    all: split; [reflexivity|].
    all: cbn [world]; rewrite !fieldsOf_record, fieldsOf_merge.
    all: split; [reflexivity|]. all: split; [reflexivity|].
    all: rewrite !count_record; cbn [trace mergeWorkItem];
      rewrite ?count_record; cbn; lia. }
  destruct (generateIacDocument env fuel fileId recommendations templateType
              (Some userId) st) as [out st'] eqn:Hrun.
  apply (wp_exec _ _ _ _ _ Hwp) in Hrun. destruct Hrun as (-> & H).
  exists st'. split; [reflexivity|exact H].
Qed.

Lemma generateIacDocument_not_a_diagram_witness :
  exists st',
    generateIacDocument
      (withContent (Text "Resources: {}") "application/x-yaml"
         (exampleEnv (Ok []) [] [] []))
      5 "f" [] exampleTemplate (Some (lit "u"))
      (exampleStart (GenerateLocals.mk false [] O))
    = (Some (Throw (Error "Failed to generate IaC document")), st') /\
    WorkItemFields.iacGenerationStatus (fieldsOf "u" "f" (world st'))
    = Some FAILED /\
    WorkItemFields.iacGenerationError (fieldsOf "u" "f" (world st'))
    = Some (lit "This operation is only supported for architecture diagrams")
    /\
    countEvents isInvokeGeneration (trace (world st'))
    = countEvents isInvokeGeneration
        (trace (world (exampleStart (GenerateLocals.mk false [] O)))).
Proof.
  apply (generateIacDocument_not_a_diagram
           (withContent (Text "Resources: {}") "application/x-yaml"
              (exampleEnv (Ok []) [] [] []))
           5 "u" "f" [] exampleTemplate (Text "Resources: {}")
           "application/x-yaml");
    reflexivity.
Defined.
(** ** Requests that are refused *)

(** X17.  Without a user identifier [analyze] fails at once: it throws
    [User ID is required for analysis], calls no collaborator and writes
    no status. *)
Theorem analyze_requires_user (env : Env) (fileId workloadId : str)
    (selectedPillars : list str) (userId : option str)
    (st : St AnalyzeLocals.t) :
  truthy (default [] userId) = false ->
  analyze env fileId workloadId selectedPillars userId st
  = (Some (Throw (Error "User ID is required for analysis")),
     mkSt (world st) (AnalyzeLocals.mk [] None O)).
Proof.
  intros Huser. destruct st as [w l].
  destruct userId as [userId|]; cbn in Huser |- *.
  - unfold analyze, bind, tryCatch, setLocals. cbn. rewrite Huser. reflexivity.
  - reflexivity.
Qed.

Lemma analyze_requires_user_witness :
  analyze (exampleEnv (Ok []) [] [] []) "f" "w" examplePillars (Some [])
    (exampleStart (AnalyzeLocals.mk [] None O))
  = (Some (Throw (Error "User ID is required for analysis")),
     mkSt (world (exampleStart (AnalyzeLocals.mk [] None O)))
       (AnalyzeLocals.mk [] None O)).
Proof.
  apply (analyze_requires_user (exampleEnv (Ok []) [] [] []) "f" "w"
           examplePillars (Some [])
           (exampleStart (AnalyzeLocals.mk [] None O))).
  reflexivity.
Defined.

(** X18.  [getMoreDetails] refuses an empty selection, and then a missing
    user or file identifier, before it calls any collaborator. *)
Theorem getMoreDetails_requires_input (env : Env) (fuel : nat)
    (selectedItems : list Item.t) (userId fileId : str)
    (templateType : option str) (st : St DetailsLocals.t) :
  selectedItems = [] \/ userId = [] \/ fileId = [] ->
  getMoreDetails env fuel selectedItems userId fileId templateType st
  = (Some (Throw
       (match selectedItems with
        | [] => Error "No items selected for detailed analysis"
        | _ :: _ => Error "File ID and User ID are required"
        end)), st).
Proof.
  intros H. unfold getMoreDetails, tryCatch.
  destruct selectedItems as [|item items]; [reflexivity|].
  cbn [nonEmpty negb].
  destruct H as [H | [-> | ->]]; [discriminate| |].
  - cbn [truthy negb]. rewrite orb_true_r. reflexivity.
  - reflexivity.
Qed.

Lemma getMoreDetails_requires_input_witness :
  getMoreDetails (exampleEnv (Ok []) [] [] []) 5
    [Item.mk "Use encryption" false] [] "f" None
    (exampleStart (DetailsLocals.mk [] false [] false))
  = (Some (Throw (Error "File ID and User ID are required")),
     exampleStart (DetailsLocals.mk [] false [] false)).
Proof.
  apply (getMoreDetails_requires_input (exampleEnv (Ok []) [] [] []) 5
           [Item.mk "Use encryption" false] [] "f" None
           (exampleStart (DetailsLocals.mk [] false [] false))).
  right. left. reflexivity.
Defined.

(** X19.  With a selection and both identifiers, [getMoreDetails] reads
    the work item and nothing else when the item is unknown or has no file
    type: it fails on the missing item, or with [No file type provided]. *)
Theorem getMoreDetails_requires_file_type (env : Env) (fuel : nat)
    (selectedItems : list Item.t) (userId fileId : str)
    (templateType : option str) (st : St DetailsLocals.t) :
  (forall history, storageFault env history = None) ->
  selectedItems <> [] -> truthy userId = true -> truthy fileId = true ->
  match lookupWorkItem userId fileId (world st) with
  | Some workItem =>
      default [] (WorkItem.fileType workItem) = []
  | None => True
  end ->
  getMoreDetails env fuel selectedItems userId fileId templateType st
  = (Some (Throw
       (match lookupWorkItem userId fileId (world st) with
        | Some _ => Error "No file type provided"
        | None =>
            TypeError
              "Cannot read properties of undefined (reading 'fileType')"
        end)),
     mkSt (record
             (GetWorkItem userId fileId
                (Ok (lookupWorkItem userId fileId (world st))))
             (world st))
       (locals st)).
Proof.
  intros storage_ok Hitems Huser Hfile Htype. destruct st as [w l].
  unfold getMoreDetails, tryCatch, bind, getWorkItem, storageCall.
  destruct selectedItems as [|item items]; [congruence|].
  cbn [nonEmpty negb world locals] in *. rewrite Huser, Hfile.
  cbn [negb orb world locals]. cbv zeta. cbn [world locals].
  rewrite storage_ok.
  destruct (lookupWorkItem userId fileId w) as [workItem|]; [|reflexivity].
  destruct (WorkItem.fileType workItem) as [[|c t]|]; try discriminate;
    reflexivity.
Qed.

Lemma getMoreDetails_requires_file_type_witness :
  getMoreDetails (exampleEnv (Ok []) [] [] []) 5
    [Item.mk "Use encryption" false] "u" "other" None
    (exampleStart (DetailsLocals.mk [] false [] false))
  = (Some (Throw
       (TypeError "Cannot read properties of undefined (reading 'fileType')")),
     mkSt (record (GetWorkItem "u" "other" (Ok None)) exampleWorld)
       (DetailsLocals.mk [] false [] false)).
Proof.
  apply (getMoreDetails_requires_file_type (exampleEnv (Ok []) [] [] []) 5
           [Item.mk "Use encryption" false] "u" "other" None
           (exampleStart (DetailsLocals.mk [] false [] false)));
    [reflexivity | discriminate | reflexivity | reflexivity | ].
  vm_compute. exact I.
Defined.
(** ** Details that the model does not give *)

Section NoDetails.

Context (env : Env).

Hypothesis model_fails :
  forall history, exists e, detailsModel env history = Throw e.

Lemma detailsItem_fails (fuel : nat) (isImage : bool) (totalItems : nat)
    (entry : nat * Item.t) (st : St DetailsLocals.t) :
  wp (detailsItem env (S fuel) isImage totalItems entry)
    (fun out st' =>
       out = Some (Ok tt) /\
       DetailsLocals.allDetails (locals st')
       = DetailsLocals.allDetails (locals st) /\
       DetailsLocals.hasError (locals st') = true /\
       countEvents isInvokeDetails (trace (world st'))
       = S (countEvents isInvokeDetails (trace (world st)))) st.
Proof.
  destruct st as [w l]. destruct entry as [i item].
  unfold detailsItem. cbn [while]. unfold detailsTurn, invokeDetails.
  wp_run.
  all: match goal with
       | H : detailsModel env ?h = Ok _ |- _ =>
           let e := fresh in
           let He := fresh in
           destruct (model_fails h) as [e He]; rewrite He in H;
           discriminate H
       | _ => idtac
       end.
  all: try (cbn in *; congruence).
  repeat split. cbn [world]. rewrite count_record. cbn. lia.
Qed.

Lemma detailsLoop_fails (fuel : nat) (isImage : bool) (totalItems : nat)
    (entries : list (nat * Item.t)) :
  forall st : St DetailsLocals.t,
    wp (forEach_ entries (detailsItem env (S fuel) isImage totalItems))
      (fun out st' =>
         out = Some (Ok tt) /\
         DetailsLocals.allDetails (locals st')
         = DetailsLocals.allDetails (locals st) /\
         countEvents isInvokeDetails (trace (world st'))
         = (countEvents isInvokeDetails (trace (world st))
            + length entries)%nat) st.
Proof.
  induction entries as [|entry entries IH]; intros st; cbn [forEach_].
  - apply wp_ret. repeat split. cbn. lia.
  - apply wp_bind. eapply wp_mono; [apply detailsItem_fails|].
    intros out st1 (-> & Hall & _ & Hcount). cbn [afterBind].
    eapply wp_mono; [apply IH|].
    intros out st2 (-> & Hall2 & Hcount2).
    split; [reflexivity|]. split; [congruence|].
    rewrite Hcount2, Hcount. cbn. lia.
Qed.

End NoDetails.

(** X20.  When the model gives no details for any item, [getMoreDetails]
    asks once for every item that is not applied, goes on after each
    failure, and then fails with [Failed to generate any detailed
    analysis]. *)
Theorem getMoreDetails_no_details (env : Env) (fuel : nat)
    (selectedItems : list Item.t) (userId fileId : str)
    (templateType : option str) (fileType : str)
    (fields : WorkItemFields.t) (st : St DetailsLocals.t) :
  (forall history, storageFault env history = None) ->
  (forall history, exists content, originalContent env history = Ok content) ->
  (forall history, exists e, detailsModel env history = Throw e) ->
  truthy userId = true -> truthy fileId = true -> truthy fileType = true ->
  items (world st) !! (userId, fileId) = Some (Some fileType, fields) ->
  filter (fun item => Item.applied item = false) selectedItems <> [] ->
  fuel <> O ->
  exists st',
    getMoreDetails env fuel selectedItems userId fileId templateType st
    = (Some (Throw (Error "Failed to generate any detailed analysis")), st')
    /\
    countEvents isInvokeDetails (trace (world st'))
    = (countEvents isInvokeDetails (trace (world st))
       + length (filter (fun item => Item.applied item = false)
                   selectedItems))%nat.
Proof.
  intros storage_ok content_ok model_fails Huser Hfile Htype Hitem Hsome Hfuel.
  destruct fuel as [|fuel]; [congruence|].
  assert (wp (getMoreDetails env (S fuel) selectedItems userId fileId
                templateType)
            (fun out st' =>
               out = Some (Throw
                 (Error "Failed to generate any detailed analysis")) /\
               countEvents isInvokeDetails (trace (world st'))
               = (countEvents isInvokeDetails (trace (world st))
                  + length (filter (fun item => Item.applied item = false)
                              selectedItems))%nat) st) as Hwp.
  { destruct st as [w l]. cbn [world] in *.
    unfold getMoreDetails, getWorkItem, getOriginalContent.
    destruct selectedItems as [|item0 items0]; [contradiction Hsome; reflexivity|].
    cbn [nonEmpty negb]. rewrite Huser, Hfile. cbn [negb orb].
    destruct (filter _ (item0 :: items0)) as [|first others] eqn:Hfilter;
      [congruence|].
    apply wp_tryCatch. apply wp_bind. apply wp_storageCall_ok; [exact storage_ok|].
    cbn [world locals]. unfold lookupWorkItem. rewrite Hitem.
    cbn [afterBind WorkItem.fileType default]. unfold id. rewrite Htype.
    cbn [negb].
    destruct (content_ok (trace
                (record (GetWorkItem userId fileId
                   (Ok (Some (WorkItem.mk fileId (Some fileType) fields))))
                   w))) as [[data type] Hcontent].
    wp_step. wp_step. cbn [world trace] in *. rewrite Hcontent.
    cbn [afterBind]. wp_step. wp_step. wp_step. wp_step. wp_step.
    eapply wp_mono; [apply (detailsLoop_fails env model_fails)|].
    intros out [w1 l1] (-> & Hall & Hcount).
    cbn [locals world DetailsLocals.allDetails] in Hall, Hcount.
    cbn [afterBind]. wp_step. wp_step. wp_step. wp_step.
    cbn [locals]. rewrite Hall. cbn [truthy andb negb].
    wp_run. split; [reflexivity|].
    cbn [world]. rewrite count_record, Hcount, !count_record.
    cbn [trace]. rewrite length_imap. cbn. lia. }
  destruct (getMoreDetails env (S fuel) selectedItems userId fileId
              templateType st) as [out st'] eqn:Hrun.
  apply (wp_exec _ _ _ _ _ Hwp) in Hrun. destruct Hrun as (-> & H).
  exists st'. split; [reflexivity|exact H].
Qed.

Lemma getMoreDetails_no_details_witness :
  let selectedItems :=
    [Item.mk "Use encryption" false; Item.mk "Rotate keys" true;
     Item.mk "Enable logging" false] in
  let st := exampleStart (DetailsLocals.mk [] false [] false) in
  exists st',
    getMoreDetails (exampleEnv (Ok []) [] [] []) 5 selectedItems "u" "f" None
      st
    = (Some (Throw (Error "Failed to generate any detailed analysis")), st')
    /\
    countEvents isInvokeDetails (trace (world st'))
    = (countEvents isInvokeDetails (trace (world st))
       + length (filter (fun item => Item.applied item = false)
                   selectedItems))%nat.
Proof.
  apply (getMoreDetails_no_details (exampleEnv (Ok []) [] [] []) 5
           [Item.mk "Use encryption" false; Item.mk "Rotate keys" true;
            Item.mk "Enable logging" false]
           "u" "f" None "image/png" WorkItemFields.none
           (exampleStart (DetailsLocals.mk [] false [] false))).
  - intros history. reflexivity.
  - intros history. eexists. reflexivity.
  - intros history. eexists. reflexivity.
  - reflexivity.
  - reflexivity.
  - reflexivity.
  - vm_compute. reflexivity.
  - vm_compute. discriminate.
  - discriminate.
Defined.
(** ** A run cancelled while it analyzes *)

(** A question at which the cancellation is seen ends the run: the results
    held are stored, the work item is marked partial with the progress
    reached, and the run returns them as cancelled. *)
Lemma analyzeStep_cancelled (env : Env)
    (userId fileId fileContent fileType : str)
    (totalQuestions cancelPromise : nat) (pillar : str)
    (question : QuestionGroup.t) (fileType' : option str)
    (fields : WorkItemFields.t) (st : St AnalyzeLocals.t) :
  (forall history, storageFault env history = None) ->
  AnalyzeLocals.workItem (locals st)
  = Some (WorkItem.mk fileId fileType' fields) ->
  nonEmpty (AnalyzeLocals.results (locals st)) = true ->
  (cancelPromise <? length (trace (world st)))%nat
  && cancelRequested env (trace (world st)) = true ->
  wp (analyzeStep env userId fileContent fileType totalQuestions
        cancelPromise pillar question)
    (fun out st' =>
       out
       = Some (Ok (Some
           {| AnalyzeReturn.results := AnalyzeLocals.results (locals st);
              AnalyzeReturn.isCancelled := true;
              AnalyzeReturn.error := None;
              AnalyzeReturn.fileId := Some fileId |})) /\
       locals st' = locals st /\
       trace (world st')
       = trace (world st) ++
         [PollCancel true;
          StoreAnalysisResults userId fileId
            (AnalyzeLocals.results (locals st)) (Ok tt);
          UpdateWorkItem userId fileId
            (WorkItemFields.analysis (Some PARTIAL)
               (Some (roundPercent
                        (AnalyzeLocals.processedQuestions (locals st))
                        totalQuestions))
               (Some (lit "Analysis cancelled by user.")) (Some true))
            (Ok tt);
          EmitAnalysisProgress (AnalyzeLocals.processedQuestions (locals st))
            totalQuestions pillar "Analysis cancelled"] /\
       analysisStatusOf userId fileId (world st') = Some PARTIAL /\
       analysisProgressOf userId fileId (world st')
       = Some (roundPercent (AnalyzeLocals.processedQuestions (locals st))
                 totalQuestions)) st.
Proof.
  destruct st as [w [results item processed]]. cbn [locals world].
  cbn [AnalyzeLocals.workItem AnalyzeLocals.results
       AnalyzeLocals.processedQuestions].
  intros storage_ok -> Hres Hpoll.
  unfold analyzeStep, storePartial, returned, storeAnalysisResults,
    updateWorkItem.
  wp_run_ok storage_ok; try congruence.
  split; [reflexivity|]. split; [reflexivity|]. split.
  - cbn [world trace record mergeWorkItem].
    repeat rewrite <- app_assoc. reflexivity.
  - unfold analysisStatusOf, analysisProgressOf.
    rewrite !fieldsOf_record, fieldsOf_merge. split; reflexivity.
Qed.

(** X21.  A cancellation is not seen before the first question has been
    analyzed, since the promise that reports it is made in the block that
    runs the first race.  When a cancellation is requested all along a run
    over two questions or more, [analyze] analyzes the first question,
    sees the cancellation at the second and returns that one result,
    flagged as cancelled and without error; the result is stored and the
    work item is left [PARTIAL] with the progress of one question. *)
Theorem analyze_cancelled_after_first (env : Env)
    (userId fileId fileContent fileType workloadId : str)
    (selectedPillars : list str)
    (taxonomy : list WellArchitectedBestPractice.t)
    (storedType : option str) (storedFields : WorkItemFields.t)
    (pillar1 pillar2 : str) (question1 question2 : QuestionGroup.t)
    (others : list (str * QuestionGroup.t))
    (st : St AnalyzeLocals.t) :
  (forall history, storageFault env history = None) ->
  (forall history, cancelRequested env history = true) ->
  (forall history, exists contexts, knowledgeBase env history = Ok contexts) ->
  (forall history,
     originalContent env history = Ok (Text fileContent, fileType)) ->
  analyzable fileContent fileType = true ->
  (forall history,
     exists text response verdicts,
       analysisModel env history = Ok text /\
       parseAnalysis env (cleanJsonString text) = Ok response /\
       ModelResponse.bestPractices response = Some (Some <$> verdicts)) ->
  truthy userId = true ->
  items (world st) !! (userId, fileId) = Some (storedType, storedFields) ->
  cachedBestPractices (world st) = Some taxonomy ->
  questionsOf taxonomy selectedPillars
  = (pillar1, question1) :: (pillar2, question2) :: others ->
  exists st' analysis before,
    analyze env fileId workloadId selectedPillars (Some userId) st
    = (Some (Ok {| AnalyzeReturn.results := [analysis];
                   AnalyzeReturn.isCancelled := true;
                   AnalyzeReturn.error := None;
                   AnalyzeReturn.fileId := Some fileId |}), st') /\
    AnalysisResult.question analysis = QuestionGroup.title question1 /\
    In (PollCancel false) before /\
    trace (world st')
    = before ++
      [PollCancel true;
       StoreAnalysisResults userId fileId [analysis] (Ok tt);
       UpdateWorkItem userId fileId
         (WorkItemFields.analysis (Some PARTIAL)
            (Some (roundPercent 1 (2 + length others)))
            (Some (lit "Analysis cancelled by user.")) (Some true))
         (Ok tt);
       EmitAnalysisProgress 1 (2 + length others) pillar2
         "Analysis cancelled"] /\
    analysisStatusOf userId fileId (world st') = Some PARTIAL /\
    analysisProgressOf userId fileId (world st')
    = Some (roundPercent 1 (2 + length others)).
Proof.
  intros storage_ok cancelled retrieval_ok content_read content_ok model_ok
    Huser Hitem Hcache Hqs.
  assert (wp (analyze env fileId workloadId selectedPillars (Some userId))
            (fun out st' =>
               exists analysis before,
                 out
                 = Some (Ok {| AnalyzeReturn.results := [analysis];
                               AnalyzeReturn.isCancelled := true;
                               AnalyzeReturn.error := None;
                               AnalyzeReturn.fileId := Some fileId |}) /\
                 AnalysisResult.question analysis
                 = QuestionGroup.title question1 /\
                 In (PollCancel false) before /\
                 trace (world st')
                 = before ++
                   [PollCancel true;
                    StoreAnalysisResults userId fileId [analysis] (Ok tt);
                    UpdateWorkItem userId fileId
                      (WorkItemFields.analysis (Some PARTIAL)
                         (Some (roundPercent 1 (2 + length others)))
                         (Some (lit "Analysis cancelled by user."))
                         (Some true))
                      (Ok tt);
                    EmitAnalysisProgress 1 (2 + length others) pillar2
                      "Analysis cancelled"] /\
                 analysisStatusOf userId fileId (world st') = Some PARTIAL /\
                 analysisProgressOf userId fileId (world st')
                 = Some (roundPercent 1 (2 + length others))) st) as Hwp.
  { destruct st as [w l]. cbn [world] in *.
    unfold analyze, getFileContent, getWorkItem, getOriginalContent,
      setWorkItem, updateWorkItem, loadBestPractices.
    wp_run_ok storage_ok.
    all: cbn [cachedBestPractices record mergeWorkItem] in *.
    all: try (rewrite content_read in *).
    all: same_outcome.
    all: try (rewrite Huser in *; discriminate).
    unfold lookupWorkItem. cbn [items record]. rewrite Hitem.
    match goal with
    | |- wp _ _ ?st0 =>
        destruct (mapM_retrieve env taxonomy workloadId selectedPillars st0)
          as (groups & Hrun & Hlen & Hq); [exact Hcache|]
    end.
    eapply wp_eq; [exact Hrun|]. apply wp_ret. cbn [afterBind].
    rewrite (countQuestions_length _ _ Hlen), Hq, Hqs. cbn [length].
    wp_step. wp_step. wp_step.
    eapply wp_eq; [apply forEach_nested|]. rewrite Hq, Hqs.
    cbn [forEach]. wp_step. eapply wp_mono.
    { apply (analyzeStep_proceeds env userId _ _ _
               storage_ok retrieval_ok content_ok model_ok _ _ _
               (WorkItem.mk fileId storedType storedFields));
        [reflexivity|].
      cbn [world]. rewrite Nat.ltb_irrefl. reflexivity. }
    intros out [w1 l1] (-> & (new & Htr) & analysis & Hq1 & Hl1).
    cbn [locals world AnalyzeLocals.results
         AnalyzeLocals.processedQuestions] in Htr, Hl1. subst l1.
    cbn [afterBind]. wp_step. eapply wp_mono.
    { apply (analyzeStep_cancelled env userId fileId _ _
               _ _ pillar2 question2 storedType storedFields _ storage_ok);
        [reflexivity|reflexivity|].
      cbn [world]. rewrite cancelled, andb_true_r. apply Nat.ltb_lt.
      rewrite Htr, length_app. cbn [length]. lia. }
    intros out [w2 l2] (-> & Hl2 & Htr2 & Hstatus & Hprogress).
    cbn [locals world AnalyzeLocals.results
         AnalyzeLocals.processedQuestions app] in Hl2, Htr2, Hstatus,
      Hprogress.
    subst l2. cbn [afterBind]. wp_run.
    exists analysis. eexists. split; [reflexivity|].
    split; [exact Hq1|]. cbn [world].
    split; [|split; [rewrite Htr2, Htr; reflexivity|split; assumption]].
    apply in_or_app. right. left. reflexivity. }
  destruct (analyze env fileId workloadId selectedPillars (Some userId) st)
    as [out st'] eqn:Hrun.
  apply (wp_exec _ _ _ _ _ Hwp) in Hrun.
  destruct Hrun as (analysis & before & -> & H).
  exists st', analysis, before. split; [reflexivity|exact H].
Qed.

Lemma analyze_cancelled_after_first_witness :
  exists st' analysis before,
    analyze (cancelling answeringEnv) "f" "w" examplePillars (Some (lit "u"))
      (mkSt (loadedWorld exampleTaxonomy) (AnalyzeLocals.mk [] None O))
    = (Some (Ok {| AnalyzeReturn.results := [analysis];
                   AnalyzeReturn.isCancelled := true;
                   AnalyzeReturn.error := None;
                   AnalyzeReturn.fileId := Some (lit "f") |}), st') /\
    AnalysisResult.question analysis
    = lit "How do you protect data at rest?" /\
    In (PollCancel false) before /\
    trace (world st')
    = before ++
      [PollCancel true;
       StoreAnalysisResults "u" "f" [analysis] (Ok tt);
       UpdateWorkItem "u" "f"
         (WorkItemFields.analysis (Some PARTIAL) (Some (roundPercent 1 5))
            (Some (lit "Analysis cancelled by user.")) (Some true))
         (Ok tt);
       EmitAnalysisProgress 1 5 "security" "Analysis cancelled"] /\
    analysisStatusOf (lit "u") (lit "f") (world st') = Some PARTIAL /\
    analysisProgressOf (lit "u") (lit "f") (world st')
    = Some (roundPercent 1 5).
Proof.
  destruct (analyze_cancelled_after_first (cancelling answeringEnv)
               "u" "f" "data:image/png;base64,iVBORw0KGgo=" "image/png" "w"
               examplePillars exampleTaxonomy (Some (lit "image/png"))
               WorkItemFields.none "security" "security"
               (QuestionGroup.mk "Security" "How do you protect data at rest?"
                  [] [lit "Use encryption"; lit "Rotate keys"] [[]; []])
               (QuestionGroup.mk "Security" "How do you manage identities?"
                  [] [lit "Use roles"] [[]])
               (drop 2 (questionsOf exampleTaxonomy examplePillars))
               (mkSt (loadedWorld exampleTaxonomy)
                  (AnalyzeLocals.mk [] None O)))
    as (st' & analysis & before & H).
  - intros history. reflexivity.
  - intros history. reflexivity.
  - intros history. eexists. reflexivity.
  - intros history. reflexivity.
  - vm_compute. reflexivity.
  - intros history. eexists _, _, [_]. repeat split; reflexivity.
  - reflexivity.
  - vm_compute. reflexivity.
  - reflexivity.
  - vm_compute. reflexivity.
  - exists st', analysis, before. exact H.
Defined.
(** ** The identifiers given to the taxonomy *)

Lemma questionIds_snoc (answers : list AnswerSummary.t)
    (answer : AnswerSummary.t) :
  questionIds (answers ++ [answer])
  = <[AnswerSummary.QuestionTitle answer := AnswerSummary.QuestionId answer]>
      (questionIds answers).
Proof. unfold questionIds. rewrite fold_left_app. reflexivity. Qed.

Lemma questionIds_lookup (answers : list AnswerSummary.t) (question : str) :
  questionIds answers !! question
  = AnswerSummary.QuestionId <$>
    last (filter (fun answer => AnswerSummary.QuestionTitle answer = question)
            answers).
Proof.
  induction answers as [|answer answers IH] using rev_ind.
  - reflexivity.
  - rewrite questionIds_snoc, filter_app, filter_cons, filter_nil.
    destruct (decide (AnswerSummary.QuestionTitle answer = question))
      as [<- | Hne].
    + rewrite lookup_insert_eq, last_snoc. reflexivity.
    + rewrite lookup_insert_ne by exact Hne. rewrite app_nil_r. exact IH.
Qed.

(** X22.  [loadBestPractices] leaves the pillar, the question and the
    practice of an entry as they are; the question identifier it adds is
    that of the last answer of the workload that carries the question's
    title, and the fallback identifier made from the title when there is no
    such answer or its identifier is empty; without any answer the practice
    identifier is the fallback made from question and practice. *)
Theorem enrich_identifiers (answers : list AnswerSummary.t)
    (bp : WellArchitectedBestPractice.t) :
  let enriched := enrich (choiceIds answers) (questionIds answers) bp in
  let question := WellArchitectedBestPractice.Question bp in
  WellArchitectedBestPractice.Pillar enriched
  = WellArchitectedBestPractice.Pillar bp /\
  WellArchitectedBestPractice.Question enriched = question /\
  WellArchitectedBestPractice.Best_Practice enriched
  = WellArchitectedBestPractice.Best_Practice bp /\
  WellArchitectedBestPractice.questionId enriched
  = match last (filter
                  (fun answer => AnswerSummary.QuestionTitle answer = question)
                  answers) with
    | Some answer =>
        if truthy (AnswerSummary.QuestionId answer)
        then AnswerSummary.QuestionId answer
        else generateFallbackBestPracticeId question
    | None => generateFallbackBestPracticeId question
    end /\
  WellArchitectedBestPractice.bestPracticeId
    (enrich (choiceIds []) (questionIds []) bp)
  = generateFallbackBestPracticeId
      (question ++ lit "-" ++ WellArchitectedBestPractice.Best_Practice bp).
Proof.
  cbv zeta. unfold enrich. cbn.
  repeat (split; [reflexivity|]). split.
  - rewrite questionIds_lookup.
    destruct (last _) as [answer|]; reflexivity.
  - reflexivity.
Qed.
(** ** What a question group takes from the first entries *)

Lemma addPractice_questionId (m : OrderedMap GroupData.t)
    (bp : WellArchitectedBestPractice.t) (q : str) :
  GroupData.questionId <$> mapGet q (addPractice m bp)
  = match mapGet q m with
    | Some data => Some (GroupData.questionId data)
    | None =>
        if decide (WellArchitectedBestPractice.Question bp = q)
        then Some (WellArchitectedBestPractice.questionId bp)
        else None
    end.
Proof.
  unfold addPractice. cbv zeta.
  set (key := WellArchitectedBestPractice.Question bp).
  destruct (mapHas key m) eqn:Hhas; cbn [negb].
  - rewrite mapGet_update.
    destruct (decide (key = q)) as [<- | Hne].
    + rewrite str_eqb_refl. destruct (mapGet key m) eqn:Hg; [reflexivity|].
      apply mapHas_get in Hg. congruence.
    + rewrite (str_eqb_neq _ _ Hne). destruct (mapGet q m); reflexivity.
  - apply mapHas_get in Hhas.
    rewrite mapGet_update, (mapGet_set_fresh _ _ _ Hhas).
    destruct (decide (key = q)) as [<- | Hne].
    + rewrite str_eqb_refl, Hhas. reflexivity.
    + rewrite (str_eqb_neq _ _ Hne). destruct (mapGet q m); reflexivity.
Qed.

Lemma fold_addPractice_questionId (l : list WellArchitectedBestPractice.t) :
  forall (m : OrderedMap GroupData.t) (q : str),
    GroupData.questionId <$> mapGet q (fold_left addPractice l m)
    = match mapGet q m with
      | Some data => Some (GroupData.questionId data)
      | None =>
          WellArchitectedBestPractice.questionId <$>
          head (filter (fun bp => WellArchitectedBestPractice.Question bp = q)
                  l)
      end.
Proof.
  induction l as [|bp l IH]; intros m q; cbn [fold_left].
  - destruct (mapGet q m); reflexivity.
  - rewrite IH. pose proof (addPractice_questionId m bp q) as Hstep.
    rewrite filter_cons.
    destruct (mapGet q (addPractice m bp)) as [data'|];
      destruct (mapGet q m) as [data|]; cbn in Hstep;
      destruct (decide (WellArchitectedBestPractice.Question bp = q));
      cbn; congruence.
Qed.

(** X23.  Every group that [retrieveBestPractices] returns carries the
    pillar name of the first entry of the taxonomy under the pillar, and
    the question identifier of the first entry of its own question. *)
Theorem retrieveBestPractices_first_entries (env : Env) (L : Type)
    (taxonomy : list WellArchitectedBestPractice.t)
    (pillarId workloadId : str)
    (stored : gmap (str * str) (option str * WorkItemFields.t))
    (history : list Event) (l : L) :
  let st :=
    mkSt {| items := stored;
            cachedBestPractices := Some taxonomy;
            trace := history |} l in
  exists groups,
    retrieveBestPractices env pillarId workloadId st = (Some (Ok groups), st)
    /\
    Forall
      (fun group =>
         Some (QuestionGroup.pillar group)
         = WellArchitectedBestPractice.Pillar <$>
           head (filter
                   (fun bp =>
                      pillarSlug (WellArchitectedBestPractice.Pillar bp)
                      = pillarId) taxonomy) /\
         Some (QuestionGroup.questionId group)
         = WellArchitectedBestPractice.questionId <$>
           head (entriesOf taxonomy pillarId (QuestionGroup.title group)))
      groups.
Proof.
  intros st.
  assert (exists groups,
            groupBestPractices taxonomy pillarId = Ok groups /\
            Forall
              (fun group =>
                 Some (QuestionGroup.pillar group)
                 = WellArchitectedBestPractice.Pillar <$>
                   head (filter
                           (fun bp =>
                              pillarSlug (WellArchitectedBestPractice.Pillar bp)
                              = pillarId) taxonomy) /\
                 Some (QuestionGroup.questionId group)
                 = WellArchitectedBestPractice.questionId <$>
                   head (entriesOf taxonomy pillarId
                           (QuestionGroup.title group)))
              groups) as (groups & Hg & Hall).
  { unfold groupBestPractices.
    set (pbp := filter _ taxonomy).
    destruct (fold_addPractice_spec pbp [] (NoDup_nil_2)) as (Hnd & _).
    pose proof (fold_addPractice_questionId pbp []) as Hids.
    destruct (fold_left addPractice pbp []) as [|e m] eqn:Hfold.
    { eexists. split; [reflexivity | constructor]. }
    destruct pbp as [|first rest] eqn:Hpbp; [discriminate|].
    eexists. split; [reflexivity|].
    apply Forall_map, Forall_forall. intros [q data] Hin.
    cbn [QuestionGroup.pillar QuestionGroup.questionId QuestionGroup.title
         fst snd head fmap option_fmap option_map].
    split; [reflexivity|].
    specialize (Hids q). rewrite (elem_of_mapGet _ _ _ Hnd Hin) in Hids.
    cbn [fmap option_fmap option_map mapGet] in Hids. rewrite Hids.
    unfold entriesOf. rewrite <- list_filter_filter. fold pbp.
    rewrite Hpbp. reflexivity. }
  exists groups. split; [|exact Hall].
  unfold retrieveBestPractices, loadBestPractices, tryCatch, bind, getWorld,
    liftResult, ret.
  simpl. rewrite Hg. reflexivity.
Qed.
(** ** Names without a letter or a digit *)

Lemma dropLast_nil_iff (t : str) :
  dropLastIf "-" (replaceRunsFrom notLowerAlnum ["-"%char] true t) = [] <->
  replaceRunsFrom notLowerAlnum ["-"%char] true t = [].
Proof.
  destruct (replaceRunsFrom notLowerAlnum ["-"%char] true t) as [|x X] eqn:Hr;
    [split; reflexivity|].
  pose proof (runs_after_head t x X Hr) as Hx.
  rewrite (dropLast_keep x X (alnum_not_hyphen x Hx)).
  split; discriminate.
Qed.

(** Among the characters modelled, those that are in [a-z0-9] once put in
    lower case are the letters of the basic alphabet and the digits. *)
Lemma lower_alnum_iff (c : ascii) :
  isLowerAlnum (lowerChar c) = false <-> ~ isLetterOrDigit c.
Proof.
  unfold isLetterOrDigit.
  ascii_cases c; vm_compute; split;
    first [ discriminate
          | intros _ H; repeat destruct H as [H | H];
            destruct H as [H1 H2]; contradiction || congruence
          | intros _; reflexivity
          | intros H; exfalso; apply H;
            first [ left; split; discriminate
                  | right; left; split; discriminate
                  | right; right; split; discriminate ] ].
Qed.

(** X24.  For a name whose characters are all among those modelled, the
    fallback identifier is empty exactly when the name holds no letter of
    the basic Latin alphabet and no digit; every other name gets an
    identifier that is not empty. *)
Theorem fallback_id_empty (name : str) :
  generateFallbackBestPracticeId name = [] <->
  Forall (fun c => ~ isLetterOrDigit c) name.
Proof.
  unfold generateFallbackBestPracticeId. change (lit "-") with ["-"%char].
  rewrite strip_leading, dropLast_nil_iff, runs_nil_iff.
  unfold toLowerCase. rewrite forallb_forall, List.Forall_forall.
  split.
  - intros H c Hc. apply lower_alnum_iff.
    specialize (H (lowerChar c) (in_map _ _ _ Hc)).
    unfold notLowerAlnum in H. destruct (isLowerAlnum (lowerChar c));
      [discriminate | reflexivity].
  - intros H c' Hc'. apply in_map_iff in Hc' as (c & <- & Hc).
    unfold notLowerAlnum. rewrite (proj2 (lower_alnum_iff c) (H c Hc)).
    reflexivity.
Qed.
(** ** How a run leaves the work item *)

Section Exit.

Context (env : Env) (userId fileId fileContent fileType : str)
  (totalQuestions cancelPromise : nat) (item : WorkItem.t).

Hypothesis storage_ok : forall history, storageFault env history = None.
Hypothesis item_id : WorkItem.fileId item = fileId.





End Exit.

Section Frames.

Context (env : Env) {L : Type}.




End Frames.



